(** * octotools: the command executor ([octotools/models/executor.py])

    A shallow embedding of [Executor.extract_explanation_and_command] and
    [Executor.execute_tool_command], with the regular expressions they
    rely on, and the properties of the parser, the normalizer, the
    splitter and the coordinator.

    - Texts are Python [str] values restricted to the code points below
      256: a text is a list of [ascii] characters, the character being
      its code point.
    - The backtracking matcher of the [re] module is the list of its
      successes in the order in which it tries them; [re.search],
      [re.findall] and [re.sub] read the first one at each position.
    - The coordinator runs in a state-and-exception monad over the state
      of the process: the alarm of [signal.alarm], the handler of
      [SIGALRM], the dictionary of global names and the thread the
      coordinator is called in. The interpreter
      behind [exec], the import of a tool and its methods are parameters
      of the coordinator. *)

From Stdlib Require Import Ascii String DecimalString DecimalNat.
From stdpp Require Import base list strings gmap.

Open Scope list_scope.

Abbreviation text := (list ascii).

(** A string literal as a text. *)
Definition str (s : string) : text := list_ascii_of_string s.

(** ** Characters *)

Definition chr_eqb (a b : ascii) : bool := Ascii.eqb a b.

(** [str.isspace] on one character, which is also the class [\s] of the
    [re] module on [str] patterns: TAB, LF, VT, FF, CR, the four
    separators FS, GS, RS and US, the space, NEL and the no-break space. *)
Definition is_space (c : ascii) : bool :=
  let n := nat_of_ascii c in
  ((9 <=? n) && (n <=? 13)) || ((28 <=? n) && (n <=? 32))
  || (n =? 133) || (n =? 160).

Definition newline : ascii := "010"%char.
Definition backtick : ascii := "`"%char.

Definition is_newline (c : ascii) : bool := chr_eqb c newline.
Definition not_newline (c : ascii) : bool := negb (is_newline c).
Definition any_char (c : ascii) : bool := true.

(** ** [str.strip], [str.rstrip(chars)] *)

(** [s.lstrip(chars)], the set of characters given as a predicate. *)
Fixpoint lstrip_by (p : ascii -> bool) (s : text) : text :=
  match s with
  | c :: tl => if p c then lstrip_by p tl else s
  | [] => []
  end.

(** [s.rstrip(chars)]. *)
Definition rstrip_by (p : ascii -> bool) (s : text) : text :=
  reverse (lstrip_by p (reverse s)).

(** [s.strip()]. *)
Definition strip (s : text) : text := rstrip_by is_space (lstrip_by is_space s).

(** [s.rstrip('```')]: the argument is a set of characters, here the
    backtick alone. *)
Definition rstrip_backticks (s : text) : text :=
  rstrip_by (fun c => existsb (chr_eqb c) (str "```")) s.

(** ** Regular expressions of the [re] module

    The fragment the program uses: literals, classes, greedy and lazy
    repetition of a class, sequence, alternation, the anchors [^] and
    [$] (without [re.MULTILINE]) and one capturing group. *)

Inductive regex : Type :=
  | Eps
  | Cls (p : ascii -> bool)
  | Seq (a b : regex)
  | Alt (a b : regex)
  | StarG (p : ascii -> bool)
  | StarL (p : ascii -> bool)
  | Bos
  | Eos
  | Grp (a : regex).

Definition Chr (c : ascii) : regex := Cls (fun x => chr_eqb x c).

(** A literal word, character by character. *)
Fixpoint lit (w : text) : regex :=
  match w with
  | [] => Eps
  | c :: tl => Seq (Chr c) (lit tl)
  end.

(** The sequence of several expressions. *)
Fixpoint seqs (rs : list regex) : regex :=
  match rs with
  | [] => Eps
  | [r] => r
  | r :: tl => Seq r (seqs tl)
  end.

(** The state of a match in progress: the position in the subject, the
    text from there on, and what group 1 holds. *)
Record mstate : Type := MState {
  m_pos : nat;
  m_rest : text;
  m_grp : option text
}.

(** A repetition of a class, greedy: the longest run first, then one
    character less at a time. *)
Fixpoint star_greedy (p : ascii -> bool) (pos : nat) (s : text)
    (g : option text) : list mstate :=
  match s with
  | c :: tl =>
      if p c then star_greedy p (S pos) tl g ++ [MState pos s g]
      else [MState pos s g]
  | [] => [MState pos [] g]
  end.

(** A repetition of a class, lazy: no character first, then one more at a
    time. *)
Fixpoint star_lazy (p : ascii -> bool) (pos : nat) (s : text)
    (g : option text) : list mstate :=
  MState pos s g ::
  match s with
  | c :: tl => if p c then star_lazy p (S pos) tl g else []
  | [] => []
  end.

(** The backtracking matcher as the list of its successes, in the order
    in which the matcher of [re] tries them: the head of the list is the
    match that [re] reports. *)
Fixpoint enum (r : regex) (st : mstate) : list mstate :=
  match r with
  | Eps => [st]
  | Cls p =>
      match m_rest st with
      | c :: tl => if p c then [MState (S (m_pos st)) tl (m_grp st)] else []
      | [] => []
      end
  | Seq a b => flat_map (enum b) (enum a st)
  | Alt a b => enum a st ++ enum b st
  | StarG p => star_greedy p (m_pos st) (m_rest st) (m_grp st)
  | StarL p => star_lazy p (m_pos st) (m_rest st) (m_grp st)
  | Bos => if m_pos st =? 0 then [st] else []
  | Eos =>
      match m_rest st with
      | [] => [st]
      | [c] => if is_newline c then [st] else []
      | _ => []
      end
  | Grp a =>
      map (fun st' => MState (m_pos st') (m_rest st')
                        (Some (take (m_pos st' - m_pos st) (m_rest st))))
          (enum a st)
  end.

(** The match of [r] that starts at position [pos], where the subject
    continues with [s]. *)
Definition match_at (r : regex) (pos : nat) (s : text) : option mstate :=
  head (enum r (MState pos s None)).

(** [re.search]: the first position with a match, and that match. *)
Fixpoint search_from (r : regex) (pos : nat) (s : text)
    : option (nat * mstate) :=
  match match_at r pos s with
  | Some st => Some (pos, st)
  | None =>
      match s with
      | [] => None
      | _ :: tl => search_from r (S pos) tl
      end
  end.

Definition re_search (r : regex) (s : text) : option (nat * mstate) :=
  search_from r 0 s.

(** [m.group(1)]: [None] when the group took no part in the match. *)
Definition group1 (m : nat * mstate) : option text := m_grp (snd m).

(** The scan that [re.findall] and [re.sub] share: the subject cut into
    the characters outside every match and the matches, from left to
    right, the matches not overlapping. [busy] counts the characters
    that still belong to the last match. After an empty match the scan
    moves one character on; no pattern of this program matches the empty
    text. *)
Inductive piece : Type :=
  | Outside (c : ascii)
  | Hit (m : text) (g : option text).

Fixpoint scan (r : regex) (pos : nat) (s : text) (busy : nat) : list piece :=
  match busy with
  | S b =>
      match s with
      | [] => []
      | _ :: tl => scan r (S pos) tl b
      end
  | 0 =>
      match match_at r pos s with
      | Some st =>
          let n := m_pos st - pos in
          Hit (take n s) (m_grp st) ::
          match s with
          | [] => []
          | c :: tl =>
              if n =? 0 then Outside c :: scan r (S pos) tl 0
              else scan r (S pos) tl (n - 1)
          end
      | None =>
          match s with
          | [] => []
          | c :: tl => Outside c :: scan r (S pos) tl 0
          end
      end
  end.

(** [re.findall] for a pattern without a capturing group: the matched
    texts. *)
Definition re_findall (r : regex) (s : text) : list text :=
  flat_map (fun pc => match pc with Hit m _ => [m] | Outside _ => [] end)
           (scan r 0 s 0).

(** [re.sub(pattern, '', s)]: what is left outside the matches. *)
Definition re_sub_empty (r : regex) (s : text) : text :=
  flat_map (fun pc => match pc with Hit _ _ => [] | Outside c => [c] end)
           (scan r 0 s 0).

(** ** The patterns of the program *)

(** [r'^```python\s*'] *)
Definition fence_open_pattern : regex :=
  seqs [Bos; lit (str "```python"); StarG is_space].

(** [r'.*?execution\s*=\s*tool\.execute\([^\n]*\)\s*(?:\n|$)'], with
    [re.DOTALL]: first the pattern after its lazy [.*?], then the whole
    pattern. *)
Definition invocation_tail : regex :=
  seqs [lit (str "execution"); StarG is_space; lit (str "=");
        StarG is_space; lit (str "tool.execute("); StarG not_newline;
        lit (str ")"); StarG is_space; Alt (Chr newline) Eos].

Definition split_pattern : regex := Seq (StarL any_char) invocation_tail.

(** [r"Analysis:(.*?)Command Explanation"], with [re.DOTALL]. *)
Definition analysis_pattern : regex :=
  seqs [lit (str "Analysis:"); Grp (StarL any_char);
        lit (str "Command Explanation")].

(** [r"Command Explanation:(.*?)Generated Command"], with [re.DOTALL]. *)
Definition explanation_pattern : regex :=
  seqs [lit (str "Command Explanation:"); Grp (StarL any_char);
        lit (str "Generated Command")].

(** [r"Generated Command:.*?```python\n(.*?)```"], with [re.DOTALL]. *)
Definition command_pattern : regex :=
  seqs [lit (str "Generated Command:"); StarL any_char;
        lit (str "```python" ++ [newline]); Grp (StarL any_char);
        lit (str "```")].

(** ** [normalize_code] *)

Definition normalize_code (code : text) : text :=
  strip (rstrip_backticks (re_sub_empty fence_open_pattern code)).

(** ** [split_commands] *)

Definition nonempty (s : text) : bool :=
  match s with [] => false | _ => true end.

(** [[block.strip() for block in blocks if block.strip()]]: a text is
    true when it is not empty. *)
Definition split_commands (command : text) : list text :=
  let blocks := re_findall split_pattern command in
  filter (fun b => nonempty b = true) (map strip blocks).

(** ** [extract_explanation_and_command] *)

(** The exceptions of the program: [TimeoutError], which the alarm
    handler raises; every other subclass of [Exception]; and what is
    outside [Exception] ([SystemExit], [KeyboardInterrupt],
    [GeneratorExit]), which [except Exception] lets pass. The text is
    [str(e)]. *)
Inductive exn : Type :=
  | TimeoutError (msg : text)
  | OtherError (msg : text)
  | BaseError (msg : text).

Definition exn_str (e : exn) : text :=
  match e with TimeoutError m => m | OtherError m => m | BaseError m => m end.

(** [isinstance(e, Exception)]. *)
Definition is_exception (e : exn) : bool :=
  match e with BaseError _ => false | _ => true end.

Inductive result (A : Type) : Type :=
  | Ok (a : A)
  | Raise (e : exn).
Arguments Ok {A} a.
Arguments Raise {A} e.

(** [octotools.models.formatters.ToolCommand]. *)
Record ToolCommand : Type := {
  analysis : text;
  explanation : text;
  command : text
}.

(** What [extract_explanation_and_command] receives: a [str] or a
    [ToolCommand]. *)
Inductive response : Type :=
  | RText (s : text)
  | RCommand (t : ToolCommand).

Definition no_analysis : text := str "No analysis found.".
Definition no_explanation : text := str "No explanation found.".
Definition no_command : text := str "No command found.".

(** [m.group(1).strip() if m else fallback]; [None.strip()] raises
    [AttributeError]. *)
Definition group1_strip_or (m : option (nat * mstate)) (fallback : text)
    : result text :=
  match m with
  | Some hit =>
      match group1 hit with
      | Some g => Ok (strip g)
      | None =>
          Raise (OtherError
                   (str "'NoneType' object has no attribute 'strip'"))
      end
  | None => Ok fallback
  end.

(** [decode] stands for the [ToolCommand] built from
    [json.loads(response)], which is outside this file: [None] when it
    raises. The message printed in that case is not part of the model. *)
Definition extract_explanation_and_command
    (decode : text -> option ToolCommand) (resp : response)
    : result (text * text * text) :=
  let resp :=
    match resp with
    | RText s =>
        match decode s with
        | Some t => RCommand t
        | None => RText s
        end
    | RCommand t => RCommand t
    end in
  match resp with
  | RCommand t =>
      Ok (strip (analysis t), strip (explanation t),
          normalize_code (strip (command t)))
  | RText s =>
      match group1_strip_or (re_search analysis_pattern s) no_analysis with
      | Raise e => Raise e
      | Ok a =>
          match group1_strip_or (re_search explanation_pattern s)
                                no_explanation with
          | Raise e => Raise e
          | Ok e =>
              match group1_strip_or (re_search command_pattern s)
                                    no_command with
              | Raise e => Raise e
              | Ok c => Ok (a, e, normalize_code c)
              end
          end
      end
  end.

(** ** Values, scopes and the process *)

(** Python values as far as the coordinator tells them apart: [None],
    texts, integers, and any other object by its identity. *)
Inductive pyval : Type :=
  | PNone
  | PStr (s : text)
  | PInt (n : Z)
  | PObj (id : nat).

(** A dictionary of names: [local_context], and the module's
    [globals()]. *)
Abbreviation scope := (gmap string pyval).

(** The state of the process that the coordinator and the blocks share:
    the pending alarm of [signal.alarm] in seconds, whether
    [timeout_handler] is installed for [SIGALRM], the dictionary
    [globals()] of the module, and whether the code runs in the main
    thread of the main interpreter. *)
Record world : Type := World {
  alarm : option nat;
  handler_installed : bool;
  module_globals : scope;
  main_thread : bool
}.

(** Computations that read and change the process and may raise. *)
Definition M (A : Type) : Type := world -> result A * world.

Definition ret {A} (a : A) : M A := fun w => (Ok a, w).
Definition raise {A} (e : exn) : M A := fun w => (Raise e, w).
Definition bind {A B} (m : M A) (k : A -> M B) : M B :=
  fun w =>
    match m w with
    | (Ok a, w') => k a w'
    | (Raise e, w') => (Raise e, w')
    end.

Notation "x <- m ;; k" := (bind m (fun x => k))
  (at level 100, m at next level, right associativity).
Notation "m ;;; k" := (bind m (fun _ => k))
  (at level 100, right associativity).

(** [try: body except TimeoutError: handler]. *)
Definition try_except_timeout {A} (body : M A) (handler : M A) : M A :=
  fun w =>
    match body w with
    | (Raise (TimeoutError _), w') => handler w'
    | other => other
    end.

(** [try: body except Exception as e: handler(e)]: an exception outside
    [Exception] is not caught. *)
Definition try_except {A} (body : M A) (handler : exn -> M A) : M A :=
  fun w =>
    match body w with
    | (Raise e, w') => if is_exception e then handler e w' else (Raise e, w')
    | other => other
    end.

(** [try: body finally: final]: [final] runs however [body] ends, and an
    exception of [final] takes the place of the outcome of [body]. *)
Definition try_finally {A} (body : M A) (final : M unit) : M A :=
  fun w =>
    let '(r, w') := body w in
    match final w' with
    | (Ok _, w'') => (r, w'')
    | (Raise e, w'') => (Raise e, w'')
    end.

(** The process with [timeout_handler] installed for [SIGALRM], and with
    the alarm set: a pending alarm is replaced, and [0] only cancels
    it. *)
Definition with_handler (w : world) : world :=
  World (alarm w) true (module_globals w) (main_thread w).

Definition with_alarm (seconds : nat) (w : world) : world :=
  World (match seconds with 0 => None | S _ => Some seconds end)
        (handler_installed w) (module_globals w) (main_thread w).

(** [signal.signal(signal.SIGALRM, timeout_handler)]: outside the main
    thread it raises [ValueError]. *)
Definition signal_signal : M unit :=
  fun w =>
    if main_thread w then (Ok tt, with_handler w)
    else (Raise (OtherError (str "signal only works in main thread of the main interpreter")),
          w).

(** A number that fits the [int] of C. *)
Definition fits_int (n : nat) : bool := (Z.of_nat n <? 2 ^ 31)%Z.

(** [signal.alarm(seconds)]: from [2**31] on the argument raises
    [OverflowError]. *)
Definition signal_alarm (seconds : nat) : M unit :=
  fun w =>
    if fits_int seconds then (Ok tt, with_alarm seconds w)
    else (Raise (OtherError (str "Python int too large to convert to C int")),
          w).

(** ** The collaborators of [execute_tool_command] *)

(** A tool class: its attribute [require_llm_engine] ([False] when it has
    none) and its constructor, called with [model_string] or without an
    argument; the instance is an object. *)
Record tool_class : Type := {
  require_llm_engine : bool;
  construct : option text -> M pyval
}.

(** What stays outside this file: [importlib.import_module], which gives
    a module as the classes it holds by name; the attribute
    [set_custom_output_dir] of a tool, a method to call with the
    directory; and [exec(block, globals(), local_context)], which gives
    the scope as the block leaves it. The dictionary [globals()] is part
    of the process. *)
Record runtime : Type := {
  import_module : text -> M (text -> option tool_class);
  set_custom_output_dir : pyval -> M (text -> M unit);
  py_exec : text -> scope -> M scope
}.

Record Executor : Type := {
  llm_engine_name : text;
  root_cache_dir : text;
  num_threads : nat;
  max_time : nat;
  max_output_length : Z;
  verbose : bool;
  (** set by [set_query_cache_dir], absent before *)
  query_cache_dir : option text
}.

(** ** [str.lower], [str.replace], decimal numerals *)

Definition lower_char (c : ascii) : ascii :=
  let n := nat_of_ascii c in
  if ((65 <=? n) && (n <=? 90))
     || ((192 <=? n) && (n <=? 222) && negb (n =? 215))
  then ascii_of_nat (n + 32) else c.

Definition lower (s : text) : text := map lower_char s.

Fixpoint starts_with (w s : text) : bool :=
  match w, s with
  | [], _ => true
  | a :: w', b :: s' => chr_eqb b a && starts_with w' s'
  | _ :: _, [] => false
  end.

(** [s.replace(old, new)] for a non-empty [old]; [busy] counts the
    characters of an occurrence still to pass. *)
Fixpoint replace_from (old new s : text) (busy : nat) : text :=
  match s with
  | [] => []
  | c :: tl =>
      match busy with
      | S b => replace_from old new tl b
      | 0 =>
          if starts_with old s
          then new ++ replace_from old new tl (length old - 1)
          else c :: replace_from old new tl 0
      end
  end.

Definition replace (old new s : text) : text := replace_from old new s 0.

(** [str(n)] for a natural number. *)
Definition decimal (n : nat) : text :=
  str (NilEmpty.string_of_uint (Nat.to_uint n)).

(** ** [execute_tool_command] *)

Definition timeout_message (self : Executor) : text :=
  str "Execution timed out after " ++ decimal (max_time self)
  ++ str " seconds".

(** [local_context.get('execution')]. *)
Definition get_execution (local_context : scope) : pyval :=
  default PNone (local_context !! "execution"%string).

Definition execute_with_timeout (rt : runtime) (self : Executor)
    (block : text) (local_context : scope) : M pyval :=
  signal_signal ;;;
  signal_alarm (max_time self) ;;;
  try_finally
    (try_except_timeout
       (local_context' <- py_exec rt block local_context ;;
        let result := get_execution local_context' in
        signal_alarm 0 ;;;
        ret result)
       (ret (PStr (timeout_message self))))
    (signal_alarm 0).

Definition no_execution_captured (block : text) : pyval :=
  PStr (str "No execution captured from block: " ++ block).

(** The loop over [command_blocks]. *)
Fixpoint run_blocks (rt : runtime) (self : Executor) (tool : pyval)
    (command_blocks : list text) (executions : list pyval)
    : M (list pyval) :=
  match command_blocks with
  | [] => ret executions
  | block :: tl =>
      let local_context : scope := {[ "tool"%string := tool ]} in
      result <- execute_with_timeout rt self block local_context ;;
      run_blocks rt self tool tl
        (match result with
         | PNone => executions ++ [no_execution_captured block]
         | _ => executions ++ [result]
         end)
  end.

Definition module_name (tool_name : text) : text :=
  str "tools." ++ replace (str "_tool") [] (lower tool_name) ++ str ".tool".

(** [getattr(module, tool_name)], for the module of the name
    [module_name]. *)
Definition getattr_class (module_name : text)
    (module : text -> option tool_class) (tool_name : text) : M tool_class :=
  match module tool_name with
  | Some c => ret c
  | None =>
      raise (OtherError (str "module '" ++ module_name
                         ++ str "' has no attribute '" ++ tool_name
                         ++ str "'"))
  end.

(** [self.query_cache_dir]. *)
Definition get_query_cache_dir (self : Executor) : M text :=
  match query_cache_dir self with
  | Some d => ret d
  | None =>
      raise (OtherError
               (str "'Executor' object has no attribute 'query_cache_dir'"))
  end.

(** The statements before the loop: the tool, ready to use. *)
Definition make_tool (rt : runtime) (self : Executor) (tool_name : text)
    : M pyval :=
  module <- import_module rt (module_name tool_name) ;;
  cls <- getattr_class (module_name tool_name) module tool_name ;;
  tool <- (if require_llm_engine cls
           then construct cls (Some (llm_engine_name self))
           else construct cls None) ;;
  method <- set_custom_output_dir rt tool ;;
  dir <- get_query_cache_dir self ;;
  method dir ;;;
  ret tool.

Definition error_message (e : exn) : text :=
  str "Error in execute_tool_command: " ++ exn_str e.

(** The result is the list [executions] or the text of one error. *)
Definition execute_tool_command (rt : runtime) (self : Executor)
    (tool_name command : text) : M (list pyval + text) :=
  try_except
    (tool <- make_tool rt self tool_name ;;
     let command_blocks := split_commands command in
     executions <- run_blocks rt self tool command_blocks [] ;;
     ret (inl executions))
    (fun e => ret (inr (error_message e))).

(** ** [Executor.__init__] and [set_query_cache_dir] *)

(** [Executor(llm_engine_name, root_cache_dir, num_threads, max_time,
    max_output_length, verbose)] keeps its six arguments;
    [query_cache_dir] is not among the attributes it sets. *)
Definition Executor_init (llm_engine_name root_cache_dir : text)
    (num_threads max_time : nat) (max_output_length : Z) (verbose : bool)
    : Executor :=
  {| llm_engine_name := llm_engine_name; root_cache_dir := root_cache_dir;
     num_threads := num_threads; max_time := max_time;
     max_output_length := max_output_length; verbose := verbose;
     query_cache_dir := None |}.

(** What [datetime.now()] gives, to the second. *)
Record datetime : Type := {
  year : nat;
  month : nat;
  day : nat;
  hour : nat;
  minute : nat;
  second : nat
}.

(** [%m], [%d], [%H], [%M] and [%S]: two digits. *)
Definition two_digits (n : nat) : text :=
  if n <? 10 then str "0" ++ decimal n else decimal n.

(** [t.strftime("%Y%m%d_%H%M%S")]; [%Y] is the year in decimal, four
    digits from the year 1000 on. *)
Definition strftime (t : datetime) : text :=
  decimal (year t) ++ two_digits (month t) ++ two_digits (day t)
  ++ str "_" ++ two_digits (hour t) ++ two_digits (minute t)
  ++ two_digits (second t).

(** [os.path.join(path, b)] of [posixpath]; [signal.SIGALRM] ties the
    program to POSIX. *)
Definition path_join (path b : text) : text :=
  if starts_with (str "/") b then b
  else if negb (nonempty path)
          || match last path with Some c => chr_eqb c "/" | None => false end
       then path ++ b
       else path ++ str "/" ++ b.

(** The clock and the file system, which stay outside this file:
    [datetime.now()] and [os.makedirs(path, exist_ok=True)]. *)
Record host : Type := {
  now : M datetime;
  makedirs : text -> M unit
}.

(** [self.query_cache_dir = d]. *)
Definition with_query_cache_dir (self : Executor) (d : text) : Executor :=
  {| llm_engine_name := llm_engine_name self;
     root_cache_dir := root_cache_dir self;
     num_threads := num_threads self; max_time := max_time self;
     max_output_length := max_output_length self; verbose := verbose self;
     query_cache_dir := Some d |}.

(** The method changes [self] and may raise after that: it gives [self]
    as it leaves it, besides its outcome. The argument is [None] or a
    [str], true when it is a text that is not empty. *)
Definition set_query_cache_dir (h : host) (self : Executor)
    (query_cache_dir : option text)
    : world -> Executor * (result unit * world) :=
  fun w =>
    let assigned : result Executor * world :=
      match query_cache_dir with
      | Some (c :: d) => (Ok (with_query_cache_dir self (c :: d)), w)
      | _ =>
          match now h w with
          | (Ok t, w1) =>
              let timestamp := strftime t in
              (Ok (with_query_cache_dir self
                     (path_join (root_cache_dir self) timestamp)), w1)
          | (Raise e, w1) => (Raise e, w1)
          end
      end in
    match assigned with
    | (Ok self', w1) =>
        (self', (d <- get_query_cache_dir self' ;; makedirs h d) w1)
    | (Raise e, w1) => (self, (Raise e, w1))
    end.

(** ** The answer that [generate_tool_command] asks for *)

(** The structure that the prompt of [generate_tool_command] gives for
    the answer, with its three fields filled in. *)
Definition output_format (a e c : text) : text :=
  str "Analysis: " ++ a ++ newline ::
  str "Command Explanation: " ++ e ++ newline ::
  str "Generated Command:" ++ newline ::
  str "```python" ++ newline :: c ++ newline :: str "```".

(** ** Lines, and the commands the claims speak about *)

(** [s.split('\n')]. *)
Fixpoint lines_of (s : text) : list text :=
  match s with
  | [] => [[]]
  | c :: tl =>
      if is_newline c then [] :: lines_of tl
      else
        match lines_of tl with
        | l :: r => (c :: l) :: r
        | [] => [[c]]
        end
  end.

(** ['\n'.join(ls)]. *)
Fixpoint join_lines (ls : list text) : text :=
  match ls with
  | [] => []
  | [l] => l
  | l :: tl => l ++ newline :: join_lines tl
  end.

Definition found {A} (o : option A) : bool :=
  match o with Some _ => true | None => false end.

(** A line on which the pattern of [split_commands] matches. *)
Definition invocation_line (l : text) : bool :=
  found (re_search split_pattern l).

(** The number of such lines in a command. *)
Definition invocation_lines (command : text) : nat :=
  length (filter (fun l => invocation_line l = true) (lines_of command)).

(** The invocation pattern in the words of the specification,
    [execution = <identifier>.execute(...)] with the arguments on one
    line: any identifier stands where the program has [tool]. *)
Definition ident_start (c : ascii) : bool :=
  let n := nat_of_ascii c in
  ((65 <=? n) && (n <=? 90)) || ((97 <=? n) && (n <=? 122)) || (n =? 95).

Definition ident_char (c : ascii) : bool :=
  let n := nat_of_ascii c in
  ident_start c || ((48 <=? n) && (n <=? 57)).

Definition spec_invocation_pattern : regex :=
  seqs [StarL any_char; lit (str "execution"); StarG is_space;
        lit (str "="); StarG is_space; Cls ident_start; StarG ident_char;
        lit (str ".execute("); StarG not_newline; lit (str ")");
        StarG is_space; Alt (Chr newline) Eos].

Definition spec_invocation_line (l : text) : bool :=
  found (re_search spec_invocation_pattern l).

Definition spec_invocation_lines (command : text) : nat :=
  length (filter (fun l => spec_invocation_line l = true)
                 (lines_of command)).

(** A line that ends in [execution] or in [execution =], white space
    apart: the head of an assignment whose right side is on a later
    line. *)
Definition dangling_pattern : regex :=
  seqs [lit (str "execution"); StarG is_space;
        Alt (Seq (lit (str "=")) (StarG is_space)) Eps; Eos].

Definition dangling_line (l : text) : bool :=
  found (re_search dangling_pattern l).

(** The first place where [w] occurs in [s]: [s.find(w)]. *)
Fixpoint find_sub (w s : text) : option nat :=
  if starts_with w s then Some 0
  else
    match s with
    | [] => None
    | _ :: tl => S <$> find_sub w tl
    end.

(** The text between the first [a] and the first [b] after it. *)
Definition between (a b s : text) : option text :=
  match find_sub a s with
  | Some i =>
      let s' := drop (i + length a) s in
      match find_sub b s' with
      | Some j => Some (take j s')
      | None => None
      end
  | None => None
  end.

(** ** A runtime to run the coordinator on

    One tool, [Sleeper_Tool] in the module [tools.sleeper.tool]:
    [execute(value=n)] takes [n] seconds and returns [n], or [None] when
    [n] is [0]; a pending alarm of at most [n] seconds fires meanwhile.
    [exec] is that of Python on blocks made of four statements, one on
    each line: [global NAME], [NAME = NUMBER],
    [execution = tool.execute(value=NAME)] and [raise SystemExit]. *)

Inductive stmt : Type :=
  | SGlobal (x : string)
  | SAssign (x : string) (n : nat)
  | SInvoke (x : string)
  | SExit.

Definition is_digit (c : ascii) : bool :=
  let n := nat_of_ascii c in (48 <=? n) && (n <=? 57).

Definition is_identifier (s : text) : bool :=
  match s with
  | c :: tl => ident_start c && forallb ident_char tl
  | [] => false
  end.

(** A decimal literal: digits, without a zero in front of a number that
    is not zero. *)
Definition parse_nat (s : text) : option nat :=
  let n := fold_left (fun acc c => 10 * acc + (nat_of_ascii c - 48)) s 0 in
  match s with
  | [] => None
  | [_] => if forallb is_digit s then Some n else None
  | c :: _ =>
      if forallb is_digit s && (negb (chr_eqb c "0") || (n =? 0))
      then Some n else None
  end.

Definition name_of (s : text) : option string :=
  if is_identifier s then Some (string_of_list_ascii s) else None.

Definition parse_line (l : text) : option stmt :=
  if bool_decide (l = str "raise SystemExit") then Some SExit
  else if starts_with (str "global ") l then
    SGlobal <$> name_of (drop 7 l)
  else if starts_with (str "execution = tool.execute(value=") l then
    match reverse (drop 31 l) with
    | c :: r => if chr_eqb c ")" then SInvoke <$> name_of (reverse r)
                else None
    | [] => None
    end
  else
    match find_sub (str " = ") l with
    | Some i =>
        match name_of (take i l), parse_nat (drop (i + 3) l) with
        | Some x, Some n => Some (SAssign x n)
        | _, _ => None
        end
    | None => None
    end.

Definition blank (l : text) : bool := forallb is_space l.

(** A name is declared [global] before the block uses or binds it. *)
Fixpoint declared_first (seen : list string) (ss : list stmt) : bool :=
  match ss with
  | [] => true
  | SGlobal x :: tl => negb (bool_decide (x ∈ seen)) && declared_first seen tl
  | SAssign x _ :: tl => declared_first (x :: seen) tl
  | SInvoke x :: tl =>
      declared_first ("tool" :: x :: "execution" :: seen)%string tl
  | SExit :: tl => declared_first seen tl
  end.

(** The statements of a block, [None] for a block that Python does not
    compile or that is outside the four forms. *)
Definition parse_block (block : text) : option (list stmt) :=
  match mapM parse_line (filter (fun l => blank l = false) (lines_of block))
  with
  | Some ss => if declared_first [] ss then Some ss else None
  | None => None
  end.

(** The names a block declares [global]. *)
Definition declared_global (ss : list stmt) : list string :=
  flat_map (fun s => match s with SGlobal x => [x] | _ => [] end) ss.

Definition name_error (x : string) : exn :=
  OtherError (str "name '" ++ str x ++ str "' is not defined").

(** Reading a name: the global dictionary for a declared name, else the
    local scope and then the global dictionary. *)
Definition load_name (decl : list string) (x : string) (loc : scope)
    : M pyval :=
  fun w =>
    let hit :=
      if bool_decide (x ∈ decl) then module_globals w !! x
      else match loc !! x with
           | Some v => Some v
           | None => module_globals w !! x
           end in
    match hit with
    | Some v => (Ok v, w)
    | None => (Raise (name_error x), w)
    end.

(** Binding a name: in the global dictionary for a declared name, else
    in the local scope. *)
Definition store_name (decl : list string) (x : string) (v : pyval)
    (loc : scope) : M scope :=
  fun w =>
    if bool_decide (x ∈ decl)
    then (Ok loc, World (alarm w) (handler_installed w)
                        (<[x := v]> (module_globals w)) (main_thread w))
    else (Ok (<[x := v]> loc), w).

(** [Sleeper_Tool.execute(value=v)]. *)
Definition sleeper_execute (v : pyval) : M pyval :=
  fun w =>
    match v with
    | PInt n =>
        let secs := Z.to_nat n in
        match alarm w with
        | Some t =>
            if t <=? secs
            then (Raise (TimeoutError (str "Function execution timed out")),
                  World None (handler_installed w) (module_globals w)
                        (main_thread w))
            else (Ok (match secs with 0 => PNone | S _ => PInt n end),
                  World (Some (t - secs)) (handler_installed w)
                        (module_globals w) (main_thread w))
        | None => (Ok (match secs with 0 => PNone | S _ => PInt n end), w)
        end
    | _ => (Raise (OtherError (str "value must be an integer")), w)
    end.

Fixpoint run_stmts (decl : list string) (ss : list stmt) (loc : scope)
    : M scope :=
  match ss with
  | [] => ret loc
  | SGlobal _ :: tl => run_stmts decl tl loc
  | SAssign x n :: tl =>
      loc' <- store_name decl x (PInt (Z.of_nat n)) loc ;;
      run_stmts decl tl loc'
  | SInvoke x :: tl =>
      _ <- load_name decl "tool" loc ;;
      v <- load_name decl x loc ;;
      r <- sleeper_execute v ;;
      loc' <- store_name decl "execution" r loc ;;
      run_stmts decl tl loc'
  | SExit :: _ => raise (BaseError [])
  end.

Definition sleeper_exec (block : text) (local_context : scope) : M scope :=
  match parse_block block with
  | Some ss => run_stmts (declared_global ss) ss local_context
  | None => raise (OtherError (str "invalid syntax"))
  end.

Definition sleeper_class : tool_class :=
  {| require_llm_engine := false; construct := fun _ => ret (PObj 1) |}.

Definition sleeper_module (name : text) : option tool_class :=
  if bool_decide (name = str "Sleeper_Tool") then Some sleeper_class
  else None.

Definition sleeper_runtime : runtime :=
  {| import_module := fun name =>
       if bool_decide (name = str "tools.sleeper.tool")
       then ret sleeper_module
       else raise (OtherError (str "No module named '" ++ name ++ str "'"));
     set_custom_output_dir := fun _ => ret (fun _ => ret tt);
     py_exec := sleeper_exec |}.

Definition an_executor : Executor :=
  {| llm_engine_name := str "gpt-4o"; root_cache_dir := str "solver_cache";
     num_threads := 1; max_time := 120; max_output_length := 100000%Z;
     verbose := false; query_cache_dir := Some (str "solver_cache/q") |}.

(** A process at rest, in its main thread and in another thread. *)
Definition zero_executor : Executor :=
  {| llm_engine_name := str "gpt-4o"; root_cache_dir := str "solver_cache";
     num_threads := 1; max_time := 0; max_output_length := 100000%Z;
     verbose := false; query_cache_dir := Some (str "solver_cache/q") |}.

Definition idle : world := World None false ∅ true.

Definition nls (ls : list string) : text := join_lines (map str ls).


(** ** Notions for the properties *)

(** A text is stripped when it neither starts nor ends with white space. *)
Definition stripped (s : text) : Prop :=
  match head s with Some c => is_space c = false | None => True end /\
  match last s with Some c => is_space c = false | None => True end.

(** The opening fence at the very start of a text. *)
Definition fence_open : text := str "```python".

(** A text that ends a line, or starts one. *)
Definition line_end (b : text) : Prop :=
  b = [] \/ exists b', b = newline :: b'.
Definition line_start (a : text) : Prop :=
  a = [] \/ exists a', a = a' ++ [newline].


(** What a pattern can leave of [s], in the order of the matcher. *)
Definition rests (r : regex) (s : text) : list text :=
  map m_rest (enum r (MState 0 s None)).

(** Patterns without an anchor at the start and without a group. *)
Fixpoint plain (r : regex) : bool :=
  match r with
  | Seq a b | Alt a b => plain a && plain b
  | Bos | Grp _ => false
  | _ => true
  end.

(** Every success of the matcher is a step forward in the subject. *)
Definition advances (st st' : mstate) : Prop :=
  exists m, m_rest st = m ++ m_rest st' /\ m_pos st' = m_pos st + length m.

(** The group of [(.*?)] followed by a literal: the text before the first
    occurrence of the literal. *)
Definition up_to (b : text) (t : text) : option (option text) :=
  (fun j => Some (take j t)) <$> find_sub b t.

(** What the first match of the pattern of [split_commands] leaves. *)
Definition first_hit (s : text) : option text := head (rests split_pattern s).

(** The matched texts among the pieces of a scan. *)
Definition hits (ps : list piece) : list text :=
  flat_map (fun pc => match pc with Hit m _ => [m] | Outside _ => [] end) ps.

(** The markers of a free-text response. *)
Definition analysis_marker : text := str "Analysis:".
Definition explanation_marker : text := str "Command Explanation:".
Definition command_marker : text := str "Generated Command:".
Definition fence_python : text := str "```python" ++ [newline].
Definition fence_close : text := str "```".

(** The content of the first fenced block after the first
    [Generated Command:]. *)
Definition fenced (s : text) : option text :=
  match find_sub command_marker s with
  | Some i => between fence_python fence_close
                      (drop (i + length command_marker) s)
  | None => None
  end.

(** A field of a free-text response: the group of the match, trimmed, or
    the fallback. *)
Definition field_or (o : option text) (fallback : text) : text :=
  match o with Some g => strip g | None => fallback end.

(** No occurrence of [w] starts inside [x], whatever follows [x]. *)
Definition starts_none (w x : text) : Prop :=
  forall j y, j < length x -> starts_with w (drop j (x ++ y)) = false.

(** The characters of a time stamp. *)
Definition digit_or_line (c : ascii) : bool := is_digit c || chr_eqb c "_".

(** A date and a time of day that a clock can show, from the year 1000
    on. *)
Definition valid_datetime (t : datetime) : Prop :=
  1000 <= year t < 100 * 100 /\ 1 <= month t <= 12 /\ 1 <= day t <= 31 /\
  hour t < 24 /\ minute t < 60 /\ second t < 60.

(** Wherever the word [execution] stands in the text, what follows it is
    neither white space nor [=]: the word is the start of a longer name,
    as in [execution1]. *)
Fixpoint only_longer_names (s : text) : bool :=
  match s with
  | [] => true
  | _ :: tl =>
      (if starts_with (str "execution") s
       then match drop 9 s with
            | c :: _ => negb (is_space c) && negb (chr_eqb c "=")
            | [] => true
            end
       else true)
      && only_longer_names tl
  end.

(** [closes u t]: after [tool.execute(], the text [u] goes on with
    arguments on one line, the closing parenthesis and white space, and
    then ends a line, or the whole text, leaving [t]. *)
Definition closes (u t : text) : Prop :=
  exists a w3,
    forallb not_newline a = true /\ forallb is_space w3 = true /\
    (u = a ++ str ")" ++ w3 ++ newline :: t \/
     (u = a ++ str ")" ++ w3 ++ t /\ (t = [] \/ t = [newline]))).

(** [invocation s t]: the text [s] starts with an invocation, in the
    sense of the pattern of [split_commands], that leaves [t]. *)
Definition invocation (s t : text) : Prop :=
  exists w1 w2 u,
    s = str "execution" ++ w1 ++ str "=" ++ w2 ++ str "tool.execute(" ++ u /\
    forallb is_space w1 = true /\ forallb is_space w2 = true /\ closes u t.

(** An invocation up to its closing parenthesis. *)
Definition invocation_core (c : text) : Prop :=
  exists w1 w2 a,
    c = str "execution" ++ w1 ++ str "=" ++ w2 ++ str "tool.execute("
        ++ a ++ str ")" /\
    forallb is_space w1 = true /\ forallb is_space w2 = true /\
    forallb not_newline a = true.

(** A piece of a command that the splitter cuts out: some text and, at
    its end, an invocation with the white space after it. *)
Definition ends_with_invocation (raw : text) : Prop :=
  exists pre inv, raw = pre ++ inv /\ invocation inv [].

(** The pieces are matches one after the other: each one is what the
    first match of the pattern takes from what is left of the command,
    and after the last one the pattern matches no more. *)
Fixpoint in_turn (raws : list text) (tail : text) : Prop :=
  match raws with
  | [] => first_hit tail = None
  | m :: r =>
      first_hit (m ++ concat r ++ tail) = Some (concat r ++ tail) /\
      in_turn r tail
  end.

(** What may follow the closing parenthesis of a match: white space up
    to a line break, or up to the end of the command. *)
Definition ends_match (w t : text) : Prop :=
  forallb is_space w = true /\
  ((exists w', w = w' ++ [newline]) \/ t = [] \/ t = [newline]).

(** No line of the command ends in the head of an assignment to
    [execution]. *)
Definition no_dangling_line (command : text) : bool :=
  forallb (fun l => negb (dangling_line l)) (lines_of command).

(** [final_invocation_line command a l b]: the line [l] of the command,
    after the lines of [a] and before those of [b], is an invocation
    line, and no line after it is one. *)
Definition final_invocation_line (command a l b : text) : Prop :=
  command = a ++ l ++ b /\ line_start a /\ forallb not_newline l = true /\
  line_end b /\ invocation_line l = true /\ invocation_lines b = 0.

(** The process as a block finds it: the handler installed and the alarm
    set to [max_time]. *)
Definition armed (self : Executor) (w : world) : world :=
  with_alarm (max_time self) (with_handler w).

(** The two calls that arm the timer go through: the process is in its
    main thread and [max_time] fits the [int] of C. *)
Definition can_arm (self : Executor) (w : world) : bool :=
  main_thread w && fits_int (max_time self).

(** What arming the timer raises, and the process it leaves, where it
    does not go through. *)
Definition arm_failure (self : Executor) (w : world) : exn * world :=
  if main_thread w
  then (OtherError (str "Python int too large to convert to C int"),
        with_handler w)
  else (OtherError
          (str "signal only works in main thread of the main interpreter"),
        w).

(** What [execute_tool_command] makes of an exception [e] raised in its
    [try]: the text of the error for an [Exception], and the exception
    itself, passed on to the caller, for one outside [Exception]. *)
Definition on_exception (e : exn) (w : world)
    : result (list pyval + text) * world :=
  (if is_exception e then Ok (inr (error_message e)) else Raise e, w).

(** The scope every block starts in. *)
Definition fresh_scope (tool : pyval) : scope := {[ "tool"%string := tool ]}.

(** What the coordinator looks at when [exec] is over: the exception, or
    else what [execution] is bound to, and the process. *)
Definition exec_view (r : result scope * world) : result pyval * world :=
  (match fst r with
   | Ok sc => Ok (get_execution sc)
   | Raise e => Raise e
   end, snd r).

(** The entry of a block in [executions]. *)
Definition entry (block : text) (result : pyval) : pyval :=
  match result with
  | PNone => no_execution_captured block
  | _ => result
  end.

(** ** Inputs for the examples *)

(** [sleeper_exec], except that the scope it returns has forgotten every
    name but [execution]. *)
Definition forgetful_exec (block : text) (local_context : scope) : M scope :=
  fun w =>
    match sleeper_exec block local_context w with
    | (Ok sc, w') =>
        (Ok (match sc !! "execution"%string with
             | Some v => {[ "execution"%string := v ]}
             | None => ∅
             end), w')
    | (Raise e, w') => (Raise e, w')
    end.

(** A clock that shows one second, with a file system that makes every
    directory, and with one that refuses. *)
Definition a_second : datetime :=
  {| year := 2025; month := 3; day := 7; hour := 9; minute := 30;
     second := 5 |}.

Definition a_host : host :=
  {| now := ret a_second; makedirs := fun _ => ret tt |}.

Definition read_only_host : host :=
  {| now := ret a_second;
     makedirs := fun d =>
       raise (OtherError (str "[Errno 13] Permission denied: '" ++ d
                          ++ str "'")) |}.

(** Commands to run on that runtime. *)
Definition quick_block : text :=
  nls ["x = 5"; "execution = tool.execute(value=x)"].
Definition slow_block : text :=
  nls ["x = 500"; "execution = tool.execute(value=x)"].
Definition last_block : text :=
  nls ["y = 7"; "execution = tool.execute(value=y)"].
Definition unbound_block : text := str "execution = tool.execute(value=x)".
Definition global_block : text :=
  nls ["global x"; "x = 5"; "execution = tool.execute(value=x)"].

(** Free-text responses to try the parser on. *)
Definition full_response : text :=
  nls ["Analysis: look"; "Command Explanation: call it";
       "Generated Command:"; "```python";
       "execution = tool.execute(x=1)"; "```"].

Definition response_without_explanation : text :=
  nls ["Analysis: look"; "Generated Command:"; "```python";
       "execution = tool.execute(x=1)"; "```"].

(** Commands to split. *)
Definition two_invocations : text :=
  nls ["x = 1"; "execution = tool.execute(a=x)"; "";
       "execution = tool.execute(a=2)"; "y = 3"].
Definition assignment_on_two_lines : text :=
  nls ["execution ="; "tool.execute(1)"].
Definition other_object : text := str "execution = foo.execute(1)".

(** * Properties *)

(** ** Stripping *)

Lemma chr_eqb_eq (a b : ascii) : chr_eqb a b = true <-> a = b.
Proof. apply Ascii.eqb_eq. Qed.

Lemma chr_eqb_refl (a : ascii) : chr_eqb a a = true.
Proof. apply Ascii.eqb_refl. Qed.

Lemma lstrip_by_suffix p (s : text) :
  exists m, s = m ++ lstrip_by p s /\ forallb p m = true.
Proof.
  induction s as [|c tl [m [E F]]]; simpl.
  - exists []. split; reflexivity.
  - destruct (p c) eqn:Hc.
    + exists (c :: m). simpl. rewrite Hc, F. split; [congruence | reflexivity].
    + exists []. split; reflexivity.
Qed.

Lemma lstrip_by_length p (s : text) : length (lstrip_by p s) <= length s.
Proof.
  destruct (lstrip_by_suffix p s) as [m [E _]].
  rewrite E at 2. rewrite length_app. lia.
Qed.

Lemma lstrip_by_head p (s : text) c tl :
  lstrip_by p s = c :: tl -> p c = false.
Proof.
  induction s as [|a s IH]; simpl; [discriminate|].
  destruct (p a) eqn:Ha; [exact IH|].
  intros E. injection E as -> _. exact Ha.
Qed.

Lemma lstrip_by_fixed p (s : text) :
  lstrip_by p s = s <->
  match s with c :: _ => p c = false | [] => True end.
Proof.
  destruct s as [|c tl]; simpl; [tauto|].
  destruct (p c) eqn:Hc; split; intros H; try reflexivity; try discriminate.
  pose proof (lstrip_by_length p tl) as L. rewrite H in L. simpl in L. lia.
Qed.

Lemma lstrip_by_all p (m s : text) :
  forallb p m = true -> lstrip_by p (m ++ s) = lstrip_by p s.
Proof.
  induction m as [|c m IH]; simpl; [reflexivity|].
  intros H. apply andb_true_iff in H as [-> H]. auto.
Qed.

Lemma lstrip_by_idem p (s : text) : lstrip_by p (lstrip_by p s) = lstrip_by p s.
Proof.
  apply lstrip_by_fixed. destruct (lstrip_by p s) eqn:E; [exact I|].
  eapply lstrip_by_head; eassumption.
Qed.

Lemma rstrip_by_prefix p (s : text) :
  exists m, s = rstrip_by p s ++ m /\ forallb p m = true.
Proof.
  unfold rstrip_by.
  destruct (lstrip_by_suffix p (reverse s)) as [m [E F]].
  exists (reverse m). split.
  - rewrite <- reverse_app, <- E. symmetry. apply reverse_involutive.
  - rewrite forallb_forall in *. intros x Hx. apply F.
    rewrite <- list_elem_of_In in Hx |- *. by apply elem_of_reverse.
Qed.

Lemma rstrip_by_length p (s : text) : length (rstrip_by p s) <= length s.
Proof.
  unfold rstrip_by. rewrite length_reverse.
  etransitivity; [apply lstrip_by_length|]. by rewrite length_reverse.
Qed.

Lemma rstrip_by_last p (s : text) c :
  last (rstrip_by p s) = Some c -> p c = false.
Proof.
  unfold rstrip_by. rewrite last_reverse.
  destruct (lstrip_by p (reverse s)) eqn:E; simpl; [discriminate|].
  intros [= ->]. eapply lstrip_by_head; eassumption.
Qed.

Lemma rstrip_by_fixed p (s : text) :
  rstrip_by p s = s <->
  match last s with Some c => p c = false | None => True end.
Proof.
  unfold rstrip_by. split.
  - intros H. assert (lstrip_by p (reverse s) = reverse s) as H'.
    { rewrite <- H at 2. by rewrite reverse_involutive. }
    apply lstrip_by_fixed in H'.
    rewrite <- (reverse_involutive s), last_reverse.
    destruct (reverse s); simpl; [exact I | exact H'].
  - intros H. rewrite <- (reverse_involutive s) in H.
    rewrite last_reverse in H.
    assert (lstrip_by p (reverse s) = reverse s) as ->.
    { apply lstrip_by_fixed. destruct (reverse s); simpl in *; [exact I | exact H]. }
    apply reverse_involutive.
Qed.

Lemma rstrip_by_head p (s : text) c :
  head s = Some c -> p c = false -> head (rstrip_by p s) = Some c.
Proof.
  intros Hh Hc. destruct (rstrip_by_prefix p s) as [m [E F]].
  destruct (rstrip_by p s) as [|a r] eqn:R.
  - simpl in E. subst m. destruct s; simpl in *; [discriminate|].
    injection Hh as ->. apply andb_true_iff in F as [F _]. congruence.
  - rewrite E in Hh. simpl in *. exact Hh.
Qed.

Lemma strip_length (s : text) : length (strip s) <= length s.
Proof.
  unfold strip. etransitivity; [apply rstrip_by_length | apply lstrip_by_length].
Qed.

Lemma strip_fixed (s : text) : strip s = s <-> stripped s.
Proof.
  unfold strip, stripped. split.
  - intros H. assert (lstrip_by is_space s = s) as L.
    { apply (f_equal length) in H as HL.
      pose proof (rstrip_by_length is_space (lstrip_by is_space s)) as L1.
      destruct (lstrip_by_suffix is_space s) as [m [E _]].
      destruct m as [|a m]; [by rewrite E at 2|].
      apply (f_equal length) in E. rewrite length_app in E. simpl in E. lia. }
    rewrite L in H. apply rstrip_by_fixed in H. apply lstrip_by_fixed in L.
    destruct s; simpl in *; auto.
  - intros [Hh Hl].
    assert (lstrip_by is_space s = s) as ->.
    { apply lstrip_by_fixed. destruct s; simpl in *; auto. }
    by apply rstrip_by_fixed.
Qed.

Lemma strip_stripped (s : text) : stripped (strip s).
Proof.
  unfold strip, stripped. split.
  - destruct (lstrip_by is_space s) as [|c tl] eqn:E.
    + reflexivity.
    + pose proof (lstrip_by_head _ _ _ _ E) as Hc.
      rewrite (rstrip_by_head is_space (c :: tl) c); auto.
  - destruct (last _) eqn:E; [|exact I].
    eapply rstrip_by_last; eassumption.
Qed.

Lemma strip_idem (s : text) : strip (strip s) = strip s.
Proof. apply strip_fixed, strip_stripped. Qed.

(** ** The matcher *)

Lemma starts_with_iff (w s : text) :
  starts_with w s = true <-> exists t, s = w ++ t.
Proof.
  revert s. induction w as [|a w IH]; intros s; simpl.
  - split; [intros _; by exists s | reflexivity].
  - destruct s as [|b s].
    + split; [discriminate | intros [t E]; discriminate].
    + rewrite andb_true_iff, chr_eqb_eq, IH. split.
      * intros [-> [t ->]]. by exists t.
      * intros [t E]. injection E as -> ->. split; [reflexivity | by exists t].
Qed.

Lemma starts_with_app (w t : text) : starts_with w (w ++ t) = true.
Proof. apply starts_with_iff. by exists t. Qed.

Lemma starts_with_drop (w s : text) :
  starts_with w s = true -> s = w ++ drop (length w) s.
Proof.
  intros [t ->]%starts_with_iff. by rewrite drop_app_length.
Qed.

Lemma enum_lit (w : text) (st : mstate) :
  enum (lit w) st =
  if starts_with w (m_rest st)
  then [MState (m_pos st + length w) (drop (length w) (m_rest st)) (m_grp st)]
  else [].
Proof.
  revert st. induction w as [|a w IH]; intros [p s g]; simpl.
  - by rewrite Nat.add_0_r.
  - destruct s as [|b s]; simpl; [reflexivity|].
    destruct (chr_eqb b a); simpl; [|reflexivity].
    rewrite IH, app_nil_r. simpl.
    by rewrite Nat.add_succ_r.
Qed.

Lemma advances_refl st : advances st st.
Proof. exists []. simpl. split; [reflexivity | lia]. Qed.

Lemma advances_trans a b c : advances a b -> advances b c -> advances a c.
Proof.
  intros [m [E P]] [n [F Q]]. exists (m ++ n).
  rewrite E, F, Q, P, length_app, app_assoc. split; [reflexivity | lia].
Qed.

Lemma star_greedy_advances p pos s g st' :
  In st' (star_greedy p pos s g) -> advances (MState pos s g) st'.
Proof.
  revert pos. induction s as [|c tl IH]; intros pos; simpl.
  - intros [<-|[]]. apply advances_refl.
  - destruct (p c).
    + rewrite in_app_iff. intros [H|[<-|[]]]; [|apply advances_refl].
      apply IH in H. eapply advances_trans; [|exact H].
      exists [c]. simpl. split; [reflexivity | lia].
    + intros [<-|[]]. apply advances_refl.
Qed.

Lemma star_lazy_advances p pos s g st' :
  In st' (star_lazy p pos s g) -> advances (MState pos s g) st'.
Proof.
  revert pos. induction s as [|c tl IH]; intros pos; simpl.
  - intros [<-|[]]. apply advances_refl.
  - intros [<-|H]; [apply advances_refl|].
    destruct (p c); [|destruct H].
    apply IH in H. eapply advances_trans; [|exact H].
    exists [c]. simpl. split; [reflexivity | lia].
Qed.

Lemma enum_advances (r : regex) (st st' : mstate) :
  In st' (enum r st) -> advances st st'.
Proof.
  revert st st'. induction r; intros st st'; simpl.
  - intros [<-|[]]. apply advances_refl.
  - destruct st as [pos [|c tl] g]; simpl; [intros []|].
    destruct (p c); [|intros []]. intros [<-|[]].
    exists [c]. simpl. split; [reflexivity | lia].
  - rewrite in_flat_map. intros [x [H1 H2]].
    eapply advances_trans; eauto.
  - rewrite in_app_iff. intros [H|H]; eauto.
  - destruct st. apply star_greedy_advances.
  - destruct st. apply star_lazy_advances.
  - destruct (m_pos st =? 0); [|intros []].
    intros [<-|[]]. apply advances_refl.
  - destruct (m_rest st) as [|c [|? ?]]; [| |intros []].
    + intros [<-|[]]. apply advances_refl.
    + destruct (is_newline c); [|intros []].
      intros [<-|[]]. apply advances_refl.
  - rewrite in_map_iff. intros [x [<- H]]. apply IHr in H.
    destruct H as [m [E P]]. exists m. simpl. auto.
Qed.

Lemma advances_length st st' :
  advances st st' ->
  length (m_rest st') <= length (m_rest st) /\
  m_pos st' - m_pos st = length (m_rest st) - length (m_rest st').
Proof.
  intros [m [E P]]. rewrite E, P, length_app. lia.
Qed.

(** For a plain pattern the position and the group play no part. *)
Lemma star_greedy_rests p pos s g :
  map m_rest (star_greedy p pos s g) = map m_rest (star_greedy p 0 s None).
Proof.
  revert pos. generalize 0. induction s as [|c tl IH]; intros n pos; simpl.
  - reflexivity.
  - destruct (p c); simpl; [|reflexivity].
    rewrite !map_app. simpl. f_equal. apply IH.
Qed.

Lemma star_lazy_rests p pos s g :
  map m_rest (star_lazy p pos s g) = map m_rest (star_lazy p 0 s None).
Proof.
  revert pos. generalize 0. induction s as [|c tl IH]; intros n pos; simpl.
  - reflexivity.
  - destruct (p c); simpl; [|reflexivity]. f_equal. apply IH.
Qed.

Lemma map_flat_map {A B C} (f : B -> C) (g : A -> list B) (l : list A) :
  map f (flat_map g l) = flat_map (fun x => map f (g x)) l.
Proof.
  induction l as [|x l IH]; simpl; [reflexivity|].
  by rewrite map_app, IH.
Qed.

Lemma flat_map_map {A B C} (f : A -> B) (g : B -> list C) (l : list A) :
  flat_map g (map f l) = flat_map (fun x => g (f x)) l.
Proof.
  induction l as [|x l IH]; simpl; [reflexivity|]. by rewrite IH.
Qed.

Lemma enum_rests (r : regex) (st : mstate) :
  plain r = true -> map m_rest (enum r st) = rests r (m_rest st).
Proof.
  unfold rests. revert st. induction r; intros st Hp; simpl in *;
    try discriminate.
  - reflexivity.
  - destruct (m_rest st) as [|c tl]; [reflexivity|]. by destruct (p c).
  - apply andb_true_iff in Hp as [Ha Hb].
    rewrite !map_flat_map.
    rewrite (flat_map_ext _ (fun x => rests r2 (m_rest x))).
    2:{ intros x. by apply IHr2. }
    rewrite (flat_map_ext (fun x => map m_rest (enum r2 x))
                          (fun x => rests r2 (m_rest x))).
    2:{ intros x. by apply IHr2. }
    rewrite <- !(flat_map_map m_rest (rests r2)). f_equal. by apply IHr1.
  - apply andb_true_iff in Hp as [Ha Hb].
    rewrite !map_app. f_equal; auto.
  - apply star_greedy_rests.
  - apply star_lazy_rests.
  - destruct st as [pos [|c [|? ?]] g]; simpl; try reflexivity.
    by destruct (is_newline c).
Qed.

Lemma rests_seq (a b : regex) (s : text) :
  plain b = true -> rests (Seq a b) s = flat_map (rests b) (rests a s).
Proof.
  intros Hb. unfold rests at 1. simpl. rewrite map_flat_map.
  rewrite (flat_map_ext _ (fun x => rests b (m_rest x))).
  2:{ intros x. by apply enum_rests. }
  by rewrite <- (flat_map_map m_rest (rests b)).
Qed.

Lemma rests_lit (w s : text) :
  rests (lit w) s = if starts_with w s then [drop (length w) s] else [].
Proof. unfold rests. rewrite enum_lit. simpl. by destruct (starts_with w s). Qed.

Lemma rests_alt (a b : regex) (s : text) :
  rests (Alt a b) s = rests a s ++ rests b s.
Proof. unfold rests. simpl. by rewrite map_app. Qed.

Lemma star_greedy_grp p pos s g st' :
  In st' (star_greedy p pos s g) -> m_grp st' = g.
Proof.
  revert pos. induction s as [|c tl IH]; intros pos; simpl.
  - by intros [<-|[]].
  - destruct (p c).
    + rewrite in_app_iff. intros [H|[<-|[]]]; eauto.
    + by intros [<-|[]].
Qed.

Lemma star_lazy_grp p pos s g st' :
  In st' (star_lazy p pos s g) -> m_grp st' = g.
Proof.
  revert pos. induction s as [|c tl IH]; intros pos; simpl.
  - by intros [<-|[]].
  - intros [<-|H]; [reflexivity|]. destruct (p c); [eauto | destruct H].
Qed.

Lemma enum_plain_grp (r : regex) (st st' : mstate) :
  plain r = true -> In st' (enum r st) -> m_grp st' = m_grp st.
Proof.
  revert st st'. induction r; intros st st' Hp; simpl in *; try discriminate.
  - by intros [<-|[]].
  - destruct (m_rest st) as [|c tl]; [intros []|].
    destruct (p c); [|intros []]. by intros [<-|[]].
  - apply andb_true_iff in Hp as [Ha Hb].
    rewrite in_flat_map. intros [x [H1 H2]].
    rewrite (IHr2 _ _ Hb H2). eauto.
  - apply andb_true_iff in Hp as [Ha Hb].
    rewrite in_app_iff. intros [H|H]; eauto.
  - apply star_greedy_grp.
  - apply star_lazy_grp.
  - destruct (m_rest st) as [|c [|? ?]]; [| |intros []].
    + by intros [<-|[]].
    + destruct (is_newline c); [|intros []]. by intros [<-|[]].
Qed.

(** The match a plain pattern finds, from what it leaves. *)
Lemma match_at_plain (r : regex) (pos : nat) (s : text) :
  plain r = true ->
  match_at r pos s =
  (fun t => MState (pos + (length s - length t)) t None) <$> head (rests r s).
Proof.
  intros Hp. unfold match_at.
  pose proof (enum_rests r (MState pos s None) Hp) as R. simpl in R.
  rewrite <- R. clear R.
  pose proof (enum_advances r (MState pos s None)) as A.
  pose proof (enum_plain_grp r (MState pos s None)) as G.
  destruct (enum r (MState pos s None)) as [|st' l]; simpl; [reflexivity|].
  f_equal. specialize (A st' (or_introl eq_refl)).
  specialize (G st' Hp (or_introl eq_refl)).
  destruct A as [m [E P]]. destruct st' as [p' t g']. simpl in *.
  subst. rewrite length_app. f_equal. lia.
Qed.

Lemma head_app_Some {A} (l k : list A) x :
  head l = Some x -> head (l ++ k) = Some x.
Proof. by destruct l. Qed.

Lemma star_greedy_head p pos s g :
  head (star_greedy p pos s g) =
  Some (MState (pos + (length s - length (lstrip_by p s))) (lstrip_by p s) g).
Proof.
  revert pos. induction s as [|c tl IH]; intros pos; simpl.
  - by rewrite Nat.add_0_r.
  - destruct (p c) eqn:Hc; simpl.
    + erewrite head_app_Some; [|apply IH]. do 2 f_equal.
      pose proof (lstrip_by_length p tl). lia.
    + do 2 f_equal. lia.
Qed.

(** ** Scanning *)

Lemma scan_busy r pos (m t : text) :
  scan r pos (m ++ t) (length m) = scan r (pos + length m) t 0.
Proof.
  revert pos. induction m as [|c m IH]; intros pos; simpl.
  - by rewrite Nat.add_0_r.
  - rewrite IH. f_equal. lia.
Qed.

Lemma scan_no_match r pos (s : text) :
  (forall n t, match_at r (pos + n) t = None) ->
  scan r pos s 0 = map Outside s.
Proof.
  revert pos. induction s as [|c tl IH]; intros pos H; simpl.
  - specialize (H 0 []). rewrite Nat.add_0_r in H. by rewrite H.
  - pose proof (H 0 (c :: tl)) as H0. rewrite Nat.add_0_r in H0. rewrite H0.
    f_equal. apply IH. intros n t. specialize (H (S n) t).
    by replace (pos + S n) with (S pos + n) in H by lia.
Qed.

Lemma outside_only (s : text) :
  flat_map (fun pc => match pc with Hit _ _ => [] | Outside c => [c] end)
           (map Outside s) = s.
Proof. induction s as [|c s IH]; simpl; congruence. Qed.

(** ** [normalize_code] *)

Lemma fence_open_at_start (s : text) :
  match_at fence_open_pattern 0 s =
  if starts_with fence_open s
  then Some (MState (9 + (length (drop 9 s)
                          - length (lstrip_by is_space (drop 9 s))))
                    (lstrip_by is_space (drop 9 s)) None)
  else None.
Proof.
  unfold match_at, fence_open_pattern. cbn [seqs enum m_pos Nat.eqb flat_map].
  rewrite app_nil_r. cbn [enum flat_map]. rewrite enum_lit.
  cbn [m_rest m_pos m_grp]. fold fence_open.
  destruct (starts_with fence_open s); [|reflexivity].
  cbn [flat_map enum m_rest m_pos m_grp]. rewrite app_nil_r.
  apply star_greedy_head.
Qed.

Lemma fence_open_later n (s : text) :
  match_at fence_open_pattern (S n) s = None.
Proof. reflexivity. Qed.

Lemma sub_fence_open (s : text) :
  re_sub_empty fence_open_pattern s =
  if starts_with fence_open s then lstrip_by is_space (drop 9 s) else s.
Proof.
  unfold re_sub_empty. destruct s as [|c tl].
  { reflexivity. }
  cbn [scan]. rewrite fence_open_at_start.
  destruct (starts_with fence_open (c :: tl)) eqn:Hs.
  - cbn [m_pos m_grp].
    apply starts_with_drop in Hs. change (length fence_open) with 9 in Hs.
    destruct (lstrip_by_suffix is_space (drop 9 (c :: tl))) as [w [Ew _]].
    remember (drop 9 (c :: tl)) as d eqn:Hd.
    remember (lstrip_by is_space d) as t eqn:Ht.
    assert (exists m, tl = m ++ t /\ S (length m) = 9 + (length d - length t))
      as [m [E L]].
    { rewrite Ew in Hs. simpl in Hs. injection Hs as _ Hs.
      exists (drop 1 fence_open ++ w). split; [exact Hs|].
      rewrite Ew at 1. rewrite !length_app. simpl. lia. }
    rewrite Nat.sub_0_r, <- L. cbn [Nat.eqb flat_map]. simpl Nat.sub.
    rewrite Nat.sub_0_r, E, scan_busy.
    rewrite (scan_no_match _ (1 + length m)); [apply outside_only|].
    intros k u. apply fence_open_later.
  - rewrite (scan_no_match _ 1); [|intros k u; apply fence_open_later].
    simpl. f_equal. apply outside_only.
Qed.

Lemma normalize_code_eq (code : text) :
  normalize_code code =
  strip (rstrip_backticks
           (if starts_with fence_open code
            then lstrip_by is_space (drop 9 code) else code)).
Proof. unfold normalize_code. by rewrite sub_fence_open. Qed.

(** The texts that [normalize_code] leaves as they are. *)
Lemma normalize_code_fixed (y : text) :
  stripped y ->
  (normalize_code y = y <->
   starts_with fence_open y = false /\ last y <> Some backtick).
Proof.
  intros Hy. rewrite normalize_code_eq. split.
  - intros H. apply (f_equal length) in H.
    destruct (starts_with fence_open y) eqn:Hs.
    + exfalso. apply starts_with_drop in Hs.
      pose proof (strip_length (rstrip_backticks (lstrip_by is_space (drop 9 y)))).
      pose proof (rstrip_by_length
        (fun c => existsb (chr_eqb c) (str "```")) (lstrip_by is_space (drop 9 y))).
      pose proof (lstrip_by_length is_space (drop 9 y)).
      unfold rstrip_backticks in *.
      apply (f_equal length) in Hs. rewrite length_app in Hs.
      change (length fence_open) with 9 in Hs. lia.
    + split; [reflexivity|]. intros Hl.
      destruct (rstrip_by_prefix (fun c => existsb (chr_eqb c) (str "```")) y)
        as [m [E F]].
      fold (rstrip_backticks y) in E.
      pose proof (strip_length (rstrip_backticks y)) as L1.
      destruct m as [|a m].
      * rewrite app_nil_r in E.
        assert (rstrip_backticks y = y) as R by congruence.
        apply rstrip_by_fixed in R. rewrite Hl in R. discriminate.
      * apply (f_equal length) in E. rewrite length_app in E. simpl in E. lia.
  - intros [-> Hl].
    assert (rstrip_backticks y = y) as ->.
    { apply rstrip_by_fixed. destruct (last y) as [c|] eqn:E; [|exact I].
      simpl. rewrite !orb_false_r.
      destruct (chr_eqb c "`") eqn:Hc; [|reflexivity].
      apply chr_eqb_eq in Hc. subst c. by destruct Hl. }
    by apply strip_fixed.
Qed.

(** C6, as stated, at a fenced command with a line break before the
    fence: the first normalization leaves the fence, which only comes to
    the front once the line break is stripped, and the second one
    removes it. *)
Lemma normalize_code_twice_differs :
  let x := newline :: str "```python" ++ newline :: str "print(1)"
           ++ newline :: str "```" in
  normalize_code x = str "```python" ++ newline :: str "print(1)" /\
  normalize_code (normalize_code x) = str "print(1)" /\
  normalize_code (normalize_code x) <> normalize_code x.
Proof. vm_compute. repeat split. discriminate. Qed.

(** C6, amended: normalizing a text twice gives what normalizing it once
    gives exactly when the normalized text neither starts with the opening
    fence [```python] nor ends with a backtick. *)
Theorem normalize_code_idempotent_iff (x : text) :
  normalize_code (normalize_code x) = normalize_code x <->
  starts_with fence_open (normalize_code x) = false /\
  last (normalize_code x) <> Some backtick.
Proof. apply normalize_code_fixed. apply strip_stripped. Qed.

(** ** [extract_explanation_and_command] on a [ToolCommand] *)

(** C7, as stated, at a record whose command is fenced: the command comes
    back without its fence, not as the field trimmed. *)
Lemma structured_command_is_normalized :
  let t := {| analysis := str " a "; explanation := str "e";
              command := str "```python" ++ newline :: str "x = 1"
                         ++ newline :: str "```" |} in
  extract_explanation_and_command (fun _ => None) (RCommand t)
  = Ok (str "a", str "e", str "x = 1") /\
  extract_explanation_and_command (fun _ => None) (RCommand t)
  <> Ok (strip (analysis t), strip (explanation t), strip (command t)).
Proof. vm_compute. split; [reflexivity | discriminate]. Qed.

(** C7, amended: for a [ToolCommand] the analysis and the explanation
    come back trimmed and otherwise as they are, without any search in
    them; the command comes back trimmed and then normalized, which
    leaves the trimmed command as it is exactly when that neither starts
    with [```python] nor ends with a backtick. *)
Theorem extract_structured decode (t : ToolCommand) :
  extract_explanation_and_command decode (RCommand t)
  = Ok (strip (analysis t), strip (explanation t),
        normalize_code (strip (command t))) /\
  (normalize_code (strip (command t)) = strip (command t) <->
   starts_with fence_open (strip (command t)) = false /\
   last (strip (command t)) <> Some backtick).
Proof.
  split; [reflexivity|]. apply normalize_code_fixed, strip_stripped.
Qed.

(** A text that decodes to a [ToolCommand] goes the same way. *)
Lemma extract_decoded decode (s : text) (t : ToolCommand) :
  decode s = Some t ->
  extract_explanation_and_command decode (RText s)
  = extract_explanation_and_command decode (RCommand t).
Proof. intros H. unfold extract_explanation_and_command. by rewrite H. Qed.

(** ** The timed runner and the loop *)

Section Coordinator.

Variable rt : runtime.
Variable self : Executor.

Lemma signal_alarm_0 w : signal_alarm 0 w = (Ok tt, with_alarm 0 w).
Proof. reflexivity. Qed.

(** The timed runner: where the timer cannot be armed, the exception of
    [signal.signal] or of [signal.alarm] leaves it before the [try];
    else the block runs with the timer on, and the timer is off after
    it. *)
Lemma execute_with_timeout_eq (block : text) (sc : scope) (w : world) :
  execute_with_timeout rt self block sc w =
  if can_arm self w then
    match py_exec rt block sc (armed self w) with
    | (Ok sc', w1) => (Ok (get_execution sc'), with_alarm 0 w1)
    | (Raise (TimeoutError _), w1) =>
        (Ok (PStr (timeout_message self)), with_alarm 0 w1)
    | (Raise e, w1) => (Raise e, with_alarm 0 w1)
    end
  else (Raise (fst (arm_failure self w)), snd (arm_failure self w)).
Proof.
  unfold execute_with_timeout, bind, signal_signal, try_finally,
    try_except_timeout, ret, can_arm, arm_failure, armed.
  destruct (main_thread w) eqn:MT; [|reflexivity]. cbn [andb].
  unfold signal_alarm at 1.
  destruct (fits_int (max_time self)) eqn:F; [|reflexivity].
  destruct (py_exec rt block sc _) as [[sc'|[m|m|m]] w1];
    rewrite ?signal_alarm_0; reflexivity.
Qed.

Lemma execute_with_timeout_view (block : text) (sc : scope) (w : world) :
  execute_with_timeout rt self block sc w =
  if can_arm self w then
    match exec_view (py_exec rt block sc (armed self w)) with
    | (Ok v, w1) => (Ok v, with_alarm 0 w1)
    | (Raise (TimeoutError _), w1) =>
        (Ok (PStr (timeout_message self)), with_alarm 0 w1)
    | (Raise e, w1) => (Raise e, with_alarm 0 w1)
    end
  else (Raise (fst (arm_failure self w)), snd (arm_failure self w)).
Proof.
  rewrite execute_with_timeout_eq. unfold exec_view.
  destruct (can_arm self w); [|reflexivity].
  destruct (py_exec rt block sc _) as [[sc'|[m|m|m]] w1]; reflexivity.
Qed.




Lemma run_blocks_cons tool block tl acc w :
  run_blocks rt self tool (block :: tl) acc w =
  match execute_with_timeout rt self block (fresh_scope tool) w with
  | (Ok result, w1) =>
      run_blocks rt self tool tl (acc ++ [entry block result]) w1
  | (Raise e, w1) => (Raise e, w1)
  end.
Proof.
  cbn [run_blocks]. unfold bind, fresh_scope.
  destruct (execute_with_timeout _ _ _ _ _) as [[v|e] w1]; [|reflexivity].
  by destruct v.
Qed.







Lemma execute_tool_command_eq tool_name command w :
  execute_tool_command rt self tool_name command w =
  match make_tool rt self tool_name w with
  | (Raise e, w1) => on_exception e w1
  | (Ok tool, w1) =>
      match run_blocks rt self tool (split_commands command) [] w1 with
      | (Raise e, w2) => on_exception e w2
      | (Ok l, w2) => (Ok (inl l), w2)
      end
  end.
Proof.
  unfold execute_tool_command, try_except, bind, ret, on_exception.
  destruct (make_tool _ _ _ _) as [[tool|e] w1]; [|by destruct e].
  destruct (run_blocks _ _ _ _ _ _) as [[l|e] w2]; [done|by destruct e].
Qed.

End Coordinator.

(** ** The coordinator *)



(** C4, at [max_time = 0]: [signal.alarm(0)] arms no timer, so a block
    that takes 500 seconds runs to its end under a limit of 0 seconds and
    its value, not the text [Execution timed out after 0 seconds], is the
    entry of the block. *)
Theorem zero_max_time_runs_to_the_end :
  (forall w, alarm (armed zero_executor w) = None) /\
  timeout_message zero_executor = str "Execution timed out after 0 seconds" /\
  execute_with_timeout sleeper_runtime zero_executor slow_block
    (fresh_scope (PObj 1)) idle
  = (Ok (PInt 500), World None true ∅ true) /\
  execute_tool_command sleeper_runtime zero_executor (str "Sleeper_Tool")
    slow_block idle
  = (Ok (inl [PInt 500]), World None true ∅ true) /\
  execute_tool_command sleeper_runtime an_executor (str "Sleeper_Tool")
    slow_block idle
  = (Ok (inl [PStr (str "Execution timed out after 120 seconds")]),
     World None true ∅ true).
Proof.
  split; [reflexivity|]. vm_compute. repeat split; reflexivity.
Qed.






(** ** Scopes *)

Lemma run_blocks_ext (rt1 rt2 : runtime) (self : Executor) (tool : pyval)
    (blocks : list text) (acc : list pyval) (w : world) :
  (forall block w0,
     exec_view (py_exec rt1 block (fresh_scope tool) w0)
     = exec_view (py_exec rt2 block (fresh_scope tool) w0)) ->
  run_blocks rt1 self tool blocks acc w = run_blocks rt2 self tool blocks acc w.
Proof.
  intros H. revert acc w. induction blocks as [|b tl IH]; intros acc w.
  - reflexivity.
  - rewrite !run_blocks_cons, !execute_with_timeout_view, H.
    destruct (can_arm self w); [|reflexivity].
    destruct (exec_view _) as [[v|[m|m|m]] w1]; auto.
Qed.

(** C5, as stated, on the runtime of this file: the second block is the
    same text in both commands; on its own it fails because [x] is not
    defined, and after a block that binds [x] as a global name it finds
    [x] bound to 5. *)
Lemma global_binding_is_visible_later :
  split_commands (join_lines [global_block; unbound_block])
  = [global_block; unbound_block] /\
  fst (execute_tool_command sleeper_runtime an_executor (str "Sleeper_Tool")
         (join_lines [global_block; unbound_block]) idle)
  = Ok (inl [PInt 5; PInt 5]) /\
  fst (execute_tool_command sleeper_runtime an_executor (str "Sleeper_Tool")
         unbound_block idle)
  = Ok (inr (str "Error in execute_tool_command: name 'x' is not defined")).
Proof. vm_compute. repeat split. Qed.

(** C5, amended: every block is run in the scope that binds [tool] and
    nothing else, and of the scope a block leaves behind the coordinator
    keeps the value of [execution] and nothing else, so that a name bound
    in the scope of a block is visible in that block only: two
    interpreters that agree, from that starting scope, on the exception
    or the value of [execution] and on the state of the process, give the
    same result for every command, whatever they do from other scopes and
    whatever else they leave in the scope. The dictionary of global names
    belongs to the process and is shared by the blocks. *)
Theorem blocks_start_fresh
    (import : text -> M (text -> option tool_class))
    (set_dir : pyval -> M (text -> M unit))
    (exec1 exec2 : text -> scope -> M scope)
    (self : Executor) (tool_name command : text) (w : world) :
  (forall tool block w0,
     exec_view (exec1 block {[ "tool"%string := tool ]} w0)
     = exec_view (exec2 block {[ "tool"%string := tool ]} w0)) ->
  execute_tool_command (Build_runtime import set_dir exec1) self
    tool_name command w
  = execute_tool_command (Build_runtime import set_dir exec2) self
      tool_name command w.
Proof.
  intros H. rewrite !execute_tool_command_eq.
  change (make_tool (Build_runtime import set_dir exec2))
    with (make_tool (Build_runtime import set_dir exec1)).
  destruct (make_tool _ self tool_name w) as [[tool|e] w1]; [|reflexivity].
  rewrite (run_blocks_ext (Build_runtime import set_dir exec1)
             (Build_runtime import set_dir exec2)); [reflexivity|].
  intros block w0. apply H.
Qed.

Lemma blocks_start_fresh_witness :
  execute_tool_command
    (Build_runtime (import_module sleeper_runtime)
       (set_custom_output_dir sleeper_runtime) forgetful_exec)
    an_executor (str "Sleeper_Tool")
    (join_lines [quick_block; unbound_block]) idle
  = (Ok (inr (str "Error in execute_tool_command: name 'x' is not defined")),
     World None true ∅ true).
Proof.
  rewrite <- (blocks_start_fresh (import_module sleeper_runtime)
                (set_custom_output_dir sleeper_runtime)
                sleeper_exec forgetful_exec).
  - vm_compute. reflexivity.
  - intros tool block w0. unfold exec_view, forgetful_exec.
    destruct (sleeper_exec block _ w0) as [[sc|e] w1]; [|reflexivity].
    simpl. f_equal. f_equal. unfold get_execution.
    destruct (sc !! "execution"%string) as [v|] eqn:E.
    + by rewrite lookup_singleton_eq.
    + by rewrite lookup_empty.
Defined.

(** ** Searching for a literal start *)

Lemma head_flat_map_cons {A B} (f : A -> list B) (x : A) (l : list A) :
  head (flat_map f (x :: l)) =
  match head (f x) with
  | Some y => Some y
  | None => head (flat_map f l)
  end.
Proof. simpl. by destruct (f x). Qed.

(** [re.search] tries the positions as a lazy [.*] in front of the
    pattern does. *)
Lemma search_is_lazy (r : regex) (pos : nat) (s : text) :
  snd <$> search_from r pos s
  = head (flat_map (enum r) (star_lazy any_char pos s None)).
Proof.
  revert pos. induction s as [|c tl IH]; intros pos;
    cbn [search_from star_lazy]; rewrite head_flat_map_cons;
    unfold match_at; destruct (head (enum r _)) as [st|]; try reflexivity.
  simpl any_char. cbv iota. apply IH.
Qed.

Lemma find_sub_drop_none (w s : text) (n : nat) :
  find_sub w s = None -> find_sub w (drop n s) = None.
Proof.
  revert s. induction n as [|n IH]; intros s; [by rewrite drop_0|].
  destruct s as [|c tl]; [done|]. simpl drop. intros H. apply IH.
  simpl in H. destruct (starts_with w (c :: tl)); [discriminate|].
  by destruct (find_sub w tl).
Qed.

Lemma find_sub_cons (w : text) c (tl : text) :
  starts_with w (c :: tl) = false ->
  find_sub w (c :: tl) = S <$> find_sub w tl.
Proof. intros H. simpl find_sub. by rewrite H. Qed.

Lemma find_sub_here (w s : text) :
  starts_with w s = true -> find_sub w s = Some 0.
Proof. intros H. destruct s; simpl; by rewrite H. Qed.

Lemma find_sub_nil (w : text) :
  starts_with w [] = false -> find_sub w [] = None.
Proof. intros H. simpl. by rewrite H. Qed.

(** A literal, then a pattern whose group depends on nothing but the text
    that is left, and which cannot succeed further on where it has
    failed: the first occurrence of the literal decides. *)
Section LiteralStart.

Variable a : text.
Variable k : regex.
Variable kappa : text -> option (option text).
Hypothesis kappa_ok :
  forall pos t g, m_grp <$> head (enum k (MState pos t g)) = kappa t.
Hypothesis kappa_mono : forall t n, kappa t = None -> kappa (drop n t) = None.

Lemma literal_start_here pos (s : text) g :
  m_grp <$> head (enum (Seq (lit a) k) (MState pos s g)) =
  if starts_with a s then kappa (drop (length a) s) else None.
Proof.
  cbn [enum]. rewrite enum_lit. cbn [m_rest m_pos m_grp].
  destruct (starts_with a s); [|reflexivity].
  cbn [flat_map]. rewrite app_nil_r. apply kappa_ok.
Qed.

Lemma lazy_literal_start pos (s : text) g :
  m_grp <$> head (flat_map (enum (Seq (lit a) k)) (star_lazy any_char pos s g))
  = match find_sub a s with
    | Some i => kappa (drop (i + length a) s)
    | None => None
    end.
Proof.
  revert pos. induction s as [|c tl IH]; intros pos;
    cbn [star_lazy]; rewrite head_flat_map_cons.
  - pose proof (literal_start_here pos [] g) as H.
    destruct (head (enum _ _)) as [st|] eqn:E;
      cbn [fmap option_fmap option_map] in H |- *.
    + destruct (starts_with a []) eqn:Hs; [|discriminate].
      rewrite (find_sub_here _ _ Hs). exact H.
    + destruct (starts_with a []) eqn:Hs.
      * rewrite (find_sub_here _ _ Hs). exact H.
      * by rewrite (find_sub_nil _ Hs).
  - pose proof (literal_start_here pos (c :: tl) g) as H.
    change (any_char c) with true. cbv iota.
    destruct (head (enum _ (MState pos (c :: tl) g))) as [st|] eqn:E;
      cbn [fmap option_fmap option_map] in H |- *.
    + destruct (starts_with a (c :: tl)) eqn:Hs; [|discriminate].
      rewrite (find_sub_here _ _ Hs). exact H.
    + rewrite IH. destruct (starts_with a (c :: tl)) eqn:Hs.
      * rewrite (find_sub_here _ _ Hs). simpl "+". rewrite <- H.
        destruct (find_sub a tl) as [i|]; [|reflexivity].
        symmetry in H.
        pose proof (kappa_mono _ (S i) H) as M.
        rewrite drop_drop in M.
        replace (length a + S i) with (S (i + length a)) in M by lia.
        exact M.
      * rewrite (find_sub_cons _ _ _ Hs).
        destruct (find_sub a tl) as [i|]; reflexivity.
Qed.

Lemma search_literal_start pos (s : text) :
  group1 <$> search_from (Seq (lit a) k) pos s
  = match find_sub a s with
    | Some i => kappa (drop (i + length a) s)
    | None => None
    end.
Proof.
  rewrite <- (lazy_literal_start pos s None), <- search_is_lazy.
  by destruct (search_from _ pos s) as [[q st]|].
Qed.

End LiteralStart.

Lemma find_sub_some (w s : text) (i : nat) :
  find_sub w s = Some i ->
  starts_with w (drop i s) = true /\
  forall j, j < i -> starts_with w (drop j s) = false.
Proof.
  revert i. induction s as [|c tl IH]; intros i; simpl find_sub.
  - destruct (starts_with w []) eqn:Hs; [|discriminate].
    intros [= <-]. split; [exact Hs | intros j Hj; lia].
  - destruct (starts_with w (c :: tl)) eqn:Hs.
    + intros [= <-]. split; [exact Hs | intros j Hj; lia].
    + destruct (find_sub w tl) as [i'|]; [|discriminate].
      intros [= <-]. destruct (IH i' eq_refl) as [H1 H2].
      split; [exact H1|]. intros [|j] Hj; [exact Hs|].
      apply H2. lia.
Qed.

Lemma find_sub_first (w s : text) (j : nat) :
  starts_with w (drop j s) = true ->
  exists i, find_sub w s = Some i /\ i <= j.
Proof.
  revert j. induction s as [|c tl IH]; intros j; simpl find_sub.
  - rewrite drop_nil. intros ->. exists 0. split; [reflexivity | lia].
  - destruct (starts_with w (c :: tl)) eqn:Hs.
    + intros _. exists 0. split; [reflexivity | lia].
    + destruct j as [|j]; [simpl; congruence|]. simpl drop.
      intros H. destruct (IH j H) as [i [-> Hi]].
      exists (S i). split; [reflexivity | lia].
Qed.

Lemma up_to_mono (b t : text) (n : nat) :
  up_to b t = None -> up_to b (drop n t) = None.
Proof.
  unfold up_to. destruct (find_sub b t) eqn:E; [discriminate|].
  intros _. by rewrite (find_sub_drop_none _ _ n E).
Qed.

Lemma group_lazy_lit_aux (b : text) pos (t m t' : text) g :
  t = m ++ t' ->
  m_grp <$> head (flat_map (enum (lit b))
     (map (fun st' => MState (m_pos st') (m_rest st')
                        (Some (take (m_pos st' - pos) t)))
          (star_lazy any_char (pos + length m) t' g)))
  = (fun j => Some (take (length m + j) t)) <$> find_sub b t'.
Proof.
  revert m. induction t' as [|c tl IH]; intros m E;
    cbn [star_lazy map]; rewrite head_flat_map_cons, enum_lit;
    cbn [m_rest m_pos m_grp].
  - destruct (starts_with b []) eqn:Hs.
    + rewrite (find_sub_here _ _ Hs). simpl. do 3 f_equal. lia.
    + by rewrite (find_sub_nil _ Hs).
  - destruct (starts_with b (c :: tl)) eqn:Hs.
    + rewrite (find_sub_here _ _ Hs). simpl. do 3 f_equal. lia.
    + rewrite (find_sub_cons _ _ _ Hs). cbn [head].
      change (any_char c) with true. cbv iota.
      specialize (IH (m ++ [c])). rewrite length_app in IH. simpl in IH.
      replace (pos + (length m + 1)) with (S (pos + length m)) in IH by lia.
      rewrite IH; [|by rewrite <- app_assoc].
      destruct (find_sub b tl) as [j|]; simpl; [|reflexivity].
      do 3 f_equal. lia.
Qed.

Lemma group_lazy_lit (b : text) pos (t : text) g :
  m_grp <$> head (enum (Seq (Grp (StarL any_char)) (lit b)) (MState pos t g))
  = up_to b t.
Proof.
  cbn [enum m_pos m_rest m_grp].
  pose proof (group_lazy_lit_aux b pos t [] t g eq_refl) as H.
  simpl length in H. rewrite Nat.add_0_r in H. exact H.
Qed.

Lemma group1_strip_or_eq (m : option (nat * mstate)) (o : option text)
    (fallback : text) :
  group1 <$> m = Some <$> o ->
  group1_strip_or m fallback
  = Ok (match o with Some g => strip g | None => fallback end).
Proof.
  destruct m as [hit|], o as [g|]; simpl; try discriminate.
  - intros [= ->]. reflexivity.
  - reflexivity.
Qed.

(** What [re.search] finds for the three patterns of the parser. *)
Lemma search_between (a b s : text) :
  group1 <$> re_search (Seq (lit a) (Seq (Grp (StarL any_char)) (lit b))) s
  = Some <$> between a b s.
Proof.
  unfold re_search.
  rewrite (search_literal_start a _ (up_to b) (group_lazy_lit b)
             (up_to_mono b)).
  unfold between, up_to.
  destruct (find_sub a s) as [i|]; [|reflexivity].
  by destruct (find_sub b _).
Qed.

Lemma between_mono (a b t : text) (n : nat) :
  between a b t = None -> between a b (drop n t) = None.
Proof.
  unfold between. intros H.
  destruct (find_sub a (drop n t)) as [i'|] eqn:E'; [|reflexivity].
  apply find_sub_some in E' as [S' _]. rewrite drop_drop in S'.
  apply find_sub_first in S' as [i [E Hi]]. rewrite E in H.
  rewrite drop_drop.
  destruct (find_sub b (drop (i + length a) t)) eqn:Eb; [discriminate|].
  replace (n + (i' + length a)) with ((i + length a) + (n + i' - i)) by lia.
  rewrite <- drop_drop. by rewrite (find_sub_drop_none _ _ _ Eb).
Qed.

Lemma search_fenced (s : text) :
  group1 <$> re_search command_pattern s = Some <$> fenced s.
Proof.
  unfold re_search.
  change command_pattern with
    (Seq (lit command_marker)
       (Seq (StarL any_char)
          (Seq (lit fence_python)
             (Seq (Grp (StarL any_char)) (lit fence_close))))).
  rewrite (search_literal_start command_marker _
             (fun t => Some <$> between fence_python fence_close t)).
  - unfold fenced. by destruct (find_sub command_marker s).
  - intros pos t g. cbn [enum m_pos m_rest m_grp].
    rewrite (lazy_literal_start fence_python _ (up_to fence_close)
               (group_lazy_lit fence_close) (up_to_mono fence_close)).
    unfold between, up_to.
    destruct (find_sub fence_python t) as [i|]; [|reflexivity].
    by destruct (find_sub fence_close _).
  - intros t n H.
    destruct (between fence_python fence_close t) eqn:E; [discriminate|].
    by rewrite (between_mono _ _ _ n E).
Qed.

(** ** [extract_explanation_and_command] on free text *)

Lemma find_sub_longer (w x s : text) :
  find_sub w s = None -> find_sub (w ++ x) s = None.
Proof.
  intros H. destruct (find_sub (w ++ x) s) as [i|] eqn:E; [|reflexivity].
  apply find_sub_some in E as [E _].
  apply starts_with_iff in E as [t E].
  assert (starts_with w (drop i s) = true) as S.
  { apply starts_with_iff. exists (x ++ t). by rewrite E, <- app_assoc. }
  apply find_sub_first in S as [j [S _]]. congruence.
Qed.

Lemma between_no_start (a b s : text) :
  find_sub a s = None -> between a b s = None.
Proof. unfold between. by intros ->. Qed.

Lemma between_no_end (a b s : text) :
  find_sub b s = None -> between a b s = None.
Proof.
  unfold between. intros H. destruct (find_sub a s) as [i|]; [|reflexivity].
  by rewrite (find_sub_drop_none _ _ _ H).
Qed.

(** C8, as stated, at a response without [Command Explanation:] in which
    the two other sections are present: the explanation is its fallback,
    and so is the analysis, although [Analysis:] and the text after it
    are there. *)
Lemma missing_explanation_loses_analysis :
  find_sub explanation_marker response_without_explanation = None /\
  find_sub analysis_marker response_without_explanation = Some 0 /\
  fenced response_without_explanation
  = Some (str "execution = tool.execute(x=1)" ++ [newline]) /\
  extract_explanation_and_command (fun _ => None)
    (RText response_without_explanation)
  = Ok (str "No analysis found.", str "No explanation found.",
        str "execution = tool.execute(x=1)").
Proof. vm_compute. repeat split. Qed.

(** C8, amended: on free text no error is raised and every field is
    found on its own. The analysis is the text between the first
    [Analysis:] and the first [Command Explanation] after it, trimmed;
    the explanation is the text between the first [Command Explanation:]
    and the first [Generated Command] after it, trimmed; the command is
    the content of the first block fenced by [```python] and [```] after
    the first [Generated Command:], trimmed and normalized. A field whose
    marker is absent is its fallback; so is the analysis when [Command
    Explanation] is absent, and the explanation when [Generated Command]
    is absent, for want of the text that ends their section. *)
Theorem free_text_fields decode (s : text) :
  decode s = None ->
  let a := match between analysis_marker (str "Command Explanation") s with
           | Some g => strip g
           | None => str "No analysis found."
           end in
  let e := match between explanation_marker (str "Generated Command") s with
           | Some g => strip g
           | None => str "No explanation found."
           end in
  let c := normalize_code
             match fenced s with
             | Some g => strip g
             | None => str "No command found."
             end in
  extract_explanation_and_command decode (RText s) = Ok (a, e, c) /\
  (find_sub analysis_marker s = None -> a = str "No analysis found.") /\
  (find_sub explanation_marker s = None -> e = str "No explanation found.") /\
  (find_sub command_marker s = None \/ find_sub fence_python s = None \/
   find_sub fence_close s = None -> c = str "No command found.") /\
  (find_sub (str "Command Explanation") s = None ->
   a = str "No analysis found.") /\
  (find_sub (str "Generated Command") s = None ->
   e = str "No explanation found.").
Proof.
  intros D a e c. split; [|repeat split].
  - unfold extract_explanation_and_command. rewrite D.
    rewrite (group1_strip_or_eq _ _ _
               (search_between analysis_marker (str "Command Explanation") s)).
    rewrite (group1_strip_or_eq _ _ _
               (search_between explanation_marker (str "Generated Command") s)).
    rewrite (group1_strip_or_eq _ _ _ (search_fenced s)).
    reflexivity.
  - intros H. subst a. by rewrite (between_no_start _ _ _ H).
  - intros H. subst e. by rewrite (between_no_start _ _ _ H).
  - intros H. subst c.
    assert (fenced s = None) as ->; [|by vm_compute].
    unfold fenced. destruct H as [H|[H|H]].
    + by rewrite H.
    + destruct (find_sub command_marker s); [|reflexivity].
      apply between_no_start. by apply find_sub_drop_none.
    + destruct (find_sub command_marker s); [|reflexivity].
      apply between_no_end. by apply find_sub_drop_none.
  - intros H. subst a. by rewrite (between_no_end _ _ _ H).
  - intros H. subst e. by rewrite (between_no_end _ _ _ H).
Qed.

Lemma free_text_fields_witness :
  extract_explanation_and_command (fun _ => None) (RText full_response)
  = Ok (str "look", str "call it", str "execution = tool.execute(x=1)").
Proof.
  rewrite (proj1 (free_text_fields (fun _ => None) full_response eq_refl)).
  vm_compute. reflexivity.
Defined.

(** ** What the patterns match *)

Lemma in_rests_lit (w s t : text) : In t (rests (lit w) s) <-> s = w ++ t.
Proof.
  rewrite rests_lit. destruct (starts_with w s) eqn:Hs.
  - apply starts_with_drop in Hs. simpl. split.
    + intros [<-|[]]. exact Hs.
    + intros E. left. rewrite E. by rewrite drop_app_length.
  - simpl. split; [intros []|]. intros E.
    rewrite E, starts_with_app in Hs. discriminate.
Qed.

Lemma run_prefix_iff p c (tl t : text) :
  (exists m, c :: tl = m ++ t /\ forallb p m = true) <->
  t = c :: tl \/ (p c = true /\ exists m, tl = m ++ t /\ forallb p m = true).
Proof.
  split.
  - intros [[|a m] [E F]]; simpl in *.
    + by left.
    + right. injection E as <- ->. apply andb_true_iff in F as [Hc F].
      split; [exact Hc|]. by exists m.
  - intros [->|[Hc [m [-> F]]]].
    + by exists [].
    + exists (c :: m). simpl. by rewrite Hc, F.
Qed.

Lemma in_star_greedy p pos (s : text) g (t : text) :
  In t (map m_rest (star_greedy p pos s g)) <->
  exists m, s = m ++ t /\ forallb p m = true.
Proof.
  revert pos. induction s as [|c tl IH]; intros pos.
  - simpl. split.
    + intros [<-|[]]. by exists [].
    + intros [m [E _]]. left. symmetry in E.
      by apply app_eq_nil in E as [_ ->].
  - rewrite run_prefix_iff. simpl. destruct (p c) eqn:Hc.
    + rewrite map_app, in_app_iff, IH. simpl. split.
      * intros [H|[<-|[]]]; [right; by split | by left].
      * intros [->|[_ H]]; [right; by left | by left].
    + simpl. split.
      * intros [<-|[]]. by left.
      * intros [->|[? _]]; [by left | discriminate].
Qed.

Lemma in_star_lazy p pos (s : text) g (t : text) :
  In t (map m_rest (star_lazy p pos s g)) <->
  exists m, s = m ++ t /\ forallb p m = true.
Proof.
  revert pos. induction s as [|c tl IH]; intros pos.
  - simpl. split.
    + intros [<-|[]]. by exists [].
    + intros [m [E _]]. left. symmetry in E.
      by apply app_eq_nil in E as [_ ->].
  - rewrite run_prefix_iff. simpl. destruct (p c) eqn:Hc.
    + rewrite IH. split.
      * intros [<-|H]; [by left | right; by split].
      * intros [->|[_ H]]; [by left | by right].
    + simpl. split.
      * intros [<-|[]]. by left.
      * intros [->|[? _]]; [by left | discriminate].
Qed.

Lemma in_rests_greedy p (s t : text) :
  In t (rests (StarG p) s) <-> exists m, s = m ++ t /\ forallb p m = true.
Proof. apply in_star_greedy. Qed.

Lemma in_rests_lazy p (s t : text) :
  In t (rests (StarL p) s) <-> exists m, s = m ++ t /\ forallb p m = true.
Proof. apply in_star_lazy. Qed.

Lemma in_rests_seq (a b : regex) (s t : text) :
  plain b = true ->
  In t (rests (Seq a b) s) <-> exists u, In u (rests a s) /\ In t (rests b u).
Proof. intros Hb. rewrite rests_seq by done. apply in_flat_map. Qed.

Lemma in_rests_end (s t : text) :
  In t (rests (Alt (Chr newline) Eos) s) <->
  s = newline :: t \/ (s = t /\ (t = [] \/ t = [newline])).
Proof.
  rewrite rests_alt, in_app_iff. unfold rests, Chr. cbn [enum m_rest m_pos m_grp].
  unfold is_newline.
  destruct s as [|c tl].
  - simpl. split.
    + intros [[]|[<-|[]]]. right. split; [reflexivity | by left].
    + intros [|[<- _]]; [discriminate | right; by left].
  - destruct (chr_eqb c newline) eqn:Hc.
    + apply chr_eqb_eq in Hc. subst c. destruct tl as [|d tl]; simpl.
      * split.
        -- intros [[<-|[]]|[<-|[]]]; [by left|]. right. split; [done | by right].
        -- intros [[= <-]|[<- _]]; [left; by left | right; by left].
      * split.
        -- intros [[<-|[]]|[]]. by left.
        -- intros [[= <-]|[<- [|]]]; try discriminate. left. by left.
    + assert (c <> newline) as Hn.
      { intros ->. by rewrite chr_eqb_refl in Hc. }
      destruct tl as [|d tl]; simpl; (split; [intros [[]|[]]|]).
      * intros [[= ? _]|[<- [|[= ?]]]]; done.
      * intros [[= ? _]|[<- [|]]]; done.
Qed.

Lemma in_rests_seq_1 (a b : regex) (s t : text) :
  plain b = true ->
  In t (rests (Seq a b) s) -> exists u, In u (rests a s) /\ In t (rests b u).
Proof. intros Hb. by apply in_rests_seq. Qed.

Lemma in_rests_seq_2 (a b : regex) (s u t : text) :
  plain b = true ->
  In u (rests a s) -> In t (rests b u) -> In t (rests (Seq a b) s).
Proof. intros Hb H1 H2. apply in_rests_seq; [done|]. by exists u. Qed.

Lemma in_rests_lit_app (w t : text) : In t (rests (lit w) (w ++ t)).
Proof. by apply in_rests_lit. Qed.

Lemma in_rests_greedy_app p (m t : text) :
  forallb p m = true -> In t (rests (StarG p) (m ++ t)).
Proof. intros H. apply in_rests_greedy. by exists m. Qed.

Lemma in_rests_tail (s t : text) :
  In t (rests invocation_tail s) <-> invocation s t.
Proof.
  unfold invocation_tail, invocation, closes. cbn [seqs]. split.
  - intros H.
    apply in_rests_seq_1 in H as (s1 & ->%in_rests_lit & H); [|done].
    apply in_rests_seq_1 in H
      as (s2 & (w1 & -> & W1)%in_rests_greedy & H); [|done].
    apply in_rests_seq_1 in H as (s3 & ->%in_rests_lit & H); [|done].
    apply in_rests_seq_1 in H
      as (s4 & (w2 & -> & W2)%in_rests_greedy & H); [|done].
    apply in_rests_seq_1 in H as (s5 & ->%in_rests_lit & H); [|done].
    apply in_rests_seq_1 in H
      as (s6 & (a & -> & A)%in_rests_greedy & H); [|done].
    apply in_rests_seq_1 in H as (s7 & ->%in_rests_lit & H); [|done].
    apply in_rests_seq_1 in H
      as (s8 & (w3 & -> & W3)%in_rests_greedy & H); [|done].
    apply in_rests_end in H.
    exists w1, w2, (a ++ str ")" ++ w3 ++ s8).
    repeat split; try done. exists a, w3. repeat split; try done.
    destruct H as [->|[-> E]]; [by left | by right].
  - intros (w1 & w2 & u & -> & W1 & W2 & a & w3 & A & W3 & E).
    assert (exists s8, u = a ++ str ")" ++ w3 ++ s8 /\
              In t (rests (Alt (Chr newline) Eos) s8)) as (s8 & -> & H).
    { destruct E as [->|[-> E]]; eexists; (split; [reflexivity|]);
        apply in_rests_end; [by left | by right]. }
    eapply in_rests_seq_2; [done | apply in_rests_lit_app|].
    eapply in_rests_seq_2; [done | by apply in_rests_greedy_app|].
    eapply in_rests_seq_2; [done | apply in_rests_lit_app|].
    eapply in_rests_seq_2; [done | by apply in_rests_greedy_app|].
    eapply in_rests_seq_2; [done | apply in_rests_lit_app|].
    eapply in_rests_seq_2; [done | by apply in_rests_greedy_app|].
    eapply in_rests_seq_2; [done | apply in_rests_lit_app|].
    eapply in_rests_seq_2; [done | by apply in_rests_greedy_app|].
    exact H.
Qed.

Lemma plain_split_pattern : plain split_pattern = true.
Proof. reflexivity. Qed.

Lemma plain_invocation_tail : plain invocation_tail = true.
Proof. reflexivity. Qed.

Lemma forallb_any_char (m : text) : forallb any_char m = true.
Proof. by induction m. Qed.

Lemma in_rests_split (s t : text) :
  In t (rests split_pattern s) <->
  exists pre u, s = pre ++ u /\ invocation u t.
Proof.
  unfold split_pattern.
  rewrite in_rests_seq by apply plain_invocation_tail. split.
  - intros (u & (pre & -> & _)%in_rests_lazy & I%in_rests_tail).
    by exists pre, u.
  - intros (pre & u & -> & I). exists u. split; [|by apply in_rests_tail].
    apply in_rests_lazy. exists pre.
    split; [reflexivity | apply forallb_any_char].
Qed.

Lemma invocation_shorter (s t : text) :
  invocation s t -> length t + 24 <= length s.
Proof.
  intros (w1 & w2 & u & -> & _ & _ & a & w3 & _ & _ & E).
  destruct E as [->|[-> _]]; rewrite !length_app; simpl; lia.
Qed.

Lemma invocation_suffix (s t : text) :
  invocation s t -> exists m, s = m ++ t.
Proof.
  intros (w1 & w2 & u & -> & _ & _ & a & w3 & _ & _ & E).
  destruct E as [->|[-> _]].
  - exists (str "execution" ++ w1 ++ str "=" ++ w2 ++ str "tool.execute("
            ++ a ++ str ")" ++ w3 ++ [newline]).
    by rewrite <- !app_assoc.
  - exists (str "execution" ++ w1 ++ str "=" ++ w2 ++ str "tool.execute("
            ++ a ++ str ")" ++ w3).
    by rewrite <- !app_assoc.
Qed.

(** ** The matches of [split_commands] *)

Lemma head_in {A} (l : list A) x : head l = Some x -> In x l.
Proof. destruct l; simpl; [discriminate|]. intros [= ->]. by left. Qed.

Lemma head_none {A} (l : list A) : head l = None -> l = [].
Proof. by destruct l. Qed.

Lemma first_hit_some (s t : text) :
  first_hit s = Some t -> exists pre u, s = pre ++ u /\ invocation u t.
Proof. intros H. by apply in_rests_split, head_in. Qed.

Lemma first_hit_none (s : text) :
  first_hit s = None <-> forall pre u t, s = pre ++ u -> ~ invocation u t.
Proof.
  unfold first_hit. split.
  - intros H pre u t E I. apply head_none in H.
    assert (In t (rests split_pattern s)) as X.
    { apply in_rests_split. by exists pre, u. }
    by rewrite H in X.
  - intros H. destruct (head _) as [t|] eqn:E; [|reflexivity].
    apply head_in, in_rests_split in E as (pre & u & E & I).
    by destruct (H pre u t E).
Qed.

Lemma first_hit_none_suffix (m s : text) :
  first_hit (m ++ s) = None -> first_hit s = None.
Proof.
  rewrite !first_hit_none. intros H pre u t -> I.
  apply (H (m ++ pre) u t); [by rewrite app_assoc | exact I].
Qed.

Lemma match_at_split pos (s : text) :
  match_at split_pattern pos s
  = (fun t => MState (pos + (length s - length t)) t None) <$> first_hit s.
Proof. apply match_at_plain, plain_split_pattern. Qed.

Lemma scan_split_none pos (s : text) :
  first_hit s = None -> scan split_pattern pos s 0 = map Outside s.
Proof.
  revert pos. induction s as [|c tl IH]; intros pos H;
    cbn [scan]; rewrite match_at_split, H; simpl; [reflexivity|].
  f_equal. apply IH. by apply (first_hit_none_suffix [c]).
Qed.

Lemma first_hit_split (s t : text) :
  first_hit s = Some t -> exists m, s = m ++ t /\ 24 <= length m /\
                                    ends_with_invocation m.
Proof.
  intros (pre & u & -> & I)%first_hit_some.
  destruct I as (w1 & w2 & x & -> & W1 & W2 & a & w3 & A & W3 & E).
  destruct E as [->|[-> E]].
  - exists (pre ++ str "execution" ++ w1 ++ str "=" ++ w2
            ++ str "tool.execute(" ++ a ++ str ")" ++ w3 ++ [newline]).
    split; [by rewrite <- !app_assoc|].
    split; [rewrite !length_app; simpl; lia|].
    exists pre. eexists. split; [reflexivity|].
    exists w1, w2, (a ++ str ")" ++ w3 ++ [newline]).
    repeat split; try done. exists a, w3. repeat split; try done. by left.
  - exists (pre ++ str "execution" ++ w1 ++ str "=" ++ w2
            ++ str "tool.execute(" ++ a ++ str ")" ++ w3).
    split; [by rewrite <- !app_assoc|].
    split; [rewrite !length_app; simpl; lia|].
    exists pre. eexists. split; [reflexivity|].
    exists w1, w2, (a ++ str ")" ++ w3 ++ []).
    repeat split; try (by rewrite ?app_nil_r). exists a, w3.
    repeat split; try done. right. split; [reflexivity | by left].
Qed.

Lemma scan_split_some pos (s t : text) :
  first_hit s = Some t ->
  scan split_pattern pos s 0
  = Hit (take (length s - length t) s) None
    :: scan split_pattern (pos + (length s - length t)) t 0.
Proof.
  intros H. destruct (first_hit_split _ _ H) as (m & -> & L & _).
  destruct m as [|c m]; [simpl in L; lia|].
  cbn [app] in H |- *. cbn [scan]. rewrite match_at_split, H.
  cbn [fmap option_fmap option_map m_pos m_grp].
  assert (length (c :: m ++ t) - length t = S (length m)) as ->.
  { simpl. rewrite length_app. lia. }
  replace (pos + S (length m) - pos) with (S (length m)) by lia.
  cbn [Nat.eqb]. simpl Nat.sub. rewrite Nat.sub_0_r, scan_busy.
  do 2 f_equal. lia.
Qed.

Lemma hits_scan_split n : forall pos (s : text),
  length s <= n ->
  hits (scan split_pattern pos s 0) =
  match first_hit s with
  | Some t => take (length s - length t) s :: hits (scan split_pattern 0 t 0)
  | None => []
  end.
Proof.
  induction n as [|n IH]; intros pos s L.
  - destruct s; [|simpl in L; lia].
    assert (first_hit [] = None) as H by reflexivity.
    by rewrite H, scan_split_none.
  - destruct (first_hit s) as [t|] eqn:H.
    + rewrite (scan_split_some _ _ _ H). cbn [hits flat_map app]. f_equal.
      destruct (first_hit_split _ _ H) as (m & E & Lm & _).
      assert (length t <= n) as Lt.
      { rewrite E, length_app in L. lia. }
      fold (hits (scan split_pattern (pos + (length s - length t)) t 0)).
      rewrite (IH _ t Lt), (IH 0 t Lt). reflexivity.
    + rewrite (scan_split_none _ _ H). clear. unfold hits.
      induction s; simpl; auto.
Qed.

Lemma findall_split (s : text) :
  re_findall split_pattern s =
  match first_hit s with
  | Some t => take (length s - length t) s :: re_findall split_pattern t
  | None => []
  end.
Proof. apply (hits_scan_split (length s) 0 s). lia. Qed.

(** The matches lie side by side from the start of the command, each
    one the first match in what the one before has left; what is left
    after the last one holds no invocation. *)
Lemma findall_in_turn (s : text) :
  exists raws tail,
    s = concat raws ++ tail /\
    re_findall split_pattern s = raws /\
    Forall ends_with_invocation raws /\
    in_turn raws tail.
Proof.
  remember (length s) as n eqn:L. revert s L.
  induction n as [n IH] using lt_wf_ind. intros s ->.
  rewrite findall_split. destruct (first_hit s) as [t|] eqn:H.
  - destruct (first_hit_split _ _ H) as (m & E & Lm & I).
    destruct (IH (length t)) with (s := t)
      as (raws & tail & Et & F & R & T); [|reflexivity|].
    { rewrite E, length_app. lia. }
    exists (m :: raws), tail. simpl. rewrite <- app_assoc, <- Et.
    split; [exact E|]. split.
    + rewrite F. f_equal. rewrite E at 2. rewrite E, length_app.
      replace (length m + length t - length t) with (length m) by lia.
      by rewrite take_app_length.
    + split; [by constructor|]. split; [by rewrite <- E | exact T].
  - exists [], s. repeat split; [constructor | exact H].
Qed.

Lemma in_turn_tail (raws : list text) (tail : text) :
  in_turn raws tail -> first_hit tail = None.
Proof.
  induction raws as [|m r IH]; simpl; [done|]. intros [_ T]. by apply IH.
Qed.

Lemma findall_tiles (s : text) :
  exists raws tail,
    s = concat raws ++ tail /\
    re_findall split_pattern s = raws /\
    Forall ends_with_invocation raws /\
    first_hit tail = None.
Proof.
  destruct (findall_in_turn s) as (raws & tail & E & F & R & T).
  exists raws, tail. repeat split; try done. by apply in_turn_tail in T.
Qed.

(** ** The blocks *)

Lemma forallb_app_true {A} (p : A -> bool) (l k : list A) :
  forallb p l = true -> forallb p k = true -> forallb p (l ++ k) = true.
Proof. intros H1 H2. rewrite forallb_app. by rewrite H1, H2. Qed.

Lemma invocation_nil_core (inv : text) :
  invocation inv [] <->
  exists core w3, inv = core ++ w3 /\ invocation_core core /\
                  forallb is_space w3 = true.
Proof.
  split.
  - intros (w1 & w2 & u & -> & W1 & W2 & a & w3 & A & W3 & E).
    destruct E as [->|[-> _]].
    + exists (str "execution" ++ w1 ++ str "=" ++ w2 ++ str "tool.execute("
              ++ a ++ str ")"), (w3 ++ [newline]).
      split; [by rewrite <- !app_assoc|].
      split; [by exists w1, w2, a|]. by apply forallb_app_true.
    + exists (str "execution" ++ w1 ++ str "=" ++ w2 ++ str "tool.execute("
              ++ a ++ str ")"), w3.
      split; [by rewrite <- !app_assoc, app_nil_r|].
      split; [by exists w1, w2, a | exact W3].
  - intros (core & w3 & -> & (w1 & w2 & a & -> & W1 & W2 & A) & W3).
    exists w1, w2, (a ++ str ")" ++ w3).
    split; [by rewrite <- !app_assoc|]. repeat split; try done.
    exists a, w3. repeat split; try done. right.
    split; [by rewrite app_nil_r | by left].
Qed.

Lemma lstrip_by_app_stop p (x y : text) c :
  head y = Some c -> p c = false ->
  lstrip_by p (x ++ y) = lstrip_by p x ++ y.
Proof.
  intros Hy Hc. induction x as [|a x IH]; simpl.
  - destruct y as [|b y]; [discriminate|]. simpl in *.
    injection Hy as ->. by rewrite Hc.
  - by destruct (p a).
Qed.

Lemma rstrip_by_app_all p (x w : text) :
  forallb p w = true -> rstrip_by p (x ++ w) = rstrip_by p x.
Proof.
  intros H. unfold rstrip_by. rewrite reverse_app, lstrip_by_all; [done|].
  rewrite forallb_forall in *. intros c Hc. apply H.
  rewrite <- list_elem_of_In in Hc |- *. by apply elem_of_reverse.
Qed.

Lemma invocation_core_ends (core : text) :
  invocation_core core ->
  head core = Some "e"%char /\ last core = Some ")"%char.
Proof.
  intros (w1 & w2 & a & -> & _). split; [reflexivity|].
  rewrite !app_assoc. apply last_snoc.
Qed.

(** Trimming a piece leaves its text from the first character that is
    not white space to the closing parenthesis of its invocation. *)
Lemma strip_piece (pre core w3 : text) :
  invocation_core core -> forallb is_space w3 = true ->
  strip (pre ++ core ++ w3) = lstrip_by is_space pre ++ core.
Proof.
  intros C W. destruct (invocation_core_ends _ C) as [Hh Hl].
  unfold strip.
  rewrite (lstrip_by_app_stop _ _ _ "e"%char); [|by destruct core | done].
  rewrite app_assoc, rstrip_by_app_all by done.
  apply rstrip_by_fixed. rewrite last_app, Hl. reflexivity.
Qed.

Lemma strip_ends_with_invocation (raw : text) :
  ends_with_invocation raw ->
  exists pre core, strip raw = pre ++ core /\ invocation_core core /\
                   lstrip_by is_space pre = pre.
Proof.
  intros (pre & inv & -> & (core & w3 & -> & C & W)%invocation_nil_core).
  exists (lstrip_by is_space pre), core.
  split; [by apply strip_piece|]. split; [exact C | apply lstrip_by_idem].
Qed.

Lemma filter_nonempty_all (l : list text) :
  Forall (fun b => nonempty b = true) l ->
  filter (fun b => nonempty b = true) l = l.
Proof.
  induction 1 as [|b l Hb _ IH]; [reflexivity|].
  rewrite filter_cons_True by done. by rewrite IH.
Qed.

Lemma split_commands_in_turn (command : text) :
  exists raws tail,
    command = concat raws ++ tail /\
    split_commands command = map strip raws /\
    Forall ends_with_invocation raws /\
    in_turn raws tail.
Proof.
  destruct (findall_in_turn command) as (raws & tail & E & F & R & T).
  exists raws, tail. repeat split; try done.
  unfold split_commands. rewrite F. apply filter_nonempty_all.
  apply Forall_map. eapply Forall_impl; [exact R|].
  intros raw (pre & core & -> & C & _)%strip_ends_with_invocation.
  destruct (invocation_core_ends _ C) as [_ Hl].
  destruct (pre ++ core) eqn:X; [|reflexivity].
  apply app_eq_nil in X as [_ ->]. discriminate.
Qed.

Lemma split_commands_tiles (command : text) :
  exists raws tail,
    command = concat raws ++ tail /\
    split_commands command = map strip raws /\
    Forall ends_with_invocation raws /\
    first_hit tail = None.
Proof.
  destruct (split_commands_in_turn command) as (raws & tail & E & S & R & T).
  exists raws, tail. repeat split; try done. by apply in_turn_tail in T.
Qed.

Lemma search_split_found pos (s : text) :
  found (search_from split_pattern pos s) = found (first_hit s).
Proof.
  revert pos. induction s as [|c tl IH]; intros pos; cbn [search_from];
    rewrite match_at_split.
  - by destruct (first_hit []).
  - destruct (first_hit (c :: tl)) as [t|] eqn:H; [reflexivity|].
    simpl. rewrite IH. by rewrite (first_hit_none_suffix [c] tl H).
Qed.

Lemma invocation_line_hit (l : text) :
  invocation_line l = found (first_hit l).
Proof. apply search_split_found. Qed.

Lemma re_search_split_none (s : text) :
  re_search split_pattern s = None <-> first_hit s = None.
Proof.
  pose proof (search_split_found 0 s) as H. unfold re_search.
  destruct (search_from _ _ _), (first_hit s); simpl in H; split;
    intros; congruence.
Qed.

Lemma split_commands_none (s : text) :
  first_hit s = None -> split_commands s = [].
Proof. intros H. unfold split_commands. by rewrite findall_split, H. Qed.

Lemma not_newline_app (x y : text) :
  forallb not_newline (x ++ newline :: y) = false.
Proof.
  rewrite forallb_app. cbn [forallb]. unfold not_newline at 2, is_newline.
  rewrite chr_eqb_refl. simpl. apply andb_false_r.
Qed.

Lemma newline_in_prefix (a t p l : text) :
  a ++ newline :: t = p ++ l -> forallb not_newline l = true ->
  exists x, p = a ++ newline :: x /\ t = x ++ l.
Proof.
  revert p. induction a as [|c a IH]; intros p E L.
  - destruct p as [|d p]; simpl in E.
    + subst l. change (newline :: t) with ([] ++ newline :: t) in L.
      by rewrite not_newline_app in L.
    + injection E as <- ->. by exists p.
  - destruct p as [|d p]; simpl in E.
    + subst l. change (c :: a ++ newline :: t) with ((c :: a) ++ newline :: t) in L.
      by rewrite not_newline_app in L.
    + injection E as <- E. destruct (IH p E L) as [x [-> ->]]. by exists x.
Qed.

Lemma invocation_on_line (u t : text) :
  invocation u t -> forallb not_newline u = true -> t = [].
Proof.
  intros (w1 & w2 & x & -> & _ & _ & a & w3 & _ & _ & E) L.
  destruct E as [-> | [-> [-> | ->]]]; [|reflexivity|].
  - rewrite !app_assoc in L. by rewrite not_newline_app in L.
  - rewrite !app_assoc in L.
    change [newline] with ([] ++ newline :: []) in L.
    rewrite app_assoc in L. by rewrite not_newline_app in L.
Qed.

Lemma forallb_app_r {A} (p : A -> bool) (l k : list A) :
  forallb p (l ++ k) = true -> forallb p k = true.
Proof. rewrite forallb_app. by intros [_ ?]%andb_true_iff. Qed.

(** Preparation without an invocation, then one invocation line: one
    block, the whole command trimmed. *)
Lemma one_block (p line : text) :
  first_hit p = None ->
  forallb not_newline line = true ->
  invocation_line line = true ->
  split_commands (p ++ line) = [strip (p ++ line)].
Proof.
  intros P L I. rewrite invocation_line_hit in I.
  destruct (first_hit line) as [t'|] eqn:H'; [|discriminate]. clear I.
  apply first_hit_some in H' as (pre & u & -> & I).
  assert (t' = []) as ->.
  { apply (invocation_on_line _ _ I). by apply forallb_app_r in L. }
  destruct (first_hit (p ++ pre ++ u)) as [t|] eqn:H.
  2:{ rewrite first_hit_none in H.
      destruct (H (p ++ pre) u [] (app_assoc _ _ _) I). }
  assert (t = []) as ->.
  { pose proof H as (pre2 & u2 & E & I2)%first_hit_some.
    destruct I2 as (w1 & w2 & x & -> & W1 & W2 & a & w3 & A & W3 & C).
    destruct C as [-> | [-> [-> | ->]]]; [exfalso|reflexivity|exfalso].
    - rewrite !app_assoc in E. rewrite <- (app_assoc p pre u) in E.
      symmetry in E.
      apply newline_in_prefix in E as (y & E & _); [|exact L].
      rewrite first_hit_none in P.
      apply (P pre2 (str "execution" ++ w1 ++ str "=" ++ w2
                     ++ str "tool.execute(" ++ a ++ str ")" ++ w3
                     ++ newline :: y) y).
      + rewrite E. by rewrite <- !app_assoc.
      + exists w1, w2, (a ++ str ")" ++ w3 ++ newline :: y).
        repeat split; try done. exists a, w3. repeat split; try done.
        by left.
    - rewrite !app_assoc in E. rewrite <- (app_assoc p pre u) in E.
      symmetry in E.
      change [newline] with (newline :: []) in E.
      apply newline_in_prefix in E as (y & _ & E); [|exact L].
      symmetry in E. apply app_eq_nil in E as [_ E].
      apply app_eq_nil in E as [_ ->].
      apply invocation_shorter in I. simpl in I. lia. }
  unfold split_commands. rewrite findall_split, H, findall_split.
  assert (first_hit [] = None) as -> by reflexivity.
  simpl length. rewrite Nat.sub_0_r, firstn_all. simpl map.
  apply filter_nonempty_all. constructor; [|constructor].
  destruct (first_hit_split _ _ H) as (m & E & _ & R).
  rewrite app_nil_r in E. rewrite E.
  apply strip_ends_with_invocation in R as (pre3 & core & -> & C & _).
  destruct (invocation_core_ends _ C) as [_ Hl].
  destruct (pre3 ++ core) eqn:X; [|reflexivity].
  apply app_eq_nil in X as [_ ->]. discriminate.
Qed.



(** ** Lines *)

Lemma is_newline_true c : is_newline c = true <-> c = newline.
Proof. apply chr_eqb_eq. Qed.

Lemma lines_of_cons (s : text) : exists l r, lines_of s = l :: r.
Proof.
  induction s as [|c tl (l & r & E)]; simpl; [by eexists _, _|].
  destruct (is_newline c); [by eexists _, _|]. rewrite E. by eexists _, _.
Qed.

Lemma lines_of_app (x y : text) :
  lines_of (x ++ newline :: y) = lines_of x ++ lines_of y.
Proof.
  induction x as [|c x IH]; simpl.
  - reflexivity.
  - destruct (is_newline c); [by rewrite IH|].
    rewrite IH. by destruct (lines_of_cons x) as (l & r & ->).
Qed.

Lemma lines_of_line (l : text) :
  forallb not_newline l = true -> lines_of l = [l].
Proof.
  induction l as [|c l IH]; simpl; [reflexivity|].
  unfold not_newline at 1. intros [Hc Hl]%andb_true_iff.
  apply negb_true_iff in Hc. rewrite Hc. by rewrite IH.
Qed.

Lemma split_first_newline (u : text) :
  exists l b, u = l ++ b /\ forallb not_newline l = true /\ line_end b.
Proof.
  induction u as [|c u (l & b & -> & L & B)].
  - exists [], []. repeat split. by left.
  - destruct (is_newline c) eqn:Hc.
    + apply is_newline_true in Hc. subst c.
      exists [], (newline :: l ++ b). repeat split. right. by eexists.
    + exists (c :: l), b. repeat split; [|exact B].
      simpl. unfold not_newline at 1. by rewrite Hc.
Qed.

Lemma split_last_newline (p : text) :
  exists a l, p = a ++ l /\ forallb not_newline l = true /\ line_start a.
Proof.
  induction p as [|c p (a & l & -> & L & A)].
  - exists [], []. repeat split. by left.
  - destruct A as [->|[a' ->]].
    + destruct (is_newline c) eqn:Hc.
      * apply is_newline_true in Hc. subst c.
        exists [newline], l. repeat split; [exact L|]. right. by exists [].
      * exists [], (c :: l). repeat split; [|by left].
        simpl. unfold not_newline at 1. by rewrite Hc.
    + exists (c :: a' ++ [newline]), l. repeat split; [exact L|].
      right. by exists (c :: a').
Qed.

Lemma app_prefix_cases {A} (w y l b : list A) :
  w ++ y = l ++ b ->
  (exists z, l = w ++ z /\ y = z ++ b) \/ (exists z, w = l ++ z /\ b = z ++ y).
Proof.
  revert l. induction w as [|c w IH]; intros l E.
  - left. by exists l.
  - destruct l as [|d l].
    + right. by exists (c :: w).
    + injection E as -> E. destruct (IH l E) as [[z [-> ->]]|[z [-> ->]]].
      * left. by exists z.
      * right. by exists z.
Qed.

(** A text without a line break that starts at a place in a line stays
    in that line. *)
Lemma stays_in_line (x y l b : text) :
  x ++ y = l ++ b -> forallb not_newline x = true -> line_end b ->
  exists z, l = x ++ z /\ y = z ++ b.
Proof.
  intros E X B. destruct (app_prefix_cases _ _ _ _ E) as [H|[z [-> ->]]];
    [exact H|].
  destruct z as [|c z].
  - exists []. by rewrite !app_nil_r.
  - exfalso. destruct B as [B|[b' B]]; [discriminate|].
    injection B as -> _. by rewrite not_newline_app in X.
Qed.

Lemma space_run_unique (w w' x x' : text) c c' :
  w ++ x = w' ++ x' ->
  forallb is_space w = true -> forallb is_space w' = true ->
  head x = Some c -> is_space c = false ->
  head x' = Some c' -> is_space c' = false ->
  w = w' /\ x = x'.
Proof.
  intros E W W' Hx Hc Hx' Hc'. revert w' E W'.
  induction w as [|a w IH]; intros [|a' w'] E W'; simpl in *.
  - done.
  - subst x. simpl in Hx. injection Hx as <-.
    apply andb_true_iff in W' as [? _]. congruence.
  - subst x'. simpl in Hx'. injection Hx' as <-.
    apply andb_true_iff in W as [? _]. congruence.
  - injection E as <- E. apply andb_true_iff in W as [_ W].
    apply andb_true_iff in W' as [_ W'].
    destruct (IH W w' E W') as [-> ->]. done.
Qed.

Lemma forallb_app_l {A} (p : A -> bool) (l k : list A) :
  forallb p (l ++ k) = true -> forallb p l = true.
Proof. rewrite forallb_app. by intros [? _]%andb_true_iff. Qed.

Lemma space_not_newline_free (w : text) :
  forallb is_space w = true ->
  forallb not_newline w = true \/ exists w1 w2, w = w1 ++ newline :: w2.
Proof.
  induction w as [|c w IH]; simpl; [by left|].
  intros [Hc W]%andb_true_iff. destruct (is_newline c) eqn:N.
  - right. apply is_newline_true in N. subst c. by exists [], w.
  - destruct (IH W) as [H|(w1 & w2 & ->)].
    + left. unfold not_newline at 1. by rewrite N.
    + right. by exists (c :: w1), w2.
Qed.

Lemma search_found (r : regex) (p u t : text) pos :
  plain r = true -> In t (rests r u) ->
  found (search_from r pos (p ++ u)) = true.
Proof.
  intros Hp Ht. revert pos. induction p as [|c p IH]; intros pos.
  - simpl app. destruct u as [|d u]; cbn [search_from];
      rewrite match_at_plain by done;
      (destruct (rests r _) as [|t0 ts]; [destruct Ht | reflexivity]).
  - cbn [app search_from]. destruct (match_at r pos _); [reflexivity|].
    apply IH.
Qed.

Lemma dangling_after_name (l1 z : text) :
  forallb is_space z = true ->
  dangling_line (l1 ++ str "execution" ++ z) = true.
Proof.
  intros Z. unfold dangling_line, re_search.
  apply (search_found _ _ _ []); [reflexivity|].
  unfold dangling_pattern. cbn [seqs].
  eapply in_rests_seq_2; [done | apply in_rests_lit_app|].
  eapply in_rests_seq_2; [done | |].
  { apply in_rests_greedy. exists z. by rewrite app_nil_r. }
  eapply in_rests_seq_2; [done | |].
  { rewrite rests_alt. apply in_app_iff. right. by left. }
  by left.
Qed.

Lemma dangling_after_equals (l1 w1 z : text) :
  forallb is_space w1 = true -> forallb is_space z = true ->
  dangling_line (l1 ++ str "execution" ++ w1 ++ str "=" ++ z) = true.
Proof.
  intros W Z. unfold dangling_line, re_search.
  apply (search_found _ _ _ []); [reflexivity|].
  unfold dangling_pattern. cbn [seqs].
  eapply in_rests_seq_2; [done | apply in_rests_lit_app|].
  eapply in_rests_seq_2; [done | by apply in_rests_greedy_app|].
  eapply in_rests_seq_2; [done | |].
  { rewrite rests_alt. apply in_app_iff. left.
    eapply in_rests_seq_2; [done | apply in_rests_lit_app|].
    apply in_rests_greedy. exists z. by rewrite app_nil_r. }
  by left.
Qed.

(** An invocation that starts in a line without a dangling head lies in
    that line, up to the white space that ends it. *)
Lemma invocation_in_line (l1 l2 b t : text) :
  forallb not_newline l2 = true -> line_end b ->
  dangling_line (l1 ++ l2) = false ->
  invocation (l2 ++ b) t ->
  exists core z y,
    l2 = core ++ z /\ invocation_core core /\ forallb is_space z = true /\
    b = y ++ t /\ forallb is_space y = true /\
    (t = [] \/ t = [newline] \/ exists y', y = y' ++ [newline]).
Proof.
  intros L B D (w1 & w2 & u & E & W1 & W2 & a & w3 & A & W3 & C).
  symmetry in E.
  apply stays_in_line in E as (z1 & -> & E); [|done|done].
  apply forallb_app_r in L as L1.
  apply app_prefix_cases in E as [(z2 & -> & E)|(z' & -> & _)].
  2:{ apply forallb_app_l in W1.
      by rewrite (dangling_after_name l1 z1 W1) in D. }
  apply forallb_app_r in L1 as L2.
  apply stays_in_line in E as (z3 & -> & E); [|done|done].
  apply forallb_app_r in L2 as L3.
  apply app_prefix_cases in E as [(z4 & -> & E)|(z' & -> & _)].
  2:{ apply forallb_app_l in W2.
      by rewrite (dangling_after_equals l1 w1 z3 W1 W2) in D. }
  apply forallb_app_r in L3 as L4.
  assert (exists r, u = a ++ str ")" ++ w3 ++ r /\
            (r = newline :: t \/ (r = t /\ (t = [] \/ t = [newline]))))
    as (r & -> & R).
  { destruct C as [-> | [-> C]]; eexists; (split; [reflexivity|]);
      [by left | by right]. }
  assert ((str "tool.execute(" ++ a ++ str ")") ++ w3 ++ r = z4 ++ b) as E'.
  { rewrite <- E. by rewrite <- !app_assoc. }
  apply stays_in_line in E' as (z5 & -> & E');
    [|by rewrite !forallb_app, A|done].
  apply forallb_app_r in L4 as L5.
  exists (str "execution" ++ w1 ++ str "=" ++ w2 ++ str "tool.execute("
          ++ a ++ str ")"), z5.
  assert (forallb is_space z5 = true /\
          exists y, b = y ++ t /\ forallb is_space y = true /\
            (t = [] \/ t = [newline] \/ exists y', y = y' ++ [newline]))
    as (Z & y & Eb & Y & T).
  { apply app_prefix_cases in E' as [(z6 & -> & E')|(z' & -> & ->)].
    - apply forallb_app_r in L5 as L6.
      assert (z6 = []) as ->.
      { destruct z6 as [|c z6]; [reflexivity|]. exfalso.
        destruct R as [->|[-> [->| ->]]]; try discriminate;
          injection E' as <- _; simpl in L6; discriminate. }
      rewrite app_nil_r. split; [exact W3|]. simpl in E'. subst b.
      destruct R as [->|[-> T]].
      + exists [newline]. repeat split. right. right. by exists [].
      + exists []. repeat split. destruct T; auto.
    - split; [by apply forallb_app_l in W3|].
      apply forallb_app_r in W3. destruct R as [->|[-> T]].
      + exists (z' ++ [newline]). split; [by rewrite <- app_assoc|].
        split; [by apply forallb_app_true|]. right. right. by exists z'.
      + exists z'. repeat split; [done|]. destruct T; auto. }
  exists y. split; [by rewrite <- !app_assoc|].
  split; [by exists w1, w2, a|]. by repeat split.
Qed.

(** ** The first match starts where the first invocation starts *)

Lemma rests_lazy_any_cons c (tl : text) :
  rests (StarL any_char) (c :: tl) = (c :: tl) :: rests (StarL any_char) tl.
Proof.
  unfold rests. cbn [enum m_pos m_rest m_grp star_lazy map].
  change (any_char c) with true. cbv iota. f_equal. apply star_lazy_rests.
Qed.

Lemma first_hit_cons c (tl : text) :
  first_hit (c :: tl) =
  match head (rests invocation_tail (c :: tl)) with
  | Some t => Some t
  | None => first_hit tl
  end.
Proof.
  unfold first_hit, split_pattern.
  rewrite !rests_seq by apply plain_invocation_tail.
  rewrite rests_lazy_any_cons. apply head_flat_map_cons.
Qed.

Lemma first_hit_first (s t : text) :
  first_hit s = Some t ->
  exists p u,
    s = p ++ u /\ invocation u t /\
    forall p' u' t', s = p' ++ u' -> length p' < length p ->
                     ~ invocation u' t'.
Proof.
  induction s as [|c tl IH]; [discriminate|].
  rewrite first_hit_cons.
  destruct (head (rests invocation_tail (c :: tl))) as [t0|] eqn:H.
  - intros [= ->]. exists [], (c :: tl). split; [reflexivity|].
    split; [by apply in_rests_tail, head_in|].
    intros p' u' t' _ L. simpl in L. lia.
  - intros (p & u & -> & I & M)%IH. exists (c :: p), u.
    split; [reflexivity|]. split; [exact I|].
    intros [|d p'] u' t' E L.
    + simpl in E. subst u'. intros X%in_rests_tail.
      apply head_none in H. by rewrite H in X.
    + injection E as <- E. apply (M p' u' t' E). simpl in L. lia.
Qed.

(** ** Invocation lines *)

Lemma in_lines_of (s l : text) :
  In l (lines_of s) ->
  exists a b, s = a ++ l ++ b /\ forallb not_newline l = true /\ line_end b.
Proof.
  remember (length s) as n eqn:N. revert s N.
  induction n as [n IH] using lt_wf_ind. intros s -> H.
  destruct (split_first_newline s) as (l0 & b & -> & L0 & B).
  destruct B as [->|[b' ->]].
  - rewrite app_nil_r, lines_of_line in H by done.
    destruct H as [<-|[]]. exists [], []. repeat split; [done | by left].
  - rewrite lines_of_app, lines_of_line in H by done.
    destruct H as [<-|H].
    + exists [], (newline :: b'). repeat split; [done|]. right. by eexists.
    + apply (IH (length b')) in H as (a & b & -> & L & B); [|rewrite length_app; simpl; lia|done].
      exists (l0 ++ newline :: a), b. split; [by rewrite <- app_assoc|].
      by split.
Qed.

Lemma invocation_line_iff (l : text) :
  invocation_line l = true <-> exists p u t, l = p ++ u /\ invocation u t.
Proof.
  rewrite invocation_line_hit. split.
  - destruct (first_hit l) as [t|] eqn:H; [|discriminate]. intros _.
    apply first_hit_some in H as (p & u & E & I). by exists p, u, t.
  - intros (p & u & t & E & I). destruct (first_hit l) eqn:H; [reflexivity|].
    rewrite first_hit_none in H. by destruct (H p u t E).
Qed.

(** An invocation that a line break follows stays one, whatever comes
    after the line break. *)
Lemma invocation_before_newline (u t z : text) :
  invocation u t -> exists t', invocation (u ++ newline :: z) t'.
Proof.
  intros (w1 & w2 & x & -> & W1 & W2 & a & w3 & A & W3 & C).
  destruct C as [->|[-> [->| ->]]].
  - exists (t ++ newline :: z).
    exists w1, w2, (a ++ str ")" ++ w3 ++ newline :: t ++ newline :: z).
    split; [by rewrite <- !app_assoc|]. repeat split; try done.
    exists a, w3. repeat split; try done. by left.
  - exists z. exists w1, w2, (a ++ str ")" ++ w3 ++ newline :: z).
    split; [by rewrite <- !app_assoc|]. repeat split; try done.
    exists a, w3. repeat split; try done. by left.
  - exists (newline :: z).
    exists w1, w2, (a ++ str ")" ++ w3 ++ newline :: newline :: z).
    split; [by rewrite <- !app_assoc|]. repeat split; try done.
    exists a, w3. repeat split; try done. by left.
Qed.

Lemma invocation_before_end (u t b : text) :
  invocation u t -> line_end b -> exists t', invocation (u ++ b) t'.
Proof.
  intros I [->|[b' ->]].
  - exists t. by rewrite app_nil_r.
  - by apply invocation_before_newline with (t := t).
Qed.

(** A command with an invocation line holds an invocation. *)
Lemma invocation_line_in_text (s l : text) :
  In l (lines_of s) -> invocation_line l = true ->
  exists p u t, s = p ++ u /\ invocation u t.
Proof.
  intros (a & b & -> & L & B)%in_lines_of (p & u & t & -> & I)%invocation_line_iff.
  destruct (invocation_before_end u t b I B) as [t' I'].
  exists (a ++ p), (u ++ b), t'. split; [by rewrite <- !app_assoc | exact I'].
Qed.

Lemma invocation_lines_pos (s : text) :
  invocation_lines s <> 0 ->
  exists l, In l (lines_of s) /\ invocation_line l = true.
Proof.
  unfold invocation_lines. intros H.
  destruct (filter _ (lines_of s)) as [|l r] eqn:F; [done|].
  assert (l ∈ filter (fun l => invocation_line l = true) (lines_of s)) as X.
  { rewrite F. by left. }
  apply list_elem_of_filter in X as [X1 X2]. exists l.
  split; [by apply list_elem_of_In | exact X1].
Qed.

Lemma invocation_lines_none (s : text) :
  first_hit s = None -> invocation_lines s = 0.
Proof.
  intros H. destruct (invocation_lines s) eqn:K; [reflexivity|]. exfalso.
  destruct (invocation_lines_pos s) as (l & Hl & I); [lia|].
  destruct (invocation_line_in_text s l Hl I) as (p & u & t & E & X).
  rewrite first_hit_none in H. by destruct (H p u t E).
Qed.

Lemma invocation_not_blank (p u t : text) :
  invocation u t -> forallb is_space (p ++ u) = false.
Proof.
  intros (w1 & w2 & x & -> & _). rewrite forallb_app. simpl.
  apply andb_false_r.
Qed.

Lemma first_hit_blank (y : text) :
  forallb is_space y = true -> first_hit y = None.
Proof.
  intros Y. apply first_hit_none. intros p u t -> I.
  by rewrite (invocation_not_blank p u t I) in Y.
Qed.

Lemma invocation_lines_blank (y : text) :
  forallb is_space y = true -> invocation_lines y = 0.
Proof. intros Y. by apply invocation_lines_none, first_hit_blank. Qed.

Lemma invocation_lines_app (x y : text) :
  invocation_lines (x ++ newline :: y) = invocation_lines x + invocation_lines y.
Proof.
  unfold invocation_lines. by rewrite lines_of_app, filter_app, length_app.
Qed.

Lemma no_dangling_line_app (x y : text) :
  no_dangling_line (x ++ newline :: y)
  = no_dangling_line x && no_dangling_line y.
Proof. unfold no_dangling_line. by rewrite lines_of_app, forallb_app. Qed.

Lemma lines_around (a l b : text) :
  line_start a -> forallb not_newline l = true -> line_end b ->
  exists la lb,
    lines_of a = la ++ [[]] /\ lines_of b = [] :: lb /\
    lines_of (a ++ l ++ b) = la ++ l :: lb.
Proof.
  intros A L B.
  assert (exists lb, lines_of b = [] :: lb /\ lines_of (l ++ b) = l :: lb)
    as (lb & Eb & Elb).
  { destruct B as [->|[b' ->]].
    - exists []. rewrite app_nil_r. split; [reflexivity|].
      by apply lines_of_line.
    - exists (lines_of b'). split; [apply (lines_of_app [] b')|].
      rewrite (lines_of_app l b'). by rewrite (lines_of_line l L). }
  destruct A as [->|[a' ->]].
  - exists [], lb. by repeat split.
  - exists (lines_of a'), lb. rewrite lines_of_app. split; [reflexivity|].
    split; [exact Eb|]. rewrite <- app_assoc. simpl.
    by rewrite lines_of_app, Elb.
Qed.

Lemma invocation_line_nil : invocation_line [] = false.
Proof. reflexivity. Qed.

Lemma dangling_line_nil : dangling_line [] = false.
Proof. reflexivity. Qed.

Lemma invocation_lines_around (a l b : text) :
  line_start a -> forallb not_newline l = true -> line_end b ->
  invocation_line l = true ->
  invocation_lines (a ++ l ++ b)
  = invocation_lines a + S (invocation_lines b).
Proof.
  intros A L B I. destruct (lines_around a l b A L B) as (la & lb & Ea & Eb & E).
  unfold invocation_lines. rewrite E, Ea, Eb, !filter_app, !length_app.
  rewrite (filter_cons_True _ l) by done.
  rewrite !filter_cons_False by (by rewrite invocation_line_nil).
  simpl. lia.
Qed.

Lemma no_dangling_around (a l b : text) :
  line_start a -> forallb not_newline l = true -> line_end b ->
  no_dangling_line (a ++ l ++ b) = true ->
  dangling_line l = false /\ no_dangling_line b = true.
Proof.
  intros A L B. destruct (lines_around a l b A L B) as (la & lb & Ea & Eb & E).
  unfold no_dangling_line. rewrite E, Eb, forallb_app. simpl.
  intros [_ [Hl Hb]%andb_true_iff]%andb_true_iff.
  by apply negb_true_iff in Hl.
Qed.

Lemma snoc_cases {A} (l : list A) : l = [] \/ exists l' x, l = l' ++ [x].
Proof.
  induction l as [|x l' _] using rev_ind; [by left | right; by eexists _, _].
Qed.

Lemma invocation_ends_newline (u t rest : text) :
  invocation u t -> last u = Some newline ->
  exists t', invocation (u ++ rest) t'.
Proof.
  intros (w1 & w2 & x & -> & W1 & W2 & a & w3 & A & W3 & C) E.
  destruct C as [->|[-> [->| ->]]].
  - exists (t ++ rest).
    exists w1, w2, (a ++ str ")" ++ w3 ++ newline :: t ++ rest).
    split; [by rewrite <- !app_assoc|]. repeat split; try done.
    exists a, w3. repeat split; try done. by left.
  - rewrite app_nil_r, !app_assoc in E.
    destruct (snoc_cases w3) as [->|(w3' & c & ->)].
    { rewrite app_nil_r, last_app in E. simpl in E. discriminate. }
    rewrite app_assoc, last_snoc in E. injection E as ->.
    apply forallb_app_l in W3. rename w3' into w3.
    exists rest. exists w1, w2, (a ++ str ")" ++ w3 ++ newline :: rest).
    split; [by rewrite <- !app_assoc|]. repeat split; try done.
    exists a, w3. repeat split; try done. by left.
  - exists rest. exists w1, w2, (a ++ str ")" ++ w3 ++ newline :: rest).
    split; [by rewrite <- !app_assoc|]. repeat split; try done.
    exists a, w3. repeat split; try done. by left.
Qed.

(** Past white space that ends with a line break, or up to the end of
    the command, the lines are those of what is left. *)
Lemma skip_blank (y t : text) :
  forallb is_space y = true ->
  t = [] \/ t = [newline] \/ (exists y', y = y' ++ [newline]) ->
  invocation_lines (y ++ t) = invocation_lines t /\
  (no_dangling_line (y ++ t) = true -> no_dangling_line t = true).
Proof.
  intros Y [->|[->|[y' ->]]].
  - split; [|reflexivity]. rewrite app_nil_r.
    by rewrite invocation_lines_blank.
  - split; [|reflexivity].
    rewrite invocation_lines_blank; [reflexivity|].
    by apply forallb_app_true.
  - apply forallb_app_l in Y. rewrite <- app_assoc. simpl.
    rewrite invocation_lines_app, no_dangling_line_app.
    rewrite (invocation_lines_blank y' Y). split; [reflexivity|].
    by intros [_ ?]%andb_true_iff.
Qed.

(** The first match ends on the first invocation line, with the white
    space after it. *)
Lemma first_hit_its_line (s t : text) :
  no_dangling_line s = true -> first_hit s = Some t ->
  exists a l y,
    s = a ++ l ++ y ++ t /\ line_start a /\ forallb not_newline l = true /\
    invocation_line l = true /\ invocation_lines a = 0 /\
    forallb is_space y = true /\ line_end (y ++ t) /\
    (t = [] \/ t = [newline] \/ exists y', y = y' ++ [newline]).
Proof.
  intros H (p & u & -> & I & M)%first_hit_first.
  destruct (split_last_newline p) as (a & l1 & -> & L1 & A).
  destruct (split_first_newline u) as (l2 & b & -> & L2 & B).
  assert ((a ++ l1) ++ l2 ++ b = a ++ (l1 ++ l2) ++ b) as E
    by (by rewrite <- !app_assoc).
  rewrite E in H.
  assert (forallb not_newline (l1 ++ l2) = true) as L
    by (by apply forallb_app_true).
  destruct (no_dangling_around _ _ _ A L B H) as [D Hb].
  destruct (invocation_in_line l1 l2 b t L2 B D I)
    as (core & z & y & -> & C & Z & -> & Y & T).
  exists a, (l1 ++ core ++ z), y.
  split; [by rewrite <- !app_assoc|]. split; [exact A|]. split; [exact L|].
  split.
  { apply invocation_line_iff. exists l1, (core ++ z), [].
    split; [reflexivity|]. apply invocation_nil_core. by exists core, z. }
  split; [|by repeat split].
  destruct (invocation_lines a) eqn:K; [reflexivity|]. exfalso.
  destruct (invocation_lines_pos a) as (l' & Hl' & I'); [lia|].
  destruct (invocation_line_in_text a l' Hl' I') as (p' & u' & t' & Ea & X).
  destruct A as [->|[a' ->]].
  { apply invocation_shorter in X. destruct p'; simpl in Ea; [|done].
    subst u'. simpl in X. lia. }
  assert (last u' = Some newline) as Lu.
  { pose proof (invocation_shorter _ _ X) as Lx.
    assert (last (p' ++ u') = Some newline) as Y' by (rewrite <- Ea; apply last_snoc).
    rewrite last_app in Y'. destruct (last u') eqn:Q; [exact Y'|].
    apply last_None in Q. subst u'. simpl in Lx. lia. }
  destruct (invocation_ends_newline u' t' (l1 ++ (core ++ z) ++ y ++ t) X Lu)
    as [t'' X'].
  apply (M p' (u' ++ l1 ++ (core ++ z) ++ y ++ t) t'').
  - rewrite Ea. by rewrite <- !app_assoc.
  - rewrite Ea, !length_app. apply invocation_shorter in X. lia.
  - exact X'.
Qed.

(** The first match ends the first invocation line, and what it leaves
    holds the other invocation lines. *)
Lemma first_hit_line (s t : text) :
  no_dangling_line s = true -> first_hit s = Some t ->
  invocation_lines s = S (invocation_lines t) /\ no_dangling_line t = true.
Proof.
  intros H F.
  destruct (first_hit_its_line s t H F)
    as (a & l & y & -> & A & L & I & Ka & Y & B & T).
  rewrite (invocation_lines_around _ _ _ A L B I), Ka.
  destruct (skip_blank y t Y T) as [-> Ht]. split; [reflexivity|].
  apply Ht. by destruct (no_dangling_around _ _ _ A L B H).
Qed.

(** As many matches as invocation lines. *)
Lemma findall_counts_lines (s : text) :
  no_dangling_line s = true ->
  length (re_findall split_pattern s) = invocation_lines s.
Proof.
  remember (length s) as n eqn:N. revert s N.
  induction n as [n IH] using lt_wf_ind. intros s -> H.
  rewrite findall_split. destruct (first_hit s) as [t|] eqn:F.
  - destruct (first_hit_line s t H F) as [-> Ht]. simpl. f_equal.
    apply (IH (length t)); [|reflexivity | exact Ht].
    destruct (first_hit_split _ _ F) as (m & -> & Lm & _).
    rewrite length_app. lia.
  - by rewrite invocation_lines_none.
Qed.

Lemma split_commands_length (s : text) :
  length (split_commands s) = length (re_findall split_pattern s).
Proof.
  destruct (findall_tiles s) as (raws & tail & _ & F & _).
  destruct (split_commands_tiles s) as (raws' & tail' & _ & S' & _).
  unfold split_commands in *. rewrite F in *.
  assert (filter (fun b => nonempty b = true) (map strip raws) = map strip raws)
    as ->; [|by rewrite length_map].
  destruct (findall_tiles s) as (r2 & t2 & _ & F2 & R2 & _).
  rewrite F in F2. subst r2.
  apply filter_nonempty_all, Forall_map. eapply Forall_impl; [exact R2|].
  intros raw (pre & core & -> & C & _)%strip_ends_with_invocation.
  destruct (invocation_core_ends _ C) as [_ Hl].
  destruct (pre ++ core) eqn:X; [|reflexivity].
  apply app_eq_nil in X as [_ ->]. discriminate.
Qed.

(** ** The final invocation line *)

Lemma split_commands_findall (s : text) :
  split_commands s = map strip (re_findall split_pattern s).
Proof.
  destruct (findall_tiles s) as (raws & tail & _ & F & R & _).
  unfold split_commands. rewrite F. apply filter_nonempty_all.
  apply Forall_map. eapply Forall_impl; [exact R|].
  intros raw (pre & core & -> & C & _)%strip_ends_with_invocation.
  destruct (invocation_core_ends _ C) as [_ Hl].
  destruct (pre ++ core) eqn:X; [|reflexivity].
  apply app_eq_nil in X as [_ ->]. discriminate.
Qed.

(** The matches of a command, one after the other, end on an invocation
    line with the white space after it, and no line after it is an
    invocation line. *)
Lemma pieces_end_on_a_line (s : text) :
  no_dangling_line s = true -> first_hit s <> None ->
  exists a l y tail,
    s = a ++ l ++ y ++ tail /\
    concat (re_findall split_pattern s) = a ++ l ++ y /\
    line_start a /\ forallb not_newline l = true /\
    invocation_line l = true /\ forallb is_space y = true /\
    line_end (y ++ tail) /\ invocation_lines (y ++ tail) = 0 /\
    first_hit tail = None.
Proof.
  remember (length s) as n eqn:N. revert s N.
  induction n as [n IH] using lt_wf_ind. intros s -> H F0.
  rewrite findall_split. destruct (first_hit s) as [t|] eqn:F; [|done].
  destruct (first_hit_line s t H F) as [_ Ht].
  destruct (first_hit_split _ _ F) as (m & Em & Lm & _).
  destruct (first_hit_its_line s t H F)
    as (a1 & l1 & y1 & E & A1 & L1 & I1 & _ & Y1 & B1 & T1).
  assert (take (length s - length t) s = a1 ++ l1 ++ y1) as ->.
  { rewrite E at 2.
    replace (length s - length t) with (length (a1 ++ l1 ++ y1))
      by (rewrite E, !length_app; lia).
    rewrite !app_assoc, <- (app_assoc a1 l1 y1). apply take_app_length. }
  destruct (first_hit t) as [t2|] eqn:F2.
  - destruct (IH (length t)) with (s := t)
      as (a & l & y & tail & Et & C & A & L & I & Y & B & K & Tl);
      [rewrite Em, length_app; lia | reflexivity | exact Ht | by rewrite F2 |].
    exists (a1 ++ l1 ++ y1 ++ a), l, y, tail.
    split; [rewrite E, Et at 1; by rewrite <- !app_assoc|].
    split; [cbn [concat]; rewrite C; by rewrite <- !app_assoc|].
    split; [|by repeat split].
    destruct A as [->|[a' ->]].
    + destruct T1 as [->|[->|[y' ->]]]; [done|done|].
      right. exists (a1 ++ l1 ++ y'). by rewrite app_nil_r, <- !app_assoc.
    + right. exists (a1 ++ l1 ++ y1 ++ a'). by rewrite <- !app_assoc.
  - exists a1, l1, y1, t.
    split; [exact E|].
    split; [rewrite findall_split, F2; cbn [concat]; by rewrite app_nil_r|].
    repeat split; try done.
    destruct (skip_blank y1 t Y1 T1) as [-> _]. by apply invocation_lines_none.
Qed.

(** No invocation line stands after the final one. *)
Lemma no_later_line (a l b z l' b' : text) :
  l ++ b = z ++ l' ++ b' -> z <> [] -> line_start (a ++ z) ->
  forallb not_newline l = true -> forallb not_newline l' = true ->
  line_end b' -> invocation_line l' = true -> invocation_lines b <> 0.
Proof.
  intros E Z A L L' B' I'.
  destruct (snoc_cases z) as [->|(z' & c & ->)]; [done|].
  assert (c = newline) as ->.
  { destruct A as [A|[a' A]].
    - by destruct a, z'.
    - rewrite app_assoc in A. by apply app_inj_tail in A as [_ ->]. }
  destruct (app_prefix_cases _ _ _ _ E) as [(k & Ek & Eb)|(k & -> & _)].
  - destruct (snoc_cases k) as [->|(k' & c & ->)].
    + rewrite app_nil_r in Ek. subst l. by rewrite not_newline_app in L.
    + rewrite app_assoc in Ek. apply app_inj_tail in Ek as [_ <-].
      subst b.
      rewrite (invocation_lines_around (k' ++ [newline]) l' b');
        [lia | right; by exists k' | done | done | done].
  - rewrite <- app_assoc in L. simpl in L. by rewrite not_newline_app in L.
Qed.

Lemma final_invocation_line_unique (s a l b a' l' b' : text) :
  final_invocation_line s a l b -> final_invocation_line s a' l' b' ->
  a = a' /\ l = l' /\ b = b'.
Proof.
  intros (E & A & L & B & I & K) (E' & A' & L' & B' & I' & K').
  rewrite E in E'.
  assert (a = a' /\ l ++ b = l' ++ b') as [<- Elb].
  { destruct (app_prefix_cases _ _ _ _ E') as [(z & -> & Ez)|(z & -> & Ez)].
    - destruct z as [|c z]; [by rewrite app_nil_r|]. exfalso.
      by apply (no_later_line a l b (c :: z) l' b' Ez).
    - destruct z as [|c z]; [by rewrite app_nil_r|]. exfalso.
      by apply (no_later_line a' l' b' (c :: z) l b Ez). }
  split; [reflexivity|].
  destruct (stays_in_line l b l' b' Elb L B') as (z & -> & ->).
  destruct z as [|c z]; [by rewrite app_nil_r|]. exfalso.
  destruct B as [B|[b0 B]]; [discriminate|]. injection B as -> _.
  by rewrite not_newline_app in L'.
Qed.

(** The pieces of a command end on its final invocation line, with the
    white space after it. *)
Lemma pieces_end_on_final_line (command a l b : text) :
  no_dangling_line command = true -> final_invocation_line command a l b ->
  exists y tail,
    b = y ++ tail /\ forallb is_space y = true /\
    concat (re_findall split_pattern command) = a ++ l ++ y /\
    first_hit tail = None.
Proof.
  intros H Fin. pose proof Fin as (E & A & L & B & I & K).
  destruct (pieces_end_on_a_line command H)
    as (a0 & l0 & y & tail & E0 & C & A0 & L0 & I0 & Y & B0 & K0 & T).
  { intros F%invocation_lines_none. rewrite E in F.
    rewrite (invocation_lines_around _ _ _ A L B I) in F. lia. }
  destruct (final_invocation_line_unique command a l b a0 l0 (y ++ tail) Fin)
    as (-> & -> & ->); [by repeat split|].
  by exists y, tail.
Qed.

(** C10, as stated: of four lines the first is the only invocation line,
    yet the second and the third, after it, are a block of the
    splitter. *)
Lemma text_after_final_line_is_a_block :
  final_invocation_line
    (nls ["execution = tool.execute(1)"; "execution ="; "tool.execute(2)";
          "print(3)"])
    [] (str "execution = tool.execute(1)")
    (newline :: nls ["execution ="; "tool.execute(2)"; "print(3)"]) /\
  split_commands
    (nls ["execution = tool.execute(1)"; "execution ="; "tool.execute(2)";
          "print(3)"])
  = [str "execution = tool.execute(1)";
     nls ["execution ="; "tool.execute(2)"]].
Proof.
  split; [|vm_compute; reflexivity].
  split; [reflexivity|]. split; [by left|]. split; [reflexivity|].
  split; [right; by eexists|]. split; vm_compute; reflexivity.
Qed.

(** C10, amended: the pieces that give the blocks end with the last match
    of the invocation pattern; the text after it holds no match, is in no
    block, and the coordinator runs the blocks and nothing else; and in a
    command of which no line ends in [execution] or [execution =], the
    pieces end with the final invocation line and white space after it:
    apart from that white space, which the blocks do not keep, the text
    after the final invocation line is the text after the last match. *)
Theorem text_after_last_invocation (command : text) :
  exists raws tail,
    command = concat raws ++ tail /\
    split_commands command = map strip raws /\
    Forall ends_with_invocation raws /\
    re_search split_pattern tail = None /\
    split_commands tail = [] /\
    (forall rt self tool_name w,
       execute_tool_command rt self tool_name command w =
       match make_tool rt self tool_name w with
       | (Raise e, w1) => on_exception e w1
       | (Ok tool, w1) =>
           match run_blocks rt self tool (map strip raws) [] w1 with
           | (Raise e, w2) => on_exception e w2
           | (Ok l, w2) => (Ok (inl l), w2)
           end
       end) /\
    (no_dangling_line command = true ->
     forall a l b,
       final_invocation_line command a l b ->
       exists y,
         b = y ++ tail /\ forallb is_space y = true /\
         concat raws = a ++ l ++ y).
Proof.
  destruct (findall_tiles command) as (raws & tail & E & F & R & T).
  exists raws, tail.
  assert (split_commands command = map strip raws) as S
    by (by rewrite split_commands_findall, F).
  split; [exact E|]. split; [exact S|]. split; [exact R|].
  split; [by apply re_search_split_none|].
  split; [by apply split_commands_none|]. split.
  - intros rt self tool_name w. rewrite execute_tool_command_eq. by rewrite S.
  - intros H a l b Fin.
    destruct (pieces_end_on_final_line command a l b H Fin)
      as (y & tail' & -> & Y & C & _).
    rewrite F in C. exists y. split; [|by split]. f_equal.
    destruct Fin as (Ec & _). rewrite E in Ec. rewrite C in Ec.
    rewrite <- !app_assoc in Ec. by repeat apply app_inv_head in Ec.
Qed.

Lemma text_after_last_invocation_witness :
  exists raws y tail,
    split_commands
      (nls ["x = 1"; "execution = tool.execute(a=x)  "; ""; "print(3)"])
    = map strip raws /\
    concat raws
    = (str "x = 1" ++ [newline]) ++ str "execution = tool.execute(a=x)  " ++ y /\
    forallb is_space y = true /\
    newline :: nls [""; "print(3)"] = y ++ tail /\
    split_commands tail = [].
Proof.
  destruct (text_after_last_invocation
              (nls ["x = 1"; "execution = tool.execute(a=x)  "; "";
                    "print(3)"]))
    as (raws & tail & E & S & _ & _ & N & _ & Fin).
  destruct (Fin eq_refl (str "x = 1" ++ [newline])
              (str "execution = tool.execute(a=x)  ")
              (newline :: nls [""; "print(3)"])) as (y & Eb & Y & C).
  { split; [reflexivity|]. split; [right; by exists (str "x = 1")|].
    split; [reflexivity|]. split; [right; by eexists|].
    split; vm_compute; reflexivity. }
  exists raws, y, tail. by repeat split.
Defined.

(** ** A block holds one invocation, at its end *)

Lemma closes_on_line (x t : text) :
  closes x t -> forallb not_newline x = true -> t = [].
Proof.
  intros (a & w3 & _ & _ & C) L.
  destruct C as [->|[-> [->| ->]]]; [|reflexivity|].
  - rewrite !app_assoc in L. by rewrite not_newline_app in L.
  - rewrite !app_assoc in L.
    change [newline] with ([] ++ newline :: []) in L.
    rewrite app_assoc in L. by rewrite not_newline_app in L.
Qed.

Lemma invocation_core_alone (core t : text) :
  invocation_core core -> invocation core t -> t = [].
Proof.
  intros (w1 & w2 & a & -> & W1 & W2 & A) (v1 & v2 & x & E & V1 & V2 & C).
  apply app_inv_head in E.
  apply (space_run_unique _ _ _ _ "="%char "="%char) in E as [<- E];
    try done.
  apply (app_inv_head (str "=")) in E.
  apply (space_run_unique _ _ _ _ "t"%char "t"%char) in E as [<- E];
    try done.
  apply app_inv_head in E. subst x.
  apply (closes_on_line _ _ C). by rewrite forallb_app, A.
Qed.

Lemma invocation_ends_match (u t : text) :
  invocation u t ->
  exists core w, u = core ++ w ++ t /\ invocation_core core /\ ends_match w t.
Proof.
  intros (w1 & w2 & x & -> & W1 & W2 & a & w3 & A & W3 & C).
  exists (str "execution" ++ w1 ++ str "=" ++ w2 ++ str "tool.execute("
          ++ a ++ str ")").
  destruct C as [->|[-> C]].
  - exists (w3 ++ [newline]). split; [by rewrite <- !app_assoc|].
    split; [by exists w1, w2, a|]. split; [by apply forallb_app_true|].
    left. by exists w3.
  - exists w3. split; [by rewrite <- !app_assoc|].
    split; [by exists w1, w2, a|]. split; [exact W3 | by right].
Qed.

Lemma invocation_core_then (core w t : text) :
  invocation_core core -> ends_match w t -> invocation (core ++ w ++ t) t.
Proof.
  intros (w1 & w2 & a & -> & W1 & W2 & A) [W E].
  exists w1, w2, (a ++ str ")" ++ w ++ t).
  split; [by rewrite <- !app_assoc|]. repeat split; try done.
  destruct E as [[w' ->]|E].
  - exists a, w'. apply forallb_app_l in W. repeat split; try done.
    left. by rewrite <- !app_assoc.
  - exists a, w. repeat split; try done. by right.
Qed.

(** An invocation that reaches the closing parenthesis at the end of a
    text is an invocation in every command that goes on as a match
    ends. *)
Lemma invocation_transfer (ub tb w t : text) :
  invocation ub tb -> last ub = Some ")"%char -> ends_match w t ->
  exists t', invocation (ub ++ w ++ t) t'.
Proof.
  intros (core & v & -> & C & [V E])%invocation_ends_match Hl M.
  destruct E as [[v' ->]|[-> | ->]].
  - exists (tb ++ w ++ t).
    replace ((core ++ (v' ++ [newline]) ++ tb) ++ w ++ t)
      with (core ++ (v' ++ [newline]) ++ tb ++ w ++ t)
      by (by rewrite <- !app_assoc).
    apply invocation_core_then; [exact C|]. split; [exact V|].
    left. by exists v'.
  - rewrite app_nil_r in Hl |- *.
    destruct (snoc_cases v) as [->|(v' & c & ->)].
    + rewrite app_nil_r. exists t. by apply invocation_core_then.
    + rewrite app_assoc, last_snoc in Hl. injection Hl as ->.
      apply forallb_app_r in V. discriminate.
  - rewrite !app_assoc, last_snoc in Hl. discriminate.
Qed.

Lemma findall_pieces (s m : text) :
  In m (re_findall split_pattern s) -> exists t, first_hit (m ++ t) = Some t.
Proof.
  remember (length s) as n eqn:N. revert s N.
  induction n as [n IH] using lt_wf_ind. intros s ->.
  rewrite findall_split. destruct (first_hit s) as [t|] eqn:F; [|intros []].
  destruct (first_hit_split _ _ F) as (m0 & E & L & _).
  intros [<-|H].
  - exists t. rewrite E at 1. rewrite E, length_app.
    replace (length m0 + length t - length t) with (length m0) by lia.
    rewrite take_app_length. by rewrite <- E.
  - apply (IH (length t)) with (s := t); [|reflexivity|exact H].
    rewrite E, length_app. lia.
Qed.

Lemma piece_resplits (m t : text) :
  first_hit (m ++ t) = Some t -> split_commands (strip m) = [strip m].
Proof.
  intros (p & u & E & I & M)%first_hit_first.
  destruct (invocation_ends_match _ _ I) as (core & w & -> & C & W).
  assert (m = p ++ core ++ w) as ->.
  { apply (app_inv_tail t). by rewrite E, <- !app_assoc. }
  clear E. rewrite (strip_piece p core w C (proj1 W)).
  destruct (lstrip_by_suffix is_space p) as (ws0 & Ep & _).
  set (p' := lstrip_by is_space p) in *.
  destruct (invocation_core_ends _ C) as [_ Hl].
  assert (invocation core []) as I0.
  { apply invocation_nil_core. exists core, []. by rewrite app_nil_r. }
  assert (first_hit (p' ++ core) = Some []) as F.
  { destruct (first_hit (p' ++ core)) as [tb|] eqn:F.
    2:{ rewrite first_hit_none in F. by destruct (F p' core [] eq_refl). }
    f_equal. pose proof F as (pb & ub & Eb & Ib & Mb)%first_hit_first.
    destruct (app_prefix_cases _ _ _ _ Eb) as [(r & -> & Ec)|(r & Er & ->)].
    - destruct r as [|c r].
      + simpl in Ec. subst ub. by apply (invocation_core_alone core).
      + exfalso. apply (Mb p' core [] eq_refl); [|exact I0].
        rewrite length_app. simpl. lia.
    - rewrite Er in *. clear Er. destruct r as [|c r].
      + rewrite app_nil_l in Ib. by apply (invocation_core_alone core).
      + exfalso.
        destruct (invocation_transfer _ _ w t Ib) as [t' I']; [|exact W|].
        { by rewrite last_app, Hl. }
        apply (M (ws0 ++ pb) (((c :: r) ++ core) ++ w ++ t) t').
        * rewrite Ep. by rewrite <- !app_assoc.
        * rewrite Ep, !length_app. simpl. lia.
        * exact I'. }
  unfold split_commands. rewrite findall_split, F, findall_split.
  assert (first_hit [] = None) as -> by reflexivity.
  simpl length. rewrite Nat.sub_0_r, firstn_all. simpl map.
  assert (strip (p' ++ core) = p' ++ core) as ->.
  { pose proof (strip_piece p' core [] C eq_refl) as S'.
    rewrite app_nil_r in S'. rewrite S'. unfold p'.
    by rewrite lstrip_by_idem. }
  apply filter_nonempty_all. constructor; [|constructor].
  destruct (p' ++ core) eqn:X; [|reflexivity].
  apply app_eq_nil in X as [_ ->]. discriminate.
Qed.

Lemma block_resplits (command b : text) :
  In b (split_commands command) -> split_commands b = [b].
Proof.
  unfold split_commands at 1. intros H.
  apply list_elem_of_In, list_elem_of_filter in H as [_ H].
  apply list_elem_of_In, in_map_iff in H as (m & <- & H).
  apply findall_pieces in H as [t H]. by apply piece_resplits in H.
Qed.

(** C1, as stated, at an assignment whose right side is on the next
    line: no line of the command matches the invocation pattern, with
    [tool] or with any other identifier, and yet the splitter returns a
    block, because the white space around [=] may hold a line break. *)
Lemma assignment_on_two_lines_is_a_block :
  spec_invocation_lines assignment_on_two_lines = 0 /\
  invocation_lines assignment_on_two_lines = 0 /\
  split_commands assignment_on_two_lines = [assignment_on_two_lines].
Proof. vm_compute. repeat split. Qed.

(** The pattern of the splitter names [tool]: an invocation of another
    object is no block. *)
Lemma other_object_is_no_block :
  spec_invocation_lines other_object = 1 /\ split_commands other_object = [].
Proof. vm_compute. split; reflexivity. Qed.

(** C1, amended: in a command of which no line ends in [execution] or
    [execution =], the splitter returns as many blocks as there are lines
    on which [execution = tool.execute(...)] matches, the closing
    parenthesis being the last character of the line but for white
    space; with no such line it returns no block, and the coordinator,
    the tool once ready, returns the empty list and not an error. In
    every command a block holds one invocation, at its end: it ends with
    the closing parenthesis of an invocation and, split again, gives
    itself and nothing more. *)
Theorem invocation_lines_give_blocks (command : text) :
  (no_dangling_line command = true ->
   length (split_commands command) = invocation_lines command /\
   (invocation_lines command = 0 ->
    split_commands command = [] /\
    forall rt self tool_name w tool w1,
      make_tool rt self tool_name w = (Ok tool, w1) ->
      execute_tool_command rt self tool_name command w = (Ok (inl []), w1))) /\
  (forall b,
     In b (split_commands command) ->
     split_commands b = [b] /\
     exists pre core, b = pre ++ core /\ invocation_core core).
Proof.
  split.
  - intros H.
    assert (length (split_commands command) = invocation_lines command) as L.
    { by rewrite split_commands_length, findall_counts_lines. }
    split; [exact L|]. intros K. rewrite K in L.
    assert (split_commands command = []) as E by (by apply nil_length_inv).
    split; [exact E|]. intros rt self tool_name w tool w1 Mk.
    by rewrite execute_tool_command_eq, Mk, E.
  - intros b Hb. split; [by apply (block_resplits command)|].
    destruct (split_commands_tiles command) as (raws & tail & _ & S & R & _).
    rewrite S in Hb. apply in_map_iff in Hb as (raw & <- & Hr).
    rewrite Forall_forall in R.
    assert (ends_with_invocation raw) as X.
    { apply R. by apply list_elem_of_In. }
    apply strip_ends_with_invocation in X as (pre & core & E & C & _).
    by exists pre, core.
Qed.

Lemma invocation_lines_give_blocks_witness :
  no_dangling_line two_invocations = true /\
  invocation_lines two_invocations = 2 /\
  length (split_commands two_invocations) = 2.
Proof.
  assert (no_dangling_line two_invocations = true) as H
    by (vm_compute; reflexivity).
  split; [exact H|].
  destruct (proj1 (invocation_lines_give_blocks two_invocations) H) as [L _].
  split; [|rewrite L]; vm_compute; reflexivity.
Defined.

(** * Further properties *)

(** ** What [normalize_code] removes *)

Lemma strip_pad (l a r : text) :
  forallb is_space l = true -> forallb is_space r = true ->
  strip (l ++ a ++ r) = strip a.
Proof.
  intros L R. unfold strip. rewrite lstrip_by_all by exact L.
  destruct (lstrip_by_suffix is_space a) as (m & E & M).
  destruct (lstrip_by is_space a) as [|c t] eqn:La.
  - rewrite app_nil_r in E. subst m.
    replace (a ++ r) with ((a ++ r) ++ []) by apply app_nil_r.
    rewrite lstrip_by_all; [reflexivity|]. by apply forallb_app_true.
  - pose proof (lstrip_by_head _ _ _ _ La) as Hc.
    rewrite E at 1. rewrite <- app_assoc, lstrip_by_all by exact M.
    assert (lstrip_by is_space ((c :: t) ++ r) = (c :: t) ++ r) as ->.
    { simpl. by rewrite Hc. }
    by apply rstrip_by_app_all.
Qed.

Lemma backticks_only (ticks : text) :
  forallb (fun c => existsb (chr_eqb c) (str "```")) ticks = true ->
  forallb (fun c => chr_eqb c backtick) ticks = true.
Proof.
  rewrite !forallb_forall. intros H c Hc. specialize (H c Hc).
  simpl in H. unfold backtick. by destruct (chr_eqb c "`").
Qed.

(** X1: [normalize_code] takes nothing from the middle of the code: the code
    is the opening fence, if it starts with it, then white space, the
    normalized code, white space again and backticks; and the normalized
    code neither starts nor ends with white space. *)
Theorem normalize_code_removes_ends (code : text) :
  exists ws1 ws2 ticks,
    code = (if starts_with fence_open code then fence_open else [])
           ++ ws1 ++ normalize_code code ++ ws2 ++ ticks /\
    forallb is_space ws1 = true /\ forallb is_space ws2 = true /\
    forallb (fun c => chr_eqb c backtick) ticks = true /\
    stripped (normalize_code code).
Proof.
  rewrite normalize_code_eq.
  set (y := if starts_with fence_open code
            then lstrip_by is_space (drop 9 code) else code).
  assert (exists wsA, code = (if starts_with fence_open code
                              then fence_open else []) ++ wsA ++ y /\
                      forallb is_space wsA = true) as (wsA & Ec & WA).
  { subst y. destruct (starts_with fence_open code) eqn:Hs.
    - apply starts_with_drop in Hs. change (length fence_open) with 9 in Hs.
      destruct (lstrip_by_suffix is_space (drop 9 code)) as (m & E & M).
      exists m. split; [|exact M]. rewrite Hs at 1. by rewrite E at 1.
    - by exists []. }
  destruct (rstrip_by_prefix (fun c => existsb (chr_eqb c) (str "```")) y)
    as (ticks & Et & T).
  fold (rstrip_backticks y) in Et. set (z := rstrip_backticks y) in *.
  destruct (lstrip_by_suffix is_space z) as (wsB & Ez & WB).
  destruct (rstrip_by_prefix is_space (lstrip_by is_space z))
    as (ws2 & E2 & W2).
  fold (strip z) in E2.
  exists (wsA ++ wsB), ws2, ticks. split; [|repeat split].
  - rewrite Ec at 1. f_equal. rewrite Et at 1. rewrite Ez at 1.
    rewrite E2 at 1. by rewrite <- !app_assoc.
  - by apply forallb_app_true.
  - exact W2.
  - by apply backticks_only.
  - apply strip_stripped.
  - apply strip_stripped.
Qed.

Lemma lstrip_by_keep p (s : text) c :
  head s = Some c -> p c = false -> lstrip_by p s = s.
Proof. intros H Hc. apply lstrip_by_fixed. destruct s; by simplify_eq/=. Qed.

Lemma last_space_no_backtick (b ws : text) :
  forallb is_space ws = true -> last b <> Some backtick ->
  match last (b ++ ws) with
  | Some c => existsb (chr_eqb c) (str "```") = false
  | None => True
  end.
Proof.
  intros W Hb. destruct (snoc_cases ws) as [->|(ws' & c & ->)].
  - rewrite app_nil_r. destruct (last b) as [c|]; [|exact I].
    simpl. destruct (chr_eqb c "`") eqn:Hc; [|reflexivity].
    apply chr_eqb_eq in Hc. by subst c.
  - rewrite app_assoc, last_snoc. apply forallb_app_r in W. simpl in W.
    destruct (is_space c) eqn:Hc; [|discriminate].
    simpl. destruct (chr_eqb c "`") eqn:Hq; [|reflexivity].
    apply chr_eqb_eq in Hq. by subst c.
Qed.

(** X2: a body between the opening fence and the closing one, each with
    white space around, comes back as it is, provided it neither starts or
    ends with white space nor ends with a backtick. *)
Theorem normalize_code_unwraps (ws1 body ws2 : text) :
  forallb is_space ws1 = true -> forallb is_space ws2 = true ->
  stripped body -> last body <> Some backtick ->
  normalize_code (fence_open ++ ws1 ++ body ++ ws2 ++ fence_close) = body.
Proof.
  intros W1 W2 [Hh Hl] Hb. rewrite normalize_code_eq, starts_with_app.
  change 9 with (length fence_open). rewrite drop_app_length.
  rewrite lstrip_by_all by exact W1.
  destruct body as [|c body].
  - simpl app. rewrite lstrip_by_all by exact W2. by vm_compute.
  - simpl in Hh.
    rewrite (lstrip_by_keep _ _ c) by done.
    rewrite (app_assoc (c :: body)). unfold rstrip_backticks.
    rewrite rstrip_by_app_all by reflexivity.
    assert (rstrip_by (fun c0 => existsb (chr_eqb c0) (str "```"))
              ((c :: body) ++ ws2) = (c :: body) ++ ws2) as ->.
    { apply rstrip_by_fixed. by apply last_space_no_backtick. }
    etransitivity; [exact (strip_pad [] (c :: body) ws2 eq_refl W2)|].
    apply strip_fixed. by split.
Qed.

Lemma normalize_code_unwraps_witness :
  normalize_code (fence_open ++ [newline] ++ str "x = 1" ++ [newline]
                  ++ fence_close) = str "x = 1".
Proof.
  apply (normalize_code_unwraps [newline] (str "x = 1") [newline]);
    [reflexivity | reflexivity | by split | discriminate].
Defined.

Lemma rstrip_by_app_keep p (x d : text) c :
  last x = Some c -> p c = false ->
  rstrip_by p (x ++ d) = x ++ rstrip_by p d.
Proof.
  intros L Hc. unfold rstrip_by.
  rewrite reverse_app, (lstrip_by_app_stop _ _ _ c), reverse_app,
    reverse_involutive; [reflexivity| |exact Hc].
  by rewrite head_reverse.
Qed.

Lemma lstrip_by_all_nil p (w : text) :
  forallb p w = true -> lstrip_by p w = [].
Proof.
  intros W. rewrite <- (app_nil_r w). by rewrite lstrip_by_all.
Qed.

(** What is left of a text without the white space at its end is at
    least as long as what [normalize_code] leaves of the text. *)
Lemma strip_backticks_shorter (d : text) :
  length (strip (rstrip_backticks (lstrip_by is_space d)))
  <= length (rstrip_by is_space d).
Proof.
  destruct (rstrip_by_prefix is_space d) as (w & Ed & W).
  set (r := rstrip_by is_space d) in *.
  destruct w as [|c0 w0].
  { rewrite app_nil_r in Ed. rewrite <- Ed.
    etransitivity; [apply strip_length|].
    etransitivity; [apply rstrip_by_length | apply lstrip_by_length]. }
  destruct (lstrip_by_suffix is_space r) as (m & Er & M).
  destruct (lstrip_by is_space r) as [|c X] eqn:Lr.
  - rewrite app_nil_r in Er. rewrite Ed, Er, lstrip_by_all_nil; [simpl; lia|].
    by apply forallb_app_true.
  - pose proof (lstrip_by_head _ _ _ _ Lr) as Hc.
    assert (lstrip_by is_space d = (c :: X) ++ c0 :: w0) as ->.
    { rewrite Ed, Er, <- app_assoc, lstrip_by_all by exact M.
      simpl. by rewrite Hc. }
    assert (rstrip_backticks ((c :: X) ++ c0 :: w0) = (c :: X) ++ c0 :: w0)
      as ->.
    { apply rstrip_by_fixed.
      destruct (snoc_cases (c0 :: w0)) as [?|(w' & z & Ew)]; [done|].
      rewrite Ew, app_assoc, last_snoc. rewrite Ew in W.
      apply forallb_app_r in W. simpl in W.
      destruct (is_space z) eqn:Hz; [|discriminate].
      simpl. destruct (chr_eqb z "`") eqn:Hq; [|reflexivity].
      apply chr_eqb_eq in Hq. by subst z. }
    unfold strip. rewrite (lstrip_by_keep _ _ c) by done.
    rewrite rstrip_by_app_all by exact W.
    etransitivity; [apply rstrip_by_length|].
    rewrite Er, length_app. lia.
Qed.

Lemma normalize_code_shorter_fenced (code : text) :
  starts_with fence_open code = true ->
  length (normalize_code code) < length (strip code).
Proof.
  intros Hs. rewrite normalize_code_eq, Hs.
  apply starts_with_drop in Hs. change (length fence_open) with 9 in Hs.
  set (d := drop 9 code) in *. rewrite Hs. unfold strip at 2.
  rewrite (lstrip_by_keep is_space (fence_open ++ d) "`"%char eq_refl eq_refl).
  rewrite (rstrip_by_app_keep is_space fence_open d "n"%char eq_refl eq_refl).
  rewrite length_app. pose proof (strip_backticks_shorter d).
  change (length fence_open) with 9. lia.
Qed.

Lemma normalize_code_shorter_ticked (code : text) :
  starts_with fence_open code = false -> last code = Some backtick ->
  length (normalize_code code) < length (strip code).
Proof.
  intros Hs Hl. rewrite normalize_code_eq, Hs.
  destruct (rstrip_by_prefix (fun c => existsb (chr_eqb c) (str "```")) code)
    as (ticks & E & T).
  fold (rstrip_backticks code) in E. set (z := rstrip_backticks code) in *.
  destruct ticks as [|t ticks].
  { exfalso. rewrite app_nil_r in E.
    assert (rstrip_backticks code = code) as F by exact (eq_sym E).
    apply rstrip_by_fixed in F. rewrite Hl in F. discriminate. }
  assert (is_space t = false) as Ht.
  { simpl in T. apply andb_true_iff in T as [T _].
    destruct (chr_eqb t "`") eqn:Hq; [|discriminate].
    apply chr_eqb_eq in Hq. by subst t. }
  assert (strip code = lstrip_by is_space z ++ t :: ticks) as ->.
  { unfold strip.
    assert (lstrip_by is_space code = lstrip_by is_space z ++ t :: ticks)
      as ->.
    { rewrite E at 1. by apply (lstrip_by_app_stop _ _ _ t). }
    apply rstrip_by_fixed. rewrite last_app.
    assert (last (t :: ticks) = Some backtick) as ->.
    { clearbody z. rewrite E, last_app in Hl.
      destruct (last (t :: ticks)) eqn:L; [exact Hl|].
      rewrite last_cons in L. by destruct (last ticks). }
    reflexivity. }
  rewrite length_app. simpl.
  pose proof (rstrip_by_length is_space (lstrip_by is_space z)).
  unfold strip. lia.
Qed.

(** X3: [normalize_code] is plain trimming exactly on the code that neither
    starts with the opening fence nor ends with a backtick. *)
Theorem normalize_code_plain (code : text) :
  normalize_code code = strip code <->
  starts_with fence_open code = false /\ last code <> Some backtick.
Proof.
  split.
  - intros E. apply (f_equal length) in E. split.
    + destruct (starts_with fence_open code) eqn:Hs; [|reflexivity].
      pose proof (normalize_code_shorter_fenced code Hs). lia.
    + intros Hl.
      destruct (starts_with fence_open code) eqn:Hs.
      * pose proof (normalize_code_shorter_fenced code Hs). lia.
      * pose proof (normalize_code_shorter_ticked code Hs Hl). lia.
  - intros [Hs Hl]. rewrite normalize_code_eq, Hs. unfold rstrip_backticks.
    f_equal. apply rstrip_by_fixed.
    pose proof (last_space_no_backtick code [] eq_refl Hl) as H.
    by rewrite app_nil_r in H.
Qed.

Lemma normalize_code_plain_witness :
  normalize_code (str "  x = `a`  ") = str "x = `a`".
Proof.
  apply (proj2 (normalize_code_plain (str "  x = `a`  "))).
  split; [reflexivity | discriminate].
Defined.

(** ** What the parser gives back *)

Lemma extract_free_text decode (s : text) :
  decode s = None ->
  extract_explanation_and_command decode (RText s)
  = Ok (field_or (between analysis_marker (str "Command Explanation") s)
                 no_analysis,
        field_or (between explanation_marker (str "Generated Command") s)
                 no_explanation,
        normalize_code (field_or (fenced s) no_command)).
Proof.
  intros D. unfold extract_explanation_and_command. rewrite D.
  rewrite (group1_strip_or_eq _ _ _
             (search_between analysis_marker (str "Command Explanation") s)).
  rewrite (group1_strip_or_eq _ _ _
             (search_between explanation_marker (str "Generated Command") s)).
  rewrite (group1_strip_or_eq _ _ _ (search_fenced s)).
  reflexivity.
Qed.

Lemma field_or_stripped (o : option text) (fallback : text) :
  stripped fallback -> stripped (field_or o fallback).
Proof. intros H. destruct o; [apply strip_stripped | exact H]. Qed.

(** X4: whatever the response, a text or a [ToolCommand], and whatever the
    decoding of a text gives, the parser raises nothing and returns three
    fields that neither start nor end with white space. *)
Theorem extract_returns_trimmed_fields decode (resp : response) :
  exists a e c,
    extract_explanation_and_command decode resp = Ok (a, e, c) /\
    stripped a /\ stripped e /\ stripped c.
Proof.
  assert (forall t, exists a e c,
            extract_explanation_and_command decode (RCommand t) = Ok (a, e, c)
            /\ stripped a /\ stripped e /\ stripped c) as HC.
  { intros t. eexists _, _, _. split; [reflexivity|].
    repeat split; apply strip_stripped. }
  destruct resp as [s|t]; [|apply HC].
  destruct (decode s) as [t|] eqn:D.
  - rewrite (extract_decoded _ _ _ D). apply HC.
  - rewrite (extract_free_text _ _ D). eexists _, _, _.
    split; [reflexivity|]. split; [|split].
    + apply field_or_stripped. by split.
    + apply field_or_stripped. by split.
    + apply strip_stripped.
Qed.

(** ** Occurrences of a word *)

Lemma starts_none_app (w x1 x2 : text) :
  starts_none w x1 -> starts_none w x2 -> starts_none w (x1 ++ x2).
Proof.
  intros H1 H2 j y Hj. rewrite <- app_assoc.
  destruct (decide (j < length x1)) as [L|L].
  - by apply H1.
  - rewrite drop_app_ge by lia. apply H2. rewrite length_app in Hj. lia.
Qed.

Lemma starts_none_head h (w x : text) :
  forallb (fun c => negb (chr_eqb c h)) x = true -> starts_none (h :: w) x.
Proof.
  intros H. induction x as [|c x IH]; intros j y Hj; [simpl in Hj; lia|].
  simpl in H. apply andb_true_iff in H as [Hc H].
  destruct j as [|j].
  - simpl. by destruct (chr_eqb c h).
  - simpl. apply IH; [exact H | simpl in Hj; lia].
Qed.

Lemma starts_none_sealed (w a : text) sep :
  find_sub w a = None -> w <> [] ->
  forallb (fun c => negb (chr_eqb c sep)) w = true ->
  starts_none w (a ++ [sep]).
Proof.
  intros F N S j y Hj. rewrite length_app in Hj. simpl in Hj.
  destruct (starts_with w (drop j ((a ++ [sep]) ++ y))) eqn:Hs; [|reflexivity].
  exfalso. apply starts_with_iff in Hs as [t E].
  rewrite <- app_assoc, drop_app_le in E by lia. simpl in E.
  symmetry in E.
  assert (starts_with w (drop j a) = true -> False) as No.
  { intros Hw. apply find_sub_first in Hw as (i & Hi & _). congruence. }
  destruct (app_prefix_cases _ _ _ _ E) as [(z & Ez & _)|(z & Ez & Eb)].
  - apply No, starts_with_iff. by exists z.
  - destruct z as [|c z].
    + rewrite app_nil_r in Ez. apply No, starts_with_iff. exists [].
      by rewrite app_nil_r.
    + simpl in Eb. injection Eb as <- _. rewrite Ez in S.
      rewrite forallb_app in S. simpl in S. rewrite chr_eqb_refl in S.
      simpl in S. by rewrite andb_false_r in S.
Qed.

(** A word whose first character does not come back in it cannot start
    inside [x] and end inside a copy of itself that follows [x], when it
    does not occur in [x]. *)
Lemma no_straddle h (w' x y : text) :
  find_sub (h :: w') x = None ->
  forallb (fun c => negb (chr_eqb c h)) w' = true ->
  forall j, j < length x ->
            starts_with (h :: w') (drop j (x ++ (h :: w') ++ y)) = false.
Proof.
  intros F U j Hj.
  destruct (starts_with (h :: w') (drop j (x ++ (h :: w') ++ y))) eqn:Hs;
    [|reflexivity].
  exfalso. apply starts_with_iff in Hs as [t E].
  rewrite drop_app_le in E by lia. symmetry in E.
  assert (starts_with (h :: w') (drop j x) = true -> False) as No.
  { intros Hw. apply find_sub_first in Hw as (i & Hi & _). congruence. }
  destruct (app_prefix_cases _ _ _ _ E) as [(z & Ez & _)|(z & Ez & Eb)].
  - apply No, starts_with_iff. by exists z.
  - destruct z as [|c z].
    + rewrite app_nil_r in Ez. apply No, starts_with_iff. exists [].
      by rewrite app_nil_r.
    + simpl in Eb. injection Eb as <- _.
      destruct (drop j x) as [|d ds] eqn:D.
      * apply (f_equal length) in D. rewrite length_drop in D. simpl in D. lia.
      * simpl in Ez. injection Ez as _ ->.
        rewrite forallb_app in U. simpl in U. rewrite chr_eqb_refl in U.
        simpl in U. by rewrite andb_false_r in U.
Qed.

Lemma find_sub_at (w x y : text) :
  (forall j, j < length x -> starts_with w (drop j (x ++ w ++ y)) = false) ->
  find_sub w (x ++ w ++ y) = Some (length x).
Proof.
  induction x as [|c x IH]; intros H.
  - simpl. apply find_sub_here, starts_with_app.
  - simpl app. rewrite find_sub_cons.
    2:{ apply (H 0). simpl. lia. }
    rewrite IH; [reflexivity|].
    intros j Hj. apply (H (S j)). simpl. lia.
Qed.

Lemma find_sub_after (w x y : text) :
  starts_none w x -> find_sub w (x ++ w ++ y) = Some (length x).
Proof. intros H. apply find_sub_at. intros j Hj. by apply H. Qed.

Lemma between_at (pre m1 body m2 post : text) :
  find_sub m1 (pre ++ m1 ++ body ++ m2 ++ post) = Some (length pre) ->
  starts_none m2 body ->
  between m1 m2 (pre ++ m1 ++ body ++ m2 ++ post) = Some body.
Proof.
  intros H1 H2. unfold between. rewrite H1.
  rewrite <- drop_drop, drop_app_length, drop_app_length.
  rewrite (find_sub_after _ _ _ H2). by rewrite take_app_length.
Qed.

Lemma fenced_at (pre mid body post : text) :
  find_sub command_marker
    (pre ++ command_marker ++ mid ++ fence_python ++ body ++ fence_close
     ++ post) = Some (length pre) ->
  starts_none fence_python mid -> starts_none fence_close body ->
  fenced (pre ++ command_marker ++ mid ++ fence_python ++ body
          ++ fence_close ++ post) = Some body.
Proof.
  intros H1 H2 H3. unfold fenced. rewrite H1.
  rewrite <- drop_drop, drop_app_length, drop_app_length.
  apply between_at; [|exact H3]. by apply find_sub_after.
Qed.

Lemma sealed_by_newline (w a : text) :
  find_sub w a = None -> w <> [] -> forallb not_newline w = true ->
  starts_none w (a ++ [newline]).
Proof.
  intros F N W. apply starts_none_sealed; [exact F | exact N|].
  exact W.
Qed.

(** Both sides of an equation between texts, written out. *)
Ltac flatten_text :=
  repeat first [progress rewrite <- app_assoc | progress simpl].

(** The sections of an answer in the structure that the prompt of
    [generate_tool_command] asks for. *)
Lemma output_format_fields (pre a e c post : text) :
  find_sub analysis_marker pre = None ->
  find_sub explanation_marker pre = None ->
  find_sub command_marker pre = None ->
  find_sub (str "Command Explanation") a = None ->
  find_sub (str "Generated Command") a = None ->
  find_sub (str "Generated Command") e = None ->
  find_sub fence_close c = None ->
  between analysis_marker (str "Command Explanation")
    (pre ++ output_format a e c ++ post)
  = Some (str " " ++ a ++ [newline]) /\
  between explanation_marker (str "Generated Command")
    (pre ++ output_format a e c ++ post)
  = Some (str " " ++ e ++ [newline]) /\
  fenced (pre ++ output_format a e c ++ post) = Some (c ++ [newline]).
Proof.
  intros P1 P2 P3 A1 A2 E2 C3.
  assert (forall h w, find_sub (h :: w) pre = None ->
                      find_sub (h :: w) a = None ->
                      forallb (fun x => negb (chr_eqb x "A")) (h :: w) = true ->
                      forallb not_newline (h :: w) = true ->
                      forallb (fun x => negb (chr_eqb x h)) (str "nalysis: ")
                      = true ->
                      starts_none (h :: w)
                        (pre ++ str "Analysis: " ++ a ++ [newline]))
    as Pre.
  { intros h w F Fa W N Hh.
    replace (pre ++ str "Analysis: " ++ a ++ [newline])
      with ((pre ++ ["A"%char]) ++ str "nalysis: " ++ a ++ [newline])
      by (by rewrite <- app_assoc).
    apply starts_none_app; [by apply starts_none_sealed|].
    apply starts_none_app; [by apply starts_none_head|].
    by apply sealed_by_newline. }
  split; [|split].
  { replace (pre ++ output_format a e c ++ post)
      with (pre ++ analysis_marker ++ (str " " ++ a ++ [newline])
            ++ str "Command Explanation"
            ++ (str ": " ++ e ++ newline :: str "Generated Command:"
                ++ newline :: str "```python" ++ newline :: c
                ++ newline :: str "```" ++ post))
      by (unfold output_format; flatten_text; reflexivity).
    apply between_at.
    - apply find_sub_at. intros j Hj.
      by apply (no_straddle "A"%char (str "nalysis:") pre).
    - apply (starts_none_app _ [" "%char] (a ++ [newline])).
      + by apply starts_none_head.
      + by apply sealed_by_newline. }
  { replace (pre ++ output_format a e c ++ post)
      with ((pre ++ str "Analysis: " ++ a ++ [newline])
            ++ explanation_marker ++ (str " " ++ e ++ [newline])
            ++ str "Generated Command"
            ++ (str ":" ++ newline :: str "```python" ++ newline :: c
                ++ newline :: str "```" ++ post))
      by (unfold output_format; flatten_text; reflexivity).
    apply between_at.
    - apply find_sub_after, Pre; try done.
      by apply (find_sub_longer (str "Command Explanation") (str ":")).
    - apply (starts_none_app _ [" "%char] (e ++ [newline])).
      + by apply starts_none_head.
      + by apply sealed_by_newline. }
  { replace (pre ++ output_format a e c ++ post)
      with (((pre ++ str "Analysis: " ++ a ++ [newline])
             ++ str "Command Explanation: " ++ e ++ [newline])
            ++ command_marker ++ [newline] ++ fence_python
            ++ (c ++ [newline]) ++ fence_close ++ post)
      by (unfold output_format; flatten_text; reflexivity).
    apply fenced_at.
    - apply find_sub_after, starts_none_app.
      { apply Pre; try done.
        by apply (find_sub_longer (str "Generated Command") (str ":")). }
      apply (starts_none_app _ (str "Command Explanation: ")).
      { by apply starts_none_head. }
      apply sealed_by_newline; [|done|done].
      by apply (find_sub_longer (str "Generated Command") (str ":")).
    - by apply starts_none_head.
    - by apply sealed_by_newline. }
Qed.

Lemma strip_line (x : text) : strip (str " " ++ x ++ [newline]) = strip x.
Proof. by apply strip_pad. Qed.

Lemma strip_line_end (x : text) : strip (x ++ [newline]) = strip x.
Proof. exact (strip_pad [] x [newline] eq_refl eq_refl). Qed.

(** X5: an answer in the structure that the prompt of
    [generate_tool_command] asks for, after any text that holds none of the
    three markers and before any text at all, gives its three fields back,
    the analysis and the explanation trimmed and the command trimmed and
    normalized, provided the analysis holds neither [Command Explanation]
    nor [Generated Command], the explanation does not hold [Generated
    Command], and the command holds no closing fence. *)
Theorem extract_output_format decode (pre a e c post : text) :
  decode (pre ++ output_format a e c ++ post) = None ->
  find_sub analysis_marker pre = None ->
  find_sub explanation_marker pre = None ->
  find_sub command_marker pre = None ->
  find_sub (str "Command Explanation") a = None ->
  find_sub (str "Generated Command") a = None ->
  find_sub (str "Generated Command") e = None ->
  find_sub fence_close c = None ->
  extract_explanation_and_command decode
    (RText (pre ++ output_format a e c ++ post))
  = Ok (strip a, strip e, normalize_code (strip c)).
Proof.
  intros D P1 P2 P3 A1 A2 E2 C3. rewrite (extract_free_text _ _ D).
  destruct (output_format_fields pre a e c post P1 P2 P3 A1 A2 E2 C3)
    as (-> & -> & ->).
  unfold field_or. by rewrite !strip_line, strip_line_end.
Qed.

Lemma extract_output_format_witness :
  extract_explanation_and_command (fun _ => None)
    (RText ((str "Here is the command." ++ [newline])
            ++ output_format (str "look at it ") (str "call the tool")
                             (str "execution = tool.execute(x=1)")
            ++ newline :: str "Run it with care."))
  = Ok (str "look at it", str "call the tool",
        str "execution = tool.execute(x=1)").
Proof.
  rewrite (extract_output_format (fun _ => None)
             (str "Here is the command." ++ [newline])
             (str "look at it ") (str "call the tool")
             (str "execution = tool.execute(x=1)")
             (newline :: str "Run it with care."));
    reflexivity.
Defined.

(** ** What a field of a free-text response never holds *)

Lemma find_sub_infix (w l x r : text) :
  find_sub w (l ++ x ++ r) = None -> find_sub w x = None.
Proof.
  intros H. destruct (find_sub w x) as [i|] eqn:F; [|reflexivity].
  exfalso. pose proof (find_sub_some _ _ _ F) as [[t E]%starts_with_iff _].
  assert (i <= length x) as Li.
  { destruct (decide (i <= length x)); [done|].
    rewrite drop_ge in E by lia. symmetry in E.
    apply app_eq_nil in E as [-> _]. destruct x; simpl in F; simplify_eq; lia. }
  destruct (find_sub_first w (l ++ x ++ r) (length l + i)) as (k & K & _);
    [|congruence].
  apply starts_with_iff. exists (t ++ r).
  rewrite <- drop_drop, drop_app_length, drop_app_le, E by exact Li.
  by rewrite <- app_assoc.
Qed.

Lemma find_sub_before (w t : text) (j : nat) :
  find_sub w t = Some j -> w <> [] -> find_sub w (take j t) = None.
Proof.
  intros F N. destruct (find_sub w (take j t)) as [i|] eqn:G; [|reflexivity].
  exfalso. apply find_sub_some in F as [_ Min].
  pose proof (find_sub_some _ _ _ G) as [[u E]%starts_with_iff _].
  assert (i < j) as Lt.
  { destruct (decide (i < j)); [done|]. rewrite drop_ge in E.
    - symmetry in E. by apply app_eq_nil in E as [? _].
    - rewrite length_take. lia. }
  specialize (Min i Lt).
  assert (starts_with w (drop i t) = true); [|congruence].
  apply starts_with_iff. exists (u ++ drop j t).
  rewrite <- (take_drop j t) at 1.
  rewrite drop_app_le, E.
  - by rewrite <- app_assoc.
  - rewrite length_take.
    destruct (decide (i <= length t)); [lia|].
    rewrite drop_ge in E by (rewrite length_take; lia).
    symmetry in E. by apply app_eq_nil in E as [? _].
Qed.

Lemma between_holds_no_end (m1 m2 s g : text) :
  between m1 m2 s = Some g -> m2 <> [] -> find_sub m2 g = None.
Proof.
  unfold between. intros H N.
  destruct (find_sub m1 s) as [i|]; [|discriminate].
  destruct (find_sub m2 (drop (i + length m1) s)) as [j|] eqn:F;
    [|discriminate].
  injection H as <-. by apply find_sub_before.
Qed.

Lemma strip_infix (g : text) : exists l r, g = l ++ strip g ++ r.
Proof.
  destruct (lstrip_by_suffix is_space g) as (l & E & _).
  destruct (rstrip_by_prefix is_space (lstrip_by is_space g)) as (r & R & _).
  exists l, r. rewrite E at 1. by rewrite R at 1.
Qed.

Lemma normalize_code_infix (code : text) :
  exists l r, code = l ++ normalize_code code ++ r.
Proof.
  rewrite normalize_code_eq.
  set (y := if starts_with fence_open code
            then lstrip_by is_space (drop 9 code) else code).
  assert (exists l0, code = l0 ++ y) as [l0 E0].
  { subst y. destruct (starts_with fence_open code) eqn:Hs; [|by exists []].
    apply starts_with_drop in Hs. change (length fence_open) with 9 in Hs.
    destruct (lstrip_by_suffix is_space (drop 9 code)) as (m & E & _).
    exists (fence_open ++ m). rewrite Hs at 1. rewrite E at 1.
    by rewrite <- app_assoc. }
  destruct (rstrip_by_prefix (fun c => existsb (chr_eqb c) (str "```")) y)
    as (ticks & Et & _).
  fold (rstrip_backticks y) in Et.
  destruct (strip_infix (rstrip_backticks y)) as (l & r & E).
  exists (l0 ++ l), (r ++ ticks). rewrite E0 at 1. rewrite Et at 1.
  rewrite E at 1. by rewrite <- !app_assoc.
Qed.

Lemma field_or_holds_no (w : text) (o : option text) (fallback : text) :
  (forall g, o = Some g -> find_sub w g = None) ->
  find_sub w fallback = None ->
  find_sub w (field_or o fallback) = None.
Proof.
  intros H F. destruct o as [g|]; [|exact F]. simpl.
  destruct (strip_infix g) as (l & r & E).
  apply (find_sub_infix w l _ r). rewrite <- E. by apply H.
Qed.

(** X6: in a free-text response every field stops before the text that ends
    its section: the analysis never holds [Command Explanation], the
    explanation never holds [Generated Command], and the command never holds
    a closing fence. *)
Theorem fields_stop_at_their_markers decode (s a e c : text) :
  decode s = None ->
  extract_explanation_and_command decode (RText s) = Ok (a, e, c) ->
  find_sub (str "Command Explanation") a = None /\
  find_sub (str "Generated Command") e = None /\
  find_sub fence_close c = None.
Proof.
  intros D. rewrite (extract_free_text _ _ D). intros [= <- <- <-].
  split; [|split].
  - apply field_or_holds_no; [|reflexivity].
    intros g G. by apply between_holds_no_end in G.
  - apply field_or_holds_no; [|reflexivity].
    intros g G. by apply between_holds_no_end in G.
  - destruct (normalize_code_infix (field_or (fenced s) no_command))
      as (l & r & E).
    apply (find_sub_infix _ l _ r). rewrite <- E.
    apply field_or_holds_no; [|reflexivity].
    intros g G. unfold fenced in G.
    destruct (find_sub command_marker s); [|discriminate].
    by apply between_holds_no_end in G.
Qed.

Lemma fields_stop_at_their_markers_witness :
  find_sub (str "Command Explanation") (str "look") = None /\
  find_sub (str "Generated Command") (str "call it") = None /\
  find_sub fence_close (str "execution = tool.execute(x=1)") = None.
Proof.
  apply (fields_stop_at_their_markers (fun _ => None) full_response);
    reflexivity.
Defined.

(** ** Commands put together *)

Lemma first_hit_space c (tl : text) :
  is_space c = true -> first_hit (c :: tl) = first_hit tl.
Proof.
  intros Hc. rewrite first_hit_cons.
  destruct (head (rests invocation_tail (c :: tl))) as [t|] eqn:H;
    [|reflexivity].
  apply head_in, in_rests_tail in H as (w1 & w2 & u & E & _).
  simpl in E. injection E as -> _. discriminate.
Qed.

Lemma first_hit_spaces (ws t : text) :
  forallb is_space ws = true -> first_hit (ws ++ t) = first_hit t.
Proof.
  induction ws as [|c ws IH]; [reflexivity|]. simpl.
  intros [Hc H]%andb_true_iff. rewrite first_hit_space by exact Hc. auto.
Qed.

Lemma strip_spaces_left (ws m : text) :
  forallb is_space ws = true -> strip (ws ++ m) = strip m.
Proof.
  intros W. pose proof (strip_pad ws m [] W eq_refl) as H.
  by rewrite app_nil_r in H.
Qed.

(** White space in front of a command changes no block. *)
Lemma split_commands_spaces (ws t : text) :
  forallb is_space ws = true -> split_commands (ws ++ t) = split_commands t.
Proof.
  intros W. unfold split_commands.
  rewrite (findall_split (ws ++ t)), (findall_split t), first_hit_spaces
    by exact W.
  destruct (first_hit t) as [t'|] eqn:F; [|reflexivity].
  destruct (first_hit_split _ _ F) as (m & -> & _).
  rewrite app_assoc, !length_app.
  replace (length ws + length m + length t' - length t')
    with (length (ws ++ m)) by (rewrite length_app; lia).
  replace (length m + length t' - length t') with (length m) by lia.
  rewrite !take_app_length. simpl map.
  by rewrite strip_spaces_left.
Qed.

Lemma spaces_without c (w : text) :
  is_space c = false -> forallb is_space w = true ->
  forallb (fun x => negb (chr_eqb x c)) w = true.
Proof.
  intros Hc. rewrite !forallb_forall. intros H x Hx. specialize (H x Hx).
  destruct (chr_eqb x c) eqn:E; [|reflexivity].
  apply chr_eqb_eq in E. congruence.
Qed.

Lemma last_not_space (x w : text) c :
  forallb is_space w = true -> last (x ++ w) = Some c -> is_space c = false ->
  w = [].
Proof.
  intros W L Hc. destruct (snoc_cases w) as [->|(w' & d & ->)]; [reflexivity|].
  rewrite app_assoc, last_snoc in L. injection L as ->.
  apply forallb_app_r in W. simpl in W. rewrite Hc in W. discriminate.
Qed.

(** In an invocation no line ends with a closing parenthesis before the
    last one. *)
Lemma core_no_break (x z : text) :
  invocation_core (x ++ ")"%char :: newline :: z) -> False.
Proof.
  intros (w1 & w2 & a & E & W1 & W2 & A).
  set (H := str "execution" ++ w1 ++ str "=" ++ w2 ++ str "tool.execute(").
  assert (forallb (fun c => negb (chr_eqb c ")")) H = true) as HH.
  { unfold H. repeat apply forallb_app_true; try reflexivity;
      by apply spaces_without. }
  assert (forall u v, a ++ str ")" = u ++ newline :: v -> False) as NT.
  { intros u v Eq.
    assert (forallb not_newline (a ++ str ")") = true) as N
      by (by apply forallb_app_true).
    rewrite Eq, not_newline_app in N. discriminate. }
  assert (x ++ ")"%char :: newline :: z = H ++ a ++ str ")") as E'.
  { rewrite E. unfold H. by rewrite <- !app_assoc. }
  destruct (app_prefix_cases _ _ _ _ E') as [(z1 & E1 & E2)|(z1 & E1 & E2)].
  - destruct z1 as [|c z1].
    + simpl in E2. apply (NT [")"%char] z). symmetry. exact E2.
    + simpl in E2. injection E2 as <- E2. rewrite E1 in HH.
      rewrite forallb_app in HH. simpl in HH.
      by rewrite andb_false_r in HH.
  - apply (NT (z1 ++ [")"%char]) z). rewrite E2. by rewrite <- app_assoc.
Qed.

(** A text that is its own and only block: an invocation up to its
    closing parenthesis at the end, and no invocation that starts
    before it. *)
Lemma block_form (b : text) :
  split_commands b = [b] ->
  exists p core,
    b = p ++ core /\ invocation_core core /\
    lstrip_by is_space p = p /\
    forall p' u' t', b = p' ++ u' -> length p' < length p ->
                     ~ invocation u' t'.
Proof.
  intros H.
  destruct (split_commands_in_turn b) as (raws & tail & E & S & _ & T).
  rewrite H in S. destruct raws as [|raw [|? ?]]; try discriminate.
  simpl in S. injection S as S. simpl in E, T. rewrite app_nil_r in E.
  pose proof (strip_length raw) as L. rewrite <- S in L.
  assert (tail = []) as ->.
  { apply (f_equal length) in E. rewrite length_app in E.
    destruct tail; [reflexivity | simpl in E; lia]. }
  rewrite app_nil_r in E. subst raw. destruct T as [F _].
  rewrite !app_nil_r in F.
  destruct (first_hit_first _ _ F) as (p & u & Eb & I & M).
  destruct (invocation_ends_match _ _ I) as (core & w & -> & C & W).
  rewrite app_nil_r in Eb.
  assert (w = []) as ->.
  { pose proof (strip_piece p core w C (proj1 W)) as P.
    rewrite <- Eb, <- S in P. apply (f_equal length) in P.
    rewrite Eb, !length_app in P.
    pose proof (lstrip_by_length is_space p).
    destruct w; [reflexivity | simpl in P; lia]. }
  rewrite app_nil_r in Eb. exists p, core. repeat split; try done.
  pose proof (strip_piece p core [] C eq_refl) as P.
  rewrite app_nil_r, <- Eb, <- S, Eb in P. symmetry in P.
  by apply app_inv_tail in P.
Qed.

Lemma core_then_spaces (core' z : text) :
  invocation_core core' -> forallb is_space z = true ->
  invocation (core' ++ z) [].
Proof.
  intros C Z. apply invocation_nil_core. by exists core', z.
Qed.

(** After a block and a line break, the first match is the block with
    the white space that follows it. *)
Lemma first_hit_after_block (p core y t' : text) :
  invocation_core core ->
  (forall p' u' t', p ++ core = p' ++ u' -> length p' < length p ->
                    ~ invocation u' t') ->
  first_hit ((p ++ core) ++ newline :: y) = Some t' ->
  exists w', newline :: y = w' ++ t' /\ ends_match w' t'.
Proof.
  intros C Mb F. destruct (invocation_core_ends _ C) as [_ Hl].
  destruct (first_hit_first _ _ F) as (p' & u' & E & I & M').
  assert (length p' = length p) as Lp.
  { destruct (decide (length p < length p')) as [Lt|Ge].
    { exfalso. apply (M' p (core ++ [newline] ++ y) y).
      - by rewrite <- app_assoc.
      - exact Lt.
      - apply invocation_core_then; [exact C|]. split; [reflexivity|].
        left. by exists []. }
    destruct (decide (length p' < length p)) as [Lt|Ge']; [|lia].
    exfalso. rewrite <- app_assoc in E. symmetry in E.
    destruct (app_prefix_cases _ _ _ _ E) as [(z & -> & Eu)|(z & -> & _)].
    2:{ rewrite length_app in Lt. lia. }
    destruct (invocation_ends_match _ _ I) as (core' & w' & -> & C' & W').
    assert (forall z1, z ++ core = core' ++ z1 ->
                       forallb is_space z1 = true -> False) as Inside.
    { intros z1 Ez Z1.
      assert (z1 = []) as ->.
      { apply (last_not_space core' z1 ")"); [exact Z1| |reflexivity].
        by rewrite <- Ez, last_app, Hl. }
      apply (Mb p' (core' ++ []) []).
      - by rewrite <- Ez, <- app_assoc.
      - exact Lt.
      - by apply core_then_spaces. }
    rewrite (app_assoc z core) in Eu.
    destruct (app_prefix_cases _ _ _ _ Eu) as [(z1 & Er & Ew)|(z1 & Ec & En)].
    - destruct (app_prefix_cases _ _ _ _ Ew) as [(z2 & -> & Et)|(z2 & Ez & _)].
      + destruct z2 as [|c z2].
        * rewrite app_nil_r in Er. apply (Inside w' Er (proj1 W')).
        * destruct W' as [W' [[w'' ->]|[->| ->]]]; try discriminate.
          2:{ destruct z2; discriminate. }
          apply (Mb p' (core' ++ (w'' ++ [newline]) ++ c :: z2) (c :: z2)).
          -- rewrite <- !app_assoc in Er |- *. simpl in Er |- *.
             by rewrite Er, <- !app_assoc.
          -- exact Lt.
          -- apply invocation_core_then; [exact C'|]. split; [exact W'|].
             left. by exists w''.
      + apply (Inside z1 Er). rewrite Ez in W'.
        destruct W' as [W' _]. by apply forallb_app_l in W'.
    - destruct z1 as [|c z1].
      + rewrite app_nil_r in Ec. apply (Inside [] ); [|reflexivity].
        by rewrite app_nil_r, Ec.
      + simpl in En. injection En as <- _.
        destruct (snoc_cases (z ++ core)) as [Hn|(r' & d & Hr)].
        { apply app_eq_nil in Hn as [_ ->]. discriminate. }
        rewrite Hr in Ec.
        assert (d = ")"%char) as ->.
        { assert (last (z ++ core) = Some d) as Ld by (by rewrite Hr, last_snoc).
          rewrite last_app, Hl in Ld. by injection Ld. }
        apply (core_no_break r' z1). rewrite Ec in C'.
        by rewrite <- app_assoc in C'. }
  assert (p' = p /\ u' = core ++ newline :: y) as [-> ->].
  { rewrite <- app_assoc in E. symmetry in E.
    by apply app_inj_1 in E as [? ?]. }
  clear E M' Lp.
  destruct (invocation_ends_match _ _ I) as (core' & w' & E & C' & W').
  exists w'. split; [|exact W'].
  symmetry in E.
  destruct (app_prefix_cases _ _ _ _ E) as [(z & Ec & Ew)|(z & Ec & En)].
  - destruct z as [|c z]; [by rewrite app_nil_l in Ew|]. exfalso.
    destruct (app_prefix_cases _ _ _ _ Ew) as [(z2 & Ez & Et)|(z2 & Ez & _)].
    + destruct z2 as [|c2 z2].
      * rewrite app_nil_r in Ez.
        assert (c :: z = []); [|discriminate].
        apply (last_not_space core' (c :: z) ")"); [|by rewrite <- Ec|done].
        rewrite Ez. exact (proj1 W').
      * destruct W' as [W' [[w'' ->]|[->| ->]]]; try discriminate.
        2:{ destruct z2; discriminate. }
        assert (c2 :: z2 = []); [|discriminate].
        apply (invocation_core_alone core); [exact C|].
        rewrite Ec, Ez. apply invocation_core_then; [exact C'|].
        split; [exact W'|]. left. by exists w''.
    + assert (c :: z = []); [|discriminate].
      apply (last_not_space core' (c :: z) ")"); [|by rewrite <- Ec|done].
      destruct W' as [W' _]. rewrite Ez in W'. by apply forallb_app_l in W'.
  - destruct z as [|c z].
    + by rewrite app_nil_l in En.
    + exfalso. simpl in En. injection En as <- _.
      destruct (snoc_cases core) as [->|(r' & d & Hr)]; [discriminate|].
      assert (d = ")"%char) as ->.
      { rewrite Hr, last_snoc in Hl. by injection Hl. }
      apply (core_no_break r' z). rewrite Ec, Hr in C'.
      by rewrite <- app_assoc in C'.
Qed.

Lemma split_after_block (b y : text) :
  split_commands b = [b] ->
  split_commands (b ++ newline :: y) = b :: split_commands y.
Proof.
  intros H. destruct (block_form _ H) as (p & core & -> & C & Lp & Mb).
  destruct (first_hit ((p ++ core) ++ newline :: y)) as [t'|] eqn:F.
  2:{ exfalso. rewrite first_hit_none in F.
      apply (F p (core ++ [newline] ++ y) y).
      - by rewrite <- app_assoc.
      - apply invocation_core_then; [exact C|]. split; [reflexivity|].
        left. by exists []. }
  destruct (first_hit_after_block _ _ _ _ C Mb F) as (w' & E & W).
  assert (strip ((p ++ core) ++ w') = p ++ core) as S.
  { by rewrite <- app_assoc, (strip_piece p core w' C (proj1 W)), Lp. }
  assert (split_commands t' = split_commands y) as <-.
  { destruct w' as [|c w'].
    - simpl in E. subst t'. destruct W as [_ [[w'' Ew]|[Et|Et]]].
      + by destruct w''.
      + discriminate.
      + injection Et as ->. reflexivity.
    - simpl in E. injection E as <- ->. symmetry.
      apply split_commands_spaces. destruct W as [W _]. exact W. }
  unfold split_commands at 1. rewrite findall_split, F.
  rewrite E, app_assoc, length_app.
  replace (length ((p ++ core) ++ w') + length t' - length t')
    with (length ((p ++ core) ++ w')) by lia.
  rewrite take_app_length. simpl map. rewrite S.
  rewrite filter_cons_True; [reflexivity|].
  destruct (invocation_core_ends _ C) as [Hh _].
  destruct (p ++ core) eqn:X; [|reflexivity].
  apply app_eq_nil in X as [_ ->]. discriminate.
Qed.

Lemma join_lines_cons (l : text) (ls : list text) :
  ls <> [] -> join_lines (l :: ls) = l ++ newline :: join_lines ls.
Proof. by destruct ls. Qed.

(** X7: blocks written one under the other, and any text under them: the
    splitter gives the blocks back, and then the blocks of that text. *)
Theorem split_commands_under_blocks (bs : list text) (y : text) :
  Forall (fun b => split_commands b = [b]) bs ->
  split_commands (join_lines (bs ++ [y])) = bs ++ split_commands y.
Proof.
  induction 1 as [|b bs Hb _ IH]; [reflexivity|].
  simpl app. rewrite join_lines_cons by (by destruct bs).
  by rewrite (split_after_block _ _ Hb), IH.
Qed.

Lemma split_commands_under_blocks_witness :
  split_commands
    (nls ["x = 1"; "execution = tool.execute(a=x)";
          "execution = tool.execute(a=2)";
          "y = 3"; "execution = tool.execute(a=y)"; "print(y)"])
  = [nls ["x = 1"; "execution = tool.execute(a=x)"];
     str "execution = tool.execute(a=2)";
     nls ["y = 3"; "execution = tool.execute(a=y)"]].
Proof.
  apply (split_commands_under_blocks
           [nls ["x = 1"; "execution = tool.execute(a=x)"];
            str "execution = tool.execute(a=2)"]
           (nls ["y = 3"; "execution = tool.execute(a=y)"; "print(y)"])).
  repeat constructor.
Defined.

Lemma split_join_blocks (bs : list text) :
  Forall (fun b => split_commands b = [b]) bs ->
  split_commands (join_lines bs) = bs.
Proof.
  induction 1 as [|b bs Hb Hbs IH]; [reflexivity|].
  destruct bs as [|b2 bs]; [exact Hb|].
  rewrite join_lines_cons by done.
  by rewrite (split_after_block _ _ Hb), IH.
Qed.

(** X8: the blocks of a command, written one under the other, are a command
    with the same blocks. *)
Theorem split_commands_of_its_blocks (command : text) :
  split_commands (join_lines (split_commands command))
  = split_commands command.
Proof.
  apply split_join_blocks, Forall_forall. intros b Hb.
  apply (block_resplits command). by apply list_elem_of_In.
Qed.

(** ** Commands without an invocation *)

Lemma occurs_at (w pre post : text) : find_sub w (pre ++ w ++ post) <> None.
Proof.
  destruct (find_sub_first w (pre ++ w ++ post) (length pre)) as (i & E & _).
  - rewrite drop_app_length. apply starts_with_app.
  - congruence.
Qed.

(** X9: a command that does not hold the word [execution], or does not hold
    [tool.execute(], has no block: the coordinator makes the tool ready and
    returns the empty list, or ends with the exception of making it
    ready. *)
Theorem no_invocation_no_block (command : text) :
  find_sub (str "execution") command = None \/
  find_sub (str "tool.execute(") command = None ->
  split_commands command = [] /\
  forall rt self tool_name w,
    execute_tool_command rt self tool_name command w =
    match make_tool rt self tool_name w with
    | (Ok _, w1) => (Ok (inl []), w1)
    | (Raise e, w1) => on_exception e w1
    end.
Proof.
  intros H.
  assert (split_commands command = []) as S.
  { apply split_commands_none, first_hit_none.
    intros pre u t -> (w1 & w2 & x & -> & _).
    destruct H as [H|H].
    - by apply (occurs_at (str "execution") pre
                  (w1 ++ str "=" ++ w2 ++ str "tool.execute(" ++ x)).
    - apply (occurs_at (str "tool.execute(")
               (pre ++ str "execution" ++ w1 ++ str "=" ++ w2) x).
      by rewrite <- !app_assoc. }
  split; [exact S|]. intros rt self tool_name w.
  rewrite execute_tool_command_eq, S.
  by destruct (make_tool rt self tool_name w) as [[tool|e] w1].
Qed.

Lemma no_invocation_no_block_witness :
  split_commands (nls ["result = tool.execute(query='a')"; "print(result)"])
  = [].
Proof.
  apply (no_invocation_no_block
           (nls ["result = tool.execute(query='a')"; "print(result)"])).
  left. reflexivity.
Defined.

Lemma only_longer_names_suffix (pre u : text) :
  only_longer_names (pre ++ u) = true -> only_longer_names u = true.
Proof.
  induction pre as [|c pre IH]; [done|]. simpl app. cbn [only_longer_names].
  intros [_ H]%andb_true_iff. auto.
Qed.

(** X17: a command in which the word [execution] is always the start of a
    longer name, as in [execution1 = tool.execute(...)], has no block. *)
Theorem longer_names_are_no_invocation (command : text) :
  only_longer_names command = true -> split_commands command = [].
Proof.
  intros H. apply split_commands_none, first_hit_none.
  intros pre u t -> (w1 & w2 & x & -> & W1 & _).
  apply only_longer_names_suffix in H.
  change (str "execution" ++ w1 ++ str "=" ++ w2 ++ str "tool.execute(" ++ x)
    with ("e"%char :: drop 1 (str "execution") ++ w1 ++ str "=" ++ w2
          ++ str "tool.execute(" ++ x) in H.
  cbn [only_longer_names] in H. apply andb_true_iff in H as [H _].
  change ("e"%char :: drop 1 (str "execution") ++ w1 ++ str "=" ++ w2
          ++ str "tool.execute(" ++ x)
    with (str "execution" ++ w1 ++ str "=" ++ w2 ++ str "tool.execute(" ++ x)
    in H.
  rewrite starts_with_app in H.
  change 9 with (length (str "execution")) in H.
  rewrite drop_app_length in H.
  destruct w1 as [|c w1]; simpl in H.
  - discriminate.
  - simpl in W1. apply andb_true_iff in W1 as [Hc _].
    rewrite Hc in H. discriminate.
Qed.

Lemma longer_names_are_no_invocation_witness :
  split_commands (nls ["execution1 = tool.execute(query='a')";
                       "execution2 = tool.execute(query='b')"]) = [].
Proof.
  apply (longer_names_are_no_invocation
           (nls ["execution1 = tool.execute(query='a')";
                 "execution2 = tool.execute(query='b')"])).
  vm_compute. reflexivity.
Defined.

(** X10: an invocation need not start its line: whatever stands before it on
    the line, a longer name or the sign of a comment, the line is a block. *)
Theorem invocation_anywhere_on_line (pre a : text) :
  forallb not_newline pre = true -> forallb not_newline a = true ->
  split_commands (pre ++ str "execution = tool.execute(" ++ a ++ str ")")
  = [lstrip_by is_space pre ++ str "execution = tool.execute(" ++ a
     ++ str ")"].
Proof.
  intros P A.
  assert (invocation_core (str "execution = tool.execute(" ++ a ++ str ")"))
    as C.
  { exists [" "%char], [" "%char], a. by repeat split. }
  pose proof (one_block [] (pre ++ str "execution = tool.execute(" ++ a
                            ++ str ")")) as O.
  rewrite app_nil_l in O. rewrite O.
  - pose proof (strip_piece pre _ [] C eq_refl) as S.
    rewrite app_nil_r in S. by rewrite S.
  - reflexivity.
  - repeat apply forallb_app_true; done.
  - apply invocation_line_iff.
    exists pre, (str "execution = tool.execute(" ++ a ++ str ")"), [].
    split; [reflexivity|]. apply invocation_nil_core.
    exists (str "execution = tool.execute(" ++ a ++ str ")"), [].
    by rewrite app_nil_r.
Qed.

Lemma invocation_anywhere_on_line_witness :
  split_commands (str "# execution = tool.execute(1)")
  = [str "# execution = tool.execute(1)"].
Proof.
  apply (invocation_anywhere_on_line (str "# ") (str "1")); reflexivity.
Defined.

(** ** The coordinator and the directory of the query *)

Lemma make_tool_without_dir (rt : runtime) (self : Executor)
    (tool_name : text) (w : world) :
  query_cache_dir self = None ->
  exists e w1, make_tool rt self tool_name w = (Raise e, w1).
Proof.
  intros Q. unfold make_tool, bind, getattr_class, get_query_cache_dir.
  rewrite Q.
  destruct (import_module rt (module_name tool_name) w) as [[module|e] w1];
    [|by eexists _, _].
  destruct (module tool_name) as [cls|]; [|by eexists _, _].
  unfold ret.
  destruct ((if require_llm_engine cls
             then construct cls (Some (llm_engine_name self))
             else construct cls None) w1) as [[tool|e] w2];
    [|by eexists _, _].
  destruct (set_custom_output_dir rt tool w2) as [[method|e] w3];
    by eexists _, _.
Qed.

(** X11: an [Executor] as its constructor leaves it has no
    [query_cache_dir]: until [set_query_cache_dir] is called, making the
    tool ready raises for every tool, the coordinator ends with that
    exception (its text, for an [Exception]) for every command, and runs
    no block, whatever [exec] would do; when the tool itself can be made
    ready, the result is the text of the error of the missing
    attribute. *)
Theorem execute_before_set_query_cache_dir (rt : runtime)
    (name root : text) (threads time : nat) (len : Z) (verb : bool)
    (tool_name command : text) (w : world) :
  let self := Executor_init name root threads time len verb in
  (exists e w1,
     make_tool rt self tool_name w = (Raise e, w1) /\
     execute_tool_command rt self tool_name command w = on_exception e w1) /\
  (forall exec' command',
     execute_tool_command
       (Build_runtime (import_module rt) (set_custom_output_dir rt) exec')
       self tool_name command' w
     = execute_tool_command rt self tool_name command w) /\
  (forall module w1 cls tool w2 method w3,
     import_module rt (module_name tool_name) w = (Ok module, w1) ->
     module tool_name = Some cls ->
     construct cls (if require_llm_engine cls then Some name else None) w1
     = (Ok tool, w2) ->
     set_custom_output_dir rt tool w2 = (Ok method, w3) ->
     execute_tool_command rt self tool_name command w
     = (Ok (inr (str "Error in execute_tool_command: 'Executor' object has no attribute 'query_cache_dir'")),
        w3)).
Proof.
  intros self. split; [|split].
  - destruct (make_tool_without_dir rt self tool_name w eq_refl)
      as (e & w1 & E).
    exists e, w1. split; [exact E|]. by rewrite execute_tool_command_eq, E.
  - intros exec' command'. rewrite !execute_tool_command_eq.
    destruct (make_tool_without_dir rt self tool_name w eq_refl)
      as (e & w1 & E).
    assert (make_tool (Build_runtime (import_module rt)
                         (set_custom_output_dir rt) exec') self tool_name w
            = make_tool rt self tool_name w) as -> by reflexivity.
    by rewrite E.
  - intros module w1 cls tool w2 method w3 Hi Hc Ht Hm.
    rewrite execute_tool_command_eq.
    unfold make_tool, bind, getattr_class, get_query_cache_dir, ret.
    rewrite Hi, Hc. simpl.
    assert ((if require_llm_engine cls
             then construct cls (Some name) else construct cls None) w1
            = (Ok tool, w2)) as ->.
    { by destruct (require_llm_engine cls). }
    by rewrite Hm.
Qed.

Lemma execute_before_set_query_cache_dir_witness :
  execute_tool_command sleeper_runtime
    (Executor_init (str "gpt-4o") (str "solver_cache") 1 120 100000 false)
    (str "Sleeper_Tool") quick_block idle
  = (Ok (inr (str "Error in execute_tool_command: 'Executor' object has no attribute 'query_cache_dir'")),
     idle).
Proof.
  refine (proj2 (proj2 (execute_before_set_query_cache_dir sleeper_runtime
                          (str "gpt-4o") (str "solver_cache") 1 120 100000
                          false (str "Sleeper_Tool") quick_block idle))
            sleeper_module idle sleeper_class (PObj 1) idle
            (fun _ => ret tt) idle _ _ _ _); reflexivity.
Defined.

(** X19: when the module of the tool is imported and has no attribute of
    the name of the tool, the coordinator returns the text of the
    [AttributeError] of [getattr], which names the module and the tool,
    and runs no block. *)
Theorem missing_class_is_an_error (rt : runtime) (self : Executor)
    (tool_name command : text) (w w1 : world)
    (module : text -> option tool_class) :
  import_module rt (module_name tool_name) w = (Ok module, w1) ->
  module tool_name = None ->
  execute_tool_command rt self tool_name command w
  = (Ok (inr (str "Error in execute_tool_command: module '"
              ++ module_name tool_name ++ str "' has no attribute '"
              ++ tool_name ++ str "'")), w1).
Proof.
  intros Hi Hc. rewrite execute_tool_command_eq.
  unfold make_tool, bind, getattr_class. rewrite Hi, Hc. reflexivity.
Qed.

Lemma missing_class_is_an_error_witness :
  execute_tool_command sleeper_runtime an_executor (str "Sleeper")
    quick_block idle
  = (Ok (inr (str "Error in execute_tool_command: module 'tools.sleeper.tool' has no attribute 'Sleeper'")),
     idle).
Proof.
  apply (missing_class_is_an_error sleeper_runtime an_executor
           (str "Sleeper") quick_block idle idle sleeper_module);
    reflexivity.
Defined.

(** ** The module of a tool *)

Lemma replace_from_busy (old new m y : text) :
  replace_from old new (m ++ y) (length m) = replace_from old new y 0.
Proof.
  induction m as [|c m IH]; simpl; [|exact IH].
  destruct y; reflexivity.
Qed.

Lemma replace_from_skip (old new x y : text) :
  (forall j, j < length x -> starts_with old (drop j (x ++ y)) = false) ->
  replace_from old new (x ++ y) 0 = x ++ replace_from old new y 0.
Proof.
  induction x as [|c x IH]; intros H; [reflexivity|].
  simpl app. cbn [replace_from].
  pose proof (H 0) as H0. simpl in H0. rewrite H0 by lia.
  f_equal. apply IH. intros j Hj. apply (H (S j)). simpl. lia.
Qed.

Lemma replace_from_here (old new y : text) :
  old <> [] ->
  replace_from old new (old ++ y) 0 = new ++ replace_from old new y 0.
Proof.
  intros N. destruct old as [|c old]; [done|].
  simpl app. cbn [replace_from].
  change (c :: old ++ y) with ((c :: old) ++ y).
  rewrite starts_with_app. f_equal.
  replace (length (c :: old) - 1) with (length old) by (simpl; lia).
  apply replace_from_busy.
Qed.

(** X12: a tool name without [_tool] in it, in small letters, names the
    module [tools.<name in small letters>.tool]; so does the name followed
    by [_Tool], in letters of any case. *)
Theorem module_name_drops_tool (name : text) :
  find_sub (str "_tool") (lower name) = None ->
  module_name name = str "tools." ++ lower name ++ str ".tool" /\
  forall suffix,
    lower suffix = str "_tool" ->
    module_name (name ++ suffix) = str "tools." ++ lower name ++ str ".tool".
Proof.
  intros F. unfold module_name, replace. split.
  - rewrite <- (app_nil_r (lower name)) at 1.
    rewrite replace_from_skip; [by rewrite app_nil_r|].
    intros j Hj. rewrite app_nil_r.
    destruct (starts_with (str "_tool") (drop j (lower name))) eqn:Hs;
      [|reflexivity].
    apply find_sub_first in Hs as (i & Hi & _). congruence.
  - intros suffix Hs. unfold lower in *. rewrite map_app, Hs.
    rewrite replace_from_skip.
    + rewrite <- (app_nil_r (str "_tool")) at 2.
      rewrite replace_from_here by done. simpl replace_from.
      by rewrite !app_nil_r.
    + intros j Hj.
      pose proof (no_straddle "_"%char (str "tool") (map lower_char name) []
                    F eq_refl j Hj) as N.
      by rewrite app_nil_r in N.
Qed.

Lemma module_name_drops_tool_witness :
  module_name (str "Image_Captioner" ++ str "_Tool")
  = str "tools.image_captioner.tool".
Proof.
  apply (module_name_drops_tool (str "Image_Captioner"));
    reflexivity.
Defined.

(** ** The directory of a query *)

Lemma decimal_inj (a b : nat) : decimal a = decimal b -> a = b.
Proof.
  unfold decimal, str. intros H.
  apply (f_equal string_of_list_ascii) in H.
  rewrite !string_of_list_ascii_of_string in H.
  apply (f_equal NilEmpty.uint_of_string) in H.
  rewrite !NilEmpty.usu in H. injection H as H.
  apply (f_equal Nat.of_uint) in H. by rewrite !Unsigned.of_to in H.
Qed.

Lemma below_in_seq (p : nat -> bool) (lo len n : nat) :
  forallb p (seq lo len) = true -> lo <= n < lo + len -> p n = true.
Proof.
  rewrite forallb_forall. intros H L. apply H, in_seq. lia.
Qed.

Lemma two_digits_shape (n : nat) :
  n < 100 ->
  length (two_digits n) = 2 /\ forallb digit_or_line (two_digits n) = true.
Proof.
  intros L.
  pose proof (below_in_seq
    (fun n => (length (two_digits n) =? 2)
              && forallb digit_or_line (two_digits n)) 0 100 n) as H.
  apply andb_true_iff in H as [H1 H2]; [|by vm_compute|lia].
  by apply Nat.eqb_eq in H1.
Qed.

Lemma decimal_revapp (x y : Decimal.uint) :
  str (NilEmpty.string_of_uint (Decimal.revapp x y))
  = str (NilEmpty.string_of_uint (Decimal.rev x))
    ++ str (NilEmpty.string_of_uint y).
Proof.
  revert y. unfold Decimal.rev.
  induction x as [|x IH|x IH|x IH|x IH|x IH|x IH|x IH|x IH|x IH|x IH];
    intros y; simpl; [reflexivity|..];
    rewrite IH, (IH (_ Decimal.Nil)); simpl;
    by rewrite <- app_assoc.
Qed.

Lemma decimal_tens (n k : nat) :
  n <> 0 -> k < 10 -> decimal (10 * n + k) = decimal n ++ decimal k.
Proof.
  intros N K. unfold decimal.
  rewrite !Unsigned.to_uint_alt.
  replace (10 * n + k) with (k + 10 * n) by lia.
  assert (Unsigned.to_lu (k + 10 * n)
          = Nat.iter k Decimal.Little.succ (Decimal.D0 (Unsigned.to_lu n)))
    as ->.
  { rewrite <- (Unsigned.to_lu_tenfold n N).
    generalize (10 * n). clear. intros m.
    induction k as [|k IH]; [reflexivity|].
    simpl. by rewrite IH. }
  do 10 (destruct k as [|k]; [unfold Decimal.rev; simpl Nat.iter;
    simpl Decimal.revapp; rewrite decimal_revapp; reflexivity|]).
  lia.
Qed.

Lemma year_digits (n : nat) :
  1000 <= n < 100 * 100 ->
  exists a b c d, 0 < a < 10 /\ b < 10 /\ c < 10 /\ d < 10 /\
    decimal n = decimal a ++ decimal b ++ decimal c ++ decimal d.
Proof.
  intros L.
  pose proof (Nat.div_mod_eq n 10) as E1.
  pose proof (Nat.mod_upper_bound n 10) as B1.
  pose proof (Nat.div_mod_eq (n / 10) 10) as E2.
  pose proof (Nat.mod_upper_bound (n / 10) 10) as B2.
  pose proof (Nat.div_mod_eq (n / 10 / 10) 10) as E3.
  pose proof (Nat.mod_upper_bound (n / 10 / 10) 10) as B3.
  set (d := n mod 10) in *. set (q1 := n / 10) in *.
  set (c := q1 mod 10) in *. set (q2 := q1 / 10) in *.
  set (b := q2 mod 10) in *. set (a := q2 / 10) in *.
  exists a, b, c, d. repeat split; try lia.
  rewrite E1, E2, E3.
  rewrite !decimal_tens by lia. by rewrite <- !app_assoc.
Qed.

Lemma digit_shape (k : nat) :
  k < 10 ->
  length (decimal k) = 1 /\ forallb digit_or_line (decimal k) = true.
Proof.
  intros L.
  pose proof (below_in_seq
    (fun n => (length (decimal n) =? 1)
              && forallb digit_or_line (decimal n)) 0 10 k) as H.
  apply andb_true_iff in H as [H1 H2]; [|by vm_compute|lia].
  by apply Nat.eqb_eq in H1.
Qed.

Lemma year_shape (n : nat) :
  1000 <= n < 100 * 100 ->
  length (decimal n) = 4 /\ forallb digit_or_line (decimal n) = true.
Proof.
  intros (a & b & c & d & A & B & C & D & ->)%year_digits.
  destruct (digit_shape a) as [A1 A2]; [lia|].
  destruct (digit_shape b B) as [B1 B2].
  destruct (digit_shape c C) as [C1 C2].
  destruct (digit_shape d D) as [D1 D2].
  split.
  - by rewrite !length_app, A1, B1, C1, D1.
  - repeat apply forallb_app_true; done.
Qed.

Lemma no_zero_in_front (n : nat) :
  10 <= n < 100 ->
  match decimal n with c :: _ => negb (chr_eqb c "0") | [] => false end
  = true.
Proof.
  intros L.
  apply (below_in_seq
    (fun n => match decimal n with
              | c :: _ => negb (chr_eqb c "0")
              | [] => false
              end) 10 90 n); [by vm_compute | lia].
Qed.

Lemma two_digits_inj (a b : nat) :
  a < 100 -> b < 100 -> two_digits a = two_digits b -> a = b.
Proof.
  intros La Lb. unfold two_digits.
  destruct (a <? 10) eqn:Ha, (b <? 10) eqn:Hb; intros H.
  - injection H as H. by apply decimal_inj.
  - exfalso. apply Nat.ltb_ge in Hb.
    pose proof (no_zero_in_front b) as Z. rewrite <- H in Z.
    simpl in Z. discriminate Z. lia.
  - exfalso. apply Nat.ltb_ge in Ha.
    pose proof (no_zero_in_front a) as Z. rewrite H in Z.
    simpl in Z. discriminate Z. lia.
  - by apply decimal_inj.
Qed.

Lemma two_digits_length (n : nat) : n < 100 -> length (two_digits n) = 2.
Proof. intros L. by destruct (two_digits_shape n L). Qed.

Lemma strftime_shape (t : datetime) :
  valid_datetime t ->
  length (strftime t) = 15 /\ forallb digit_or_line (strftime t) = true.
Proof.
  intros (Y & Mo & D & H & Mi & S). unfold strftime.
  destruct (year_shape (year t) Y) as [Y1 Y2].
  destruct (two_digits_shape (month t)) as [A1 A2]; [lia|].
  destruct (two_digits_shape (day t)) as [B1 B2]; [lia|].
  destruct (two_digits_shape (hour t)) as [C1 C2]; [lia|].
  destruct (two_digits_shape (minute t)) as [D1 D2]; [lia|].
  destruct (two_digits_shape (second t)) as [E1 E2]; [lia|].
  split.
  - rewrite !length_app, Y1, A1, B1, C1, D1, E1. reflexivity.
  - repeat apply forallb_app_true; done.
Qed.

Lemma strftime_inj (t1 t2 : datetime) :
  valid_datetime t1 -> valid_datetime t2 ->
  strftime t1 = strftime t2 -> t1 = t2.
Proof.
  intros (Y & Mo & D & H & Mi & S) (Y' & Mo' & D' & H' & Mi' & S').
  unfold strftime. intros E.
  apply app_inj_1 in E as [E1 E].
  2:{ by rewrite (proj1 (year_shape _ Y)), (proj1 (year_shape _ Y')). }
  apply app_inj_1 in E as [E2 E].
  2:{ rewrite !two_digits_length by lia. reflexivity. }
  apply app_inj_1 in E as [E3 E].
  2:{ rewrite !two_digits_length by lia. reflexivity. }
  apply app_inj_1 in E as [_ E]; [|reflexivity].
  apply app_inj_1 in E as [E4 E].
  2:{ rewrite !two_digits_length by lia. reflexivity. }
  apply app_inj_1 in E as [E5 E6].
  2:{ rewrite !two_digits_length by lia. reflexivity. }
  apply decimal_inj in E1.
  apply two_digits_inj in E2, E3, E4, E5, E6; try lia.
  destruct t1, t2. simpl in *. by subst.
Qed.

Lemma stamp_is_relative (b : text) :
  forallb digit_or_line b = true -> starts_with (str "/") b = false.
Proof.
  destruct b as [|c b]; [reflexivity|]. simpl.
  intros [Hc _]%andb_true_iff.
  destruct (chr_eqb c "/") eqn:E; [|reflexivity].
  apply chr_eqb_eq in E. by subst c.
Qed.

Lemma path_join_relative (path b : text) :
  starts_with (str "/") b = false ->
  exists sep, (sep = [] \/ sep = str "/") /\
              (forall b', starts_with (str "/") b' = false ->
                          path_join path b' = path ++ sep ++ b') /\
              path_join path b = path ++ sep ++ b.
Proof.
  intros R. unfold path_join.
  destruct (negb (nonempty path)
            || match last path with
               | Some c => chr_eqb c "/"
               | None => false
               end) eqn:P.
  - exists []. split; [by left|]. split; [intros b' ->|rewrite R]; done.
  - exists (str "/"). split; [by right|].
    split; [intros b' ->|rewrite R]; done.
Qed.

(** X13: without a directory, [None] or the empty text, the directory of the
    query is the root directory followed by the time of the clock as
    [YYYYmmdd_HHMMSS], fifteen digits and one low line, joined by a [/]
    where the root does not bring one; and on one root two calls give the
    same directory exactly when the clock shows the same second. *)
Theorem default_query_cache_dir (h : host) (self : Executor)
    (arg : option text) (w : world) (t : datetime) (w1 : world) :
  arg = None \/ arg = Some [] -> now h w = (Ok t, w1) -> valid_datetime t ->
  exists d,
    set_query_cache_dir h self arg w
    = (with_query_cache_dir self d, makedirs h d w1) /\
    (d = root_cache_dir self ++ strftime t \/
     d = root_cache_dir self ++ str "/" ++ strftime t) /\
    length (strftime t) = 15 /\
    forallb digit_or_line (strftime t) = true /\
    forall arg' w' t' w1',
      arg' = None \/ arg' = Some [] -> now h w' = (Ok t', w1') ->
      valid_datetime t' ->
      (fst (set_query_cache_dir h self arg' w') = with_query_cache_dir self d
       <-> t' = t).
Proof.
  intros A N V. destruct (strftime_shape t V) as [L F].
  destruct (path_join_relative (root_cache_dir self) (strftime t)
              (stamp_is_relative _ F)) as (sep & Hsep & J & Jt).
  assert (forall arg' w' t' w1',
            arg' = None \/ arg' = Some [] -> now h w' = (Ok t', w1') ->
            set_query_cache_dir h self arg' w'
            = (with_query_cache_dir self
                 (path_join (root_cache_dir self) (strftime t')),
               makedirs h (path_join (root_cache_dir self) (strftime t'))
                        w1')) as Eq.
  { intros arg' w' t' w1' A' N'. unfold set_query_cache_dir.
    destruct A' as [-> | ->]; by rewrite N'. }
  exists (path_join (root_cache_dir self) (strftime t)).
  split; [by apply Eq|]. split.
  { rewrite Jt. destruct Hsep as [-> | ->]; [by left | by right]. }
  split; [exact L|]. split; [exact F|].
  intros arg' w' t' w1' A' N' V'. rewrite (Eq _ _ _ _ A' N'). simpl.
  destruct (strftime_shape t' V') as [_ F'].
  rewrite Jt, (J _ (stamp_is_relative _ F')). split.
  - intros E. apply (f_equal query_cache_dir) in E. simpl in E.
    injection E as E. apply app_inv_head in E. apply app_inv_head in E.
    by apply strftime_inj.
  - by intros ->.
Qed.

Lemma default_query_cache_dir_witness :
  exists d,
    set_query_cache_dir a_host an_executor None idle
    = (with_query_cache_dir an_executor d, makedirs a_host d idle) /\
    (d = root_cache_dir an_executor ++ strftime a_second \/
     d = root_cache_dir an_executor ++ str "/" ++ strftime a_second) /\
    length (strftime a_second) = 15 /\
    forallb digit_or_line (strftime a_second) = true /\
    forall arg' w' t' w1',
      arg' = None \/ arg' = Some [] -> now a_host w' = (Ok t', w1') ->
      valid_datetime t' ->
      (fst (set_query_cache_dir a_host an_executor arg' w')
       = with_query_cache_dir an_executor d <-> t' = a_second).
Proof.
  apply (default_query_cache_dir a_host an_executor None idle a_second idle).
  - by left.
  - reflexivity.
  - unfold valid_datetime. simpl. lia.
Defined.

(** X14: [set_query_cache_dir] leaves [self] as it was when the clock
    raises, and in every other case with the directory that it then makes,
    whether making it raises or not; a directory that is given is taken as
    it is, without a look at the clock; and the coordinator hands the
    directory to [set_custom_output_dir] of the tool. *)
Theorem set_query_cache_dir_records (h : host) (self : Executor)
    (arg : option text) (w : world) :
  (exists e w1,
     set_query_cache_dir h self arg w = (self, (Raise e, w1)) /\
     now h w = (Raise e, w1) /\ (arg = None \/ arg = Some [])) \/
  (exists dir w1,
     set_query_cache_dir h self arg w
     = (with_query_cache_dir self dir, makedirs h dir w1) /\
     (forall c d, arg = Some (c :: d) -> dir = c :: d /\ w1 = w) /\
     forall rt tool_name w' module w1' cls tool w2 method w3,
       import_module rt (module_name tool_name) w' = (Ok module, w1') ->
       module tool_name = Some cls ->
       construct cls (if require_llm_engine cls
                      then Some (llm_engine_name self) else None) w1'
       = (Ok tool, w2) ->
       set_custom_output_dir rt tool w2 = (Ok method, w3) ->
       make_tool rt (with_query_cache_dir self dir) tool_name w' =
       match method dir w3 with
       | (Ok _, w4) => (Ok tool, w4)
       | (Raise e, w4) => (Raise e, w4)
       end).
Proof.
  assert (forall dir rt tool_name w' module w1' cls tool w2 method w3,
       import_module rt (module_name tool_name) w' = (Ok module, w1') ->
       module tool_name = Some cls ->
       construct cls (if require_llm_engine cls
                      then Some (llm_engine_name self) else None) w1'
       = (Ok tool, w2) ->
       set_custom_output_dir rt tool w2 = (Ok method, w3) ->
       make_tool rt (with_query_cache_dir self dir) tool_name w' =
       match method dir w3 with
       | (Ok _, w4) => (Ok tool, w4)
       | (Raise e, w4) => (Raise e, w4)
       end) as Use.
  { intros dir rt tool_name w' module w1' cls tool w2 method w3 Hi Hc Ht Hm.
    unfold make_tool, bind, getattr_class, get_query_cache_dir, ret.
    rewrite Hi, Hc. simpl.
    assert ((if require_llm_engine cls
             then construct cls (Some (llm_engine_name self))
             else construct cls None) w1' = (Ok tool, w2)) as ->.
    { by destruct (require_llm_engine cls). }
    rewrite Hm. by destruct (method dir w3) as [[[]|e] w4]. }
  unfold set_query_cache_dir.
  destruct arg as [[|c d]|].
  - destruct (now h w) as [[t|e] w1] eqn:N.
    + right. eexists _, w1. split; [reflexivity|]. split; [done|apply Use].
    + left. exists e, w1. repeat split. by right.
  - right. exists (c :: d), w. split; [reflexivity|].
    split; [by intros ? ? [= -> ->] | apply Use].
  - destruct (now h w) as [[t|e] w1] eqn:N.
    + right. eexists _, w1. split; [reflexivity|]. split; [done|apply Use].
    + left. exists e, w1. repeat split. by left.
Qed.

Lemma set_query_cache_dir_records_witness :
  set_query_cache_dir read_only_host
    (Executor_init (str "gpt-4o") (str "solver_cache") 1 120 100000 false)
    (Some (str "cache/q1")) idle
  = (with_query_cache_dir
       (Executor_init (str "gpt-4o") (str "solver_cache") 1 120 100000 false)
       (str "cache/q1"),
     (Raise (OtherError (str "[Errno 13] Permission denied: 'cache/q1'")),
      idle)).
Proof.
  destruct (set_query_cache_dir_records read_only_host
              (Executor_init (str "gpt-4o") (str "solver_cache") 1 120
                             100000 false)
              (Some (str "cache/q1")) idle)
    as [(e & w1 & _ & _ & [A|A])|(dir & w1 & E & D & _)];
    try discriminate A.
  destruct (D _ _ eq_refl) as [-> ->]. exact E.
Defined.

(** ** From the answer to the blocks *)

Lemma block_is_stripped (b : text) :
  split_commands b = [b] ->
  stripped b /\ last b = Some ")"%char /\ b <> [].
Proof.
  intros H. destruct (block_form _ H) as (p & core & -> & C & Lp & _).
  destruct (invocation_core_ends _ C) as [Hh Hl].
  assert (last (p ++ core) = Some ")"%char) as L by (by rewrite last_app, Hl).
  split; [|split].
  - split; [|by rewrite L].
    destruct p as [|c p].
    + simpl. by rewrite Hh.
    + simpl. apply lstrip_by_fixed in Lp. exact Lp.
  - exact L.
  - intros E. rewrite E in L. discriminate.
Qed.

Lemma join_lines_stripped (bs : list text) :
  bs <> [] ->
  Forall (fun b => stripped b /\ last b = Some ")"%char /\ b <> []) bs ->
  stripped (join_lines bs) /\ last (join_lines bs) = Some ")"%char.
Proof.
  intros N H. induction H as [|b bs (Sb & Lb & Nb) Hbs IH]; [done|].
  destruct bs as [|b2 bs]; [by split|].
  destruct IH as [[_ Sl] Ll]; [done|].
  rewrite join_lines_cons by done.
  assert (last (b ++ newline :: join_lines (b2 :: bs)) = Some ")"%char) as L.
  { by rewrite last_app, last_cons, Ll. }
  split; [|exact L]. split; [|by rewrite L].
  destruct b as [|c b]; [done|]. simpl. exact (proj1 Sb).
Qed.

(** X15: what the answer gives to run: when the command of an answer in the
    structure of the prompt is blocks written one under the other, without a
    closing fence in them, the parser returns that command as it is, the
    splitter returns those blocks, and the coordinator makes the tool ready
    and runs them, one after the other. *)
Theorem answer_runs_its_blocks decode (pre a e post : text)
    (bs : list text) :
  decode (pre ++ output_format a e (join_lines bs) ++ post) = None ->
  find_sub analysis_marker pre = None ->
  find_sub explanation_marker pre = None ->
  find_sub command_marker pre = None ->
  find_sub (str "Command Explanation") a = None ->
  find_sub (str "Generated Command") a = None ->
  find_sub (str "Generated Command") e = None ->
  bs <> [] ->
  Forall (fun b => split_commands b = [b]) bs ->
  find_sub fence_close (join_lines bs) = None ->
  extract_explanation_and_command decode
    (RText (pre ++ output_format a e (join_lines bs) ++ post))
  = Ok (strip a, strip e, join_lines bs) /\
  split_commands (join_lines bs) = bs /\
  forall rt self tool_name w,
    execute_tool_command rt self tool_name (join_lines bs) w =
    match make_tool rt self tool_name w with
    | (Raise x, w1) => on_exception x w1
    | (Ok tool, w1) =>
        match run_blocks rt self tool bs [] w1 with
        | (Raise x, w2) => on_exception x w2
        | (Ok l, w2) => (Ok (inl l), w2)
        end
    end.
Proof.
  intros D P1 P2 P3 A1 A2 E2 N B C3.
  pose proof (split_join_blocks bs B) as S.
  split; [|split; [exact S|]].
  - rewrite (extract_free_text _ _ D).
    destruct (output_format_fields pre a e (join_lines bs) post
                P1 P2 P3 A1 A2 E2 C3) as (-> & -> & ->).
    unfold field_or. rewrite !strip_line, strip_line_end.
    destruct (join_lines_stripped bs N) as [St Ll].
    { eapply Forall_impl; [exact B|]. intros b. apply block_is_stripped. }
    rewrite (proj2 (strip_fixed _) St).
    rewrite (proj2 (normalize_code_fixed _ St)); [reflexivity|].
    split; [|by rewrite Ll].
    destruct (starts_with fence_open (join_lines bs)) eqn:Hs; [|reflexivity].
    exfalso. apply starts_with_iff in Hs as [t Ht].
    apply (occurs_at fence_close [] (str "python" ++ t)).
    by rewrite <- C3, Ht.
  - intros rt self tool_name w. by rewrite execute_tool_command_eq, S.
Qed.

Lemma answer_runs_its_blocks_witness :
  extract_explanation_and_command (fun _ => None)
    (RText ((str "Sure." ++ [newline])
            ++ output_format (str "two calls") (str "first 5, then 7")
                 (join_lines [quick_block; last_block])
            ++ []))
  = Ok (str "two calls", str "first 5, then 7",
        join_lines [quick_block; last_block]) /\
  execute_tool_command sleeper_runtime an_executor (str "Sleeper_Tool")
    (join_lines [quick_block; last_block]) idle
  = (Ok (inl [PInt 5; PInt 7]), World None true ∅ true).
Proof.
  assert (Forall (fun b => split_commands b = [b]) [quick_block; last_block])
    as B.
  { repeat constructor. }
  destruct (answer_runs_its_blocks (fun _ => None) (str "Sure." ++ [newline])
              (str "two calls") (str "first 5, then 7") []
              [quick_block; last_block] eq_refl eq_refl eq_refl eq_refl
              eq_refl eq_refl eq_refl ltac:(discriminate) B eq_refl)
    as (E & _ & R).
  split; [exact E|]. rewrite R. vm_compute. reflexivity.
Defined.

(** ** The alarm after the coordinator *)





